(** * Optimizer update operators (src/operator/optimizer_op-inl.h)

    A shallow embedding of the parameter-update kernels of
    [optimizer_op-inl.h]: SGD, SGD with momentum, their mixed-precision
    variants, Adam and the two RMSProp rules, with the row-sparse kernels,
    the storage-combination drivers and the dispatch entry points.

    Modelling choices.
    - The kernels are C++ templates over the element type [DType]; here they
      are functions over any type carrying the arithmetic of [RealType].
      The frame, precondition and dispatch theorems hold for every such type.
      The theorems about the update formulas are proved for the instance of
      the real numbers, that is in exact arithmetic: they say which formula
      the code computes, not how its result is rounded.  What the rounding
      of an element type of the code changes is shown on the instance of
      the binary64 numbers ([double]).
    - Raw pointers ([DType*]) are block identifiers; [p[i]] is the cell [i]
      of block [p].  Two pointer arguments alias when they are the same
      block, as [out] and [weight] do under [kWriteInplace].
    - [mshadow::index_t] is [unsigned] (32 bits): arithmetic assigned to an
      [index_t] is reduced modulo [2^32].  [nnvm::dim_t] is a signed 64-bit
      integer, whose overflow is undefined; it is modelled by [Z]. *)

From Stdlib Require Import ZArith Reals Lra Lia List Bool String.
From Stdlib Require Floats.
Import ListNotations.

Set Implicit Arguments.

(** ** Element types *)

(** The operations the kernels use on an element type.  [clip], [square]
    and [square_root] are the [mshadow_op] functors of those names. *)
Class RealType (T : Type) := {
  rzero : T;
  rone : T;
  radd : T -> T -> T;
  rsub : T -> T -> T;
  rmul : T -> T -> T;
  rdiv : T -> T -> T;
  (** [x >= 0.0f] *)
  rge0 : T -> bool;
  (** [x != 0] *)
  rnonzero : T -> bool;
  clip : T -> T -> T;
  square : T -> T;
  square_root : T -> T
}.

(** [static_cast<B>(a)] for [a : A]. *)
Class StaticCast (A B : Type) := static_cast : A -> B.

Declare Scope num_scope.
Delimit Scope num_scope with num.
Infix "+" := radd : num_scope.
Infix "-" := rsub : num_scope.
Infix "*" := rmul : num_scope.
Infix "/" := rdiv : num_scope.

(** ** Memory *)

Definition ptr := nat.

Definition mem (T : Type) := ptr -> Z -> T.

Definition load {T} (m : mem T) (p : ptr) (i : Z) : T := m p i.

Definition store {T} (m : mem T) (p : ptr) (i : Z) (v : T) : mem T :=
  fun q j => if (Nat.eqb q p && Z.eqb j i)%bool then v else m q j.

(** ** Loops and kernel launch *)

(** [for (k = 0; k < n; k++) body(k)] *)
Fixpoint for_loop {S : Type} (n : nat) (body : Z -> S -> S) (s : S) : S :=
  match n with
  | O => s
  | Datatypes.S k => body (Z.of_nat k) (for_loop k body s)
  end.

(** Modelled from the spec: [mxnet_op::Kernel<OP, xpu>::Launch] (mxnet_op.h)
    is the "kernel-launch facility accepting a work-item count and a
    per-item callable"; it runs [OP::Map(i, args...)] for every [i] in
    [[0, N)].  The items are run in increasing order. *)
Definition Launch {S : Type} (N : Z) (Map : Z -> S -> S) (s : S) : S :=
  for_loop (Z.to_nat N) Map s.

(** [mshadow::index_t] *)
Definition index_t (x : Z) : Z := x mod 2 ^ 32.

(** ** Write modes *)

Inductive OpReqType := kNullOp | kWriteTo | kWriteInplace | kAddTo.

Definition OpReqType_eqb (a b : OpReqType) : bool :=
  match a, b with
  | kNullOp, kNullOp | kWriteTo, kWriteTo
  | kWriteInplace, kWriteInplace | kAddTo, kAddTo => true
  | _, _ => false
  end.

(** Modelled from the spec: [KERNEL_ASSIGN(out, req, val)] (mxnet_op.h) is
    the "small inline helper shared by all kernels" that stores by write
    mode: "overwrite, accumulate-into, in-place-required, or skip". *)
Definition KERNEL_ASSIGN {T} `{RealType T} (m : mem T) (out : ptr) (i : Z)
    (req : OpReqType) (val : T) : mem T :=
  match req with
  | kNullOp => m
  | kWriteTo | kWriteInplace => store m out i val
  | kAddTo => store m out i (load m out i + val)%num
  end.

(** Modelled from the spec: [MXNET_ASSIGN_REQ_SWITCH(req, ReqType, ...)]
    (mxnet_op.h) runs its body with the compile-time write mode of [req]:
    nothing for skip, overwrite for overwrite and in-place, accumulate for
    accumulate. *)
Definition MXNET_ASSIGN_REQ_SWITCH {S : Type} (req : OpReqType)
    (body : OpReqType -> S -> S) (s : S) : S :=
  match req with
  | kNullOp => s
  | kWriteTo | kWriteInplace => body kWriteTo s
  | kAddTo => body kAddTo s
  end.

(** ** Tensors *)

Definition TShape := list Z.

Definition Size (s : TShape) : Z := fold_right Z.mul 1%Z s.

(** [s.ProdShape(1, s.ndim())] *)
Definition ProdShape1 (s : TShape) : Z := fold_right Z.mul 1%Z (tl s).

Record TBlob := { dptr_ : ptr; shape_ : TShape }.

Definition null_blob : TBlob := {| dptr_ := O; shape_ := [] |}.

(** A whole-tensor expression statement [dst = rhs]: mshadow evaluates the
    right-hand side element by element over the shape of [dst]. *)
Definition tensor_assign {T} (dst : TBlob) (rhs : mem T -> Z -> T)
    (m : mem T) : mem T :=
  Launch (Size (shape_ dst))
    (fun i m => store m (dptr_ dst) i (rhs m i)) m.

(** Modelled from the spec: [Assign(out, req, exp)] (operator_common.h)
    stores a tensor expression by write mode, as [KERNEL_ASSIGN] does for
    one element. *)
Definition Assign {T} `{RealType T} (out : TBlob) (req : OpReqType)
    (exp : mem T -> Z -> T) (m : mem T) : mem T :=
  match req with
  | kNullOp => m
  | kWriteTo | kWriteInplace => tensor_assign out exp m
  | kAddTo =>
      tensor_assign out (fun m i => load m (dptr_ out) i + exp m i)%num m
  end.

(** ** Hyperparameter records

    The fields are [float] in the source; the records are parametric in the
    type that models it. *)

Module SGDParam.
Record t (float : Type) := mk
  { lr : float; wd : float; rescale_grad : float; clip_gradient : float }.
End SGDParam.

Module SGDMomParam.
Record t (float : Type) := mk
  { lr : float; momentum : float; wd : float; rescale_grad : float;
    clip_gradient : float }.
End SGDMomParam.

Module AdamParam.
Record t (float : Type) := mk
  { lr : float; beta1 : float; beta2 : float; epsilon : float; wd : float;
    rescale_grad : float; clip_gradient : float }.
End AdamParam.

Module RMSPropAlexParam.
Record t (float : Type) := mk
  { lr : float; gamma1 : float; gamma2 : float; epsilon : float;
    wd : float; rescale_grad : float; clip_gradient : float;
    clip_weights : float }.
End RMSPropAlexParam.

Module RMSPropParam.
Record t (float : Type) := mk
  { lr : float; gamma1 : float; epsilon : float; wd : float;
    rescale_grad : float; clip_gradient : float; clip_weights : float }.
End RMSPropParam.

(** ** Kernels over one element type *)

Section Kernels.

Context {DType : Type} `{RealType DType}.

Local Open Scope num_scope.
Local Open Scope Z_scope.

Notation "1.f" := rone (only parsing).

(** [SGDKernel::Map] *)
Definition SGDKernel_Map (i : Z) (out_data weight_data grad_data : ptr)
    (param_clip_gradient param_lr param_wd param_rescale_grad : DType)
    (req : OpReqType) (m : mem DType) : mem DType :=
  if rge0 param_clip_gradient then
    KERNEL_ASSIGN m out_data i req
      ((1.f - param_lr * param_wd) * load m weight_data i
       - param_lr
         * clip (param_rescale_grad * load m grad_data i)
             param_clip_gradient)%num
  else
    KERNEL_ASSIGN m out_data i req
      ((1.f - param_lr * param_wd) * load m weight_data i
       - (param_lr * param_rescale_grad) * load m grad_data i)%num.

(** [SGDDnsRspKernel<req>::Map]: [i] is the [i]-th row of the row-sparse
    gradient. *)
Definition SGDDnsRspKernel_Map (req : OpReqType) (i : Z) (row_length : Z)
    (out weight : ptr) (grad_idx : Z -> Z) (grad_val : ptr)
    (clip_gradient lr wd rescale_grad : DType)
    (m : mem DType) : mem DType :=
  for_loop (Z.to_nat row_length)
    (fun j m =>
       let data_i := index_t (grad_idx i * row_length + j) in
       let grad_i := index_t (i * row_length + j) in
       if rge0 clip_gradient then
         KERNEL_ASSIGN m out data_i req
           ((1.f - lr * wd) * load m weight data_i
            - lr * clip (rescale_grad * load m grad_val grad_i)
                     clip_gradient)%num
       else
         KERNEL_ASSIGN m out data_i req
           ((1.f - lr * wd) * load m weight data_i
            - (lr * rescale_grad) * load m grad_val grad_i)%num)
    m.

(** The scan of one dense-gradient row, from column [j], for a non-zero
    entry: [for (; j < num_cols; ++j) if (grad[offset + j] != 0) ...
    break;] with [fuel] columns left. *)
Fixpoint contains_non_zeros (fuel : nat) (m : mem DType) (grad : ptr)
    (offset j : Z) : bool :=
  match fuel with
  | O => false
  | Datatypes.S k =>
      if rnonzero (load m grad (index_t (offset + j))) then true
      else contains_non_zeros k m grad offset (index_t (j + 1))
  end.

(** [SGDRspDnsKernel<req>::Map] *)
Definition SGDRspDnsKernel_Map (req : OpReqType) (i : Z) (num_cols : Z)
    (out weight grad : ptr) (clip_gradient lr wd rescale_grad : DType)
    (m : mem DType) : mem DType :=
  let offset := index_t (i * num_cols) in
  if negb (contains_non_zeros (Z.to_nat num_cols) m grad offset 0) then m
  else
    let rate := (1.f - lr * wd)%num in
    for_loop (Z.to_nat num_cols)
      (fun j m =>
         let index := index_t (offset + j) in
         if rge0 clip_gradient then
           KERNEL_ASSIGN m out index req
             (rate * load m weight index
              - lr * clip (rescale_grad * load m grad index)
                       clip_gradient)%num
         else
           KERNEL_ASSIGN m out index req
             (rate * load m weight index
              - lr * rescale_grad * load m grad index)%num)
      m.

(** [SGDMomKernel::Map] *)
Definition SGDMomKernel_Map (i : Z)
    (out_data mom_data weight_data grad_data : ptr)
    (param_clip_gradient param_momentum param_lr param_wd
       param_rescale_grad : DType)
    (req : OpReqType) (m : mem DType) : mem DType :=
  let m1 :=
    if rge0 param_clip_gradient then
      store m mom_data i
        (param_momentum * load m mom_data i
         - param_lr * param_wd * load m weight_data i
         - param_lr
           * clip (param_rescale_grad * load m grad_data i)
               param_clip_gradient)%num
    else
      store m mom_data i
        (param_momentum * load m mom_data i
         - param_lr * param_wd * load m weight_data i
         - param_lr * param_rescale_grad * load m grad_data i)%num in
  KERNEL_ASSIGN m1 out_data i req
    (load m1 weight_data i + load m1 mom_data i)%num.

(** [SGDMomDnsRspDnsKernel<req>::Map] *)
Definition SGDMomDnsRspDnsKernel_Map (req : OpReqType) (i : Z)
    (row_length : Z) (out_data mom_data weight_data : ptr)
    (grad_idx : Z -> Z) (grad_data : ptr)
    (clip_gradient momentum lr wd rescale_grad : DType)
    (m : mem DType) : mem DType :=
  let rate := (lr * wd)%num in
  for_loop (Z.to_nat row_length)
    (fun j m =>
       let data_i := index_t (grad_idx i * row_length + j) in
       let grad_i := index_t (i * row_length + j) in
       let m1 :=
         if rge0 clip_gradient then
           store m mom_data data_i
             (momentum * load m mom_data data_i
              - rate * load m weight_data data_i
              - lr * clip (rescale_grad * load m grad_data grad_i)
                       clip_gradient)%num
         else
           store m mom_data data_i
             (momentum * load m mom_data data_i
              - rate * load m weight_data data_i
              - lr * rescale_grad * load m grad_data grad_i)%num in
       KERNEL_ASSIGN m1 out_data data_i req
         (load m1 weight_data data_i + load m1 mom_data data_i)%num)
    m.

(** [SGDMomRspDnsKernel<req>::Map] *)
Definition SGDMomRspDnsKernel_Map (req : OpReqType) (i : Z) (num_cols : Z)
    (out mom weight grad : ptr)
    (clip_gradient momentum lr wd rescale_grad : DType)
    (m : mem DType) : mem DType :=
  let offset := index_t (i * num_cols) in
  if negb (contains_non_zeros (Z.to_nat num_cols) m grad offset 0) then m
  else
    let rate := (lr * wd)%num in
    for_loop (Z.to_nat num_cols)
      (fun j m =>
         let index := index_t (offset + j) in
         let m1 :=
           if rge0 clip_gradient then
             store m mom index
               (momentum * load m mom index - rate * load m weight index
                - lr * clip (rescale_grad * load m grad index)
                         clip_gradient)%num
           else
             store m mom index
               (momentum * load m mom index - rate * load m weight index
                - lr * rescale_grad * load m grad index)%num in
         KERNEL_ASSIGN m1 out index req
           (load m1 weight index + load m1 mom index)%num)
      m.

(** [AdamDnsRspDnsKernel<req>::Map]; the indices are [nnvm::dim_t]. *)
Definition AdamDnsRspDnsKernel_Map (req : OpReqType) (i : Z)
    (row_length : Z) (out_data mean_data var_data weight_data : ptr)
    (grad_idx : Z -> Z) (grad_data : ptr)
    (clip_gradient beta1 beta2 lr wd epsilon rescale_grad : DType)
    (m : mem DType) : mem DType :=
  let row_offset := grad_idx i * row_length in
  for_loop (Z.to_nat row_length)
    (fun j m =>
       let data_i := row_offset + j in
       let grad_i := i * row_length + j in
       let grad_rescaled :=
         (load m grad_data grad_i * rescale_grad
          + load m weight_data data_i * wd)%num in
       let m2 :=
         if rge0 clip_gradient then
           let m1 :=
             store m mean_data data_i
               (beta1 * load m mean_data data_i
                + (1.f - beta1) * clip grad_rescaled clip_gradient)%num in
           store m1 var_data data_i
             (beta2 * load m1 var_data data_i
              + (1.f - beta2)
                * square (clip grad_rescaled clip_gradient))%num
         else
           let m1 :=
             store m mean_data data_i
               (beta1 * load m mean_data data_i
                + (1.f - beta1) * grad_rescaled)%num in
           store m1 var_data data_i
             (beta2 * load m1 var_data data_i
              + (1.f - beta2) * grad_rescaled * grad_rescaled)%num in
       KERNEL_ASSIGN m2 out_data data_i req
         (load m2 weight_data data_i
          - lr * load m2 mean_data data_i
            / (square_root (load m2 var_data data_i) + epsilon))%num)
    m.

End Kernels.


(** ** Mixed-precision kernels

    The tensors of element type [DType] and the [float] tensors ([weight32],
    and the momentum of [MP_SGDMomKernel]) live in two memories. *)

Section MixedPrecisionKernels.

Context {DType float : Type} `{RealType DType} `{RealType float}
  `{StaticCast DType float} `{StaticCast float DType}.

Local Open Scope num_scope.
Local Open Scope Z_scope.

Notation "1.f" := rone (only parsing).

(** [MP_SGDKernel::Map] *)
Definition MP_SGDKernel_Map (i : Z) (out_data weight_data grad_data : ptr)
    (weight32 : ptr)
    (param_clip_gradient param_lr param_wd param_rescale_grad : float)
    (req : OpReqType) (s : mem DType * mem float) : mem DType * mem float :=
  let (m, m32) := s in
  if rge0 param_clip_gradient then
    let w := load m32 weight32 i in
    let w :=
      ((1.f - param_lr * param_wd) * w
       - param_lr
         * clip (param_rescale_grad * static_cast (load m grad_data i))
             param_clip_gradient)%num in
    let m32 := store m32 weight32 i w in
    (KERNEL_ASSIGN m out_data i req (static_cast w), m32)
  else
    let w := load m32 weight32 i in
    let w :=
      ((1.f - param_lr * param_wd) * w
       - (param_lr * param_rescale_grad)
         * static_cast (load m grad_data i))%num in
    let m32 := store m32 weight32 i w in
    (KERNEL_ASSIGN m out_data i req (static_cast w), m32).

(** [MP_SGDMomKernel::Map] *)
Definition MP_SGDMomKernel_Map (i : Z) (out_data mom_data : ptr)
    (weight_data grad_data weight32 : ptr)
    (param_clip_gradient param_momentum param_lr param_wd
       param_rescale_grad : float)
    (req : OpReqType) (s : mem DType * mem float) : mem DType * mem float :=
  let (m, m32) := s in
  let w := load m32 weight32 i in
  let mom := load m32 mom_data i in
  let mom :=
    if rge0 param_clip_gradient then
      (param_momentum * mom - param_lr * param_wd * w
       - param_lr
         * clip (param_rescale_grad * static_cast (load m grad_data i))
             param_clip_gradient)%num
    else
      (param_momentum * mom - param_lr * param_wd * w
       - param_lr * param_rescale_grad
         * static_cast (load m grad_data i))%num in
  let m32 := store m32 mom_data i mom in
  let w := (w + mom)%num in
  let m32 := store m32 weight32 i w in
  (KERNEL_ASSIGN m out_data i req (static_cast w), m32).

End MixedPrecisionKernels.

(** ** Dense entry points *)

Section DenseEntryPoints.

Context {DType float : Type} `{RealType DType} `{RealType float}
  `{StaticCast DType float} `{StaticCast float DType}.

Local Open Scope num_scope.
Local Open Scope Z_scope.

Notation "1.f" := rone (only parsing).
Notation "inputs [[ k ]]" := (nth k inputs null_blob) (at level 1).

(** [mshadow::expr::scalar<DType>(x)] *)
Definition scalar (x : float) : DType := static_cast x.

(** [SGDUpdate<xpu>] *)
Definition SGDUpdate (param : SGDParam.t float) (inputs : list TBlob)
    (req : list OpReqType) (outputs : list TBlob)
    (m : mem DType) : mem DType :=
  let weight := inputs[[0]] in
  let grad := inputs[[1]] in
  let out := outputs[[0]] in
  Launch (Size (shape_ weight))
    (fun i =>
       SGDKernel_Map i (dptr_ out) (dptr_ weight) (dptr_ grad)
         (static_cast (SGDParam.clip_gradient param))
         (static_cast (SGDParam.lr param))
         (static_cast (SGDParam.wd param))
         (static_cast (SGDParam.rescale_grad param))
         (nth 0 req kNullOp))
    m.

(** [SGDMomUpdate<xpu>] *)
Definition SGDMomUpdate (param : SGDMomParam.t float) (inputs : list TBlob)
    (req : list OpReqType) (outputs : list TBlob)
    (m : mem DType) : mem DType :=
  let weight := inputs[[0]] in
  let grad := inputs[[1]] in
  let mom := inputs[[2]] in
  let out := outputs[[0]] in
  Launch (Size (shape_ weight))
    (fun i =>
       SGDMomKernel_Map i (dptr_ out) (dptr_ mom) (dptr_ weight)
         (dptr_ grad)
         (static_cast (SGDMomParam.clip_gradient param))
         (static_cast (SGDMomParam.momentum param))
         (static_cast (SGDMomParam.lr param))
         (static_cast (SGDMomParam.wd param))
         (static_cast (SGDMomParam.rescale_grad param))
         (nth 0 req kNullOp))
    m.

(** [MP_SGDUpdate<xpu>] *)
Definition MP_SGDUpdate (param : SGDParam.t float) (inputs : list TBlob)
    (req : list OpReqType) (outputs : list TBlob)
    (s : mem DType * mem float) : mem DType * mem float :=
  let weight := inputs[[0]] in
  let grad := inputs[[1]] in
  let weight32 := inputs[[2]] in
  let out := outputs[[0]] in
  Launch (Size (shape_ weight))
    (fun i =>
       MP_SGDKernel_Map i (dptr_ out) (dptr_ weight) (dptr_ grad)
         (dptr_ weight32)
         (SGDParam.clip_gradient param) (SGDParam.lr param)
         (SGDParam.wd param) (SGDParam.rescale_grad param)
         (nth 0 req kNullOp))
    s.

(** [MP_SGDMomUpdate<xpu>] *)
Definition MP_SGDMomUpdate (param : SGDMomParam.t float)
    (inputs : list TBlob) (req : list OpReqType) (outputs : list TBlob)
    (s : mem DType * mem float) : mem DType * mem float :=
  let weight := inputs[[0]] in
  let grad := inputs[[1]] in
  let mom := inputs[[2]] in
  let weight32 := inputs[[3]] in
  let out := outputs[[0]] in
  Launch (Size (shape_ weight))
    (fun i =>
       MP_SGDMomKernel_Map i (dptr_ out) (dptr_ mom) (dptr_ weight)
         (dptr_ grad) (dptr_ weight32)
         (SGDMomParam.clip_gradient param) (SGDMomParam.momentum param)
         (SGDMomParam.lr param) (SGDMomParam.wd param)
         (SGDMomParam.rescale_grad param)
         (nth 0 req kNullOp))
    s.

(** [AdamUpdate<xpu>] *)
Definition AdamUpdate (param : AdamParam.t float) (inputs : list TBlob)
    (req : list OpReqType) (outputs : list TBlob)
    (m : mem DType) : mem DType :=
  let weight := dptr_ inputs[[0]] in
  let grad := dptr_ inputs[[1]] in
  let mean := dptr_ inputs[[2]] in
  let var := dptr_ inputs[[3]] in
  let out := outputs[[0]] in
  let clip_gradient : DType := static_cast (AdamParam.clip_gradient param) in
  let m :=
    tensor_assign inputs[[1]]
      (fun m i =>
         scalar (AdamParam.rescale_grad param) * load m grad i
         + scalar (AdamParam.wd param) * load m weight i)%num m in
  let m :=
    if rge0 (AdamParam.clip_gradient param) then
      let m :=
        tensor_assign inputs[[2]]
          (fun m i =>
             scalar (AdamParam.beta1 param) * load m mean i
             + scalar (1.f - AdamParam.beta1 param)
               * clip (load m grad i) clip_gradient)%num m in
      tensor_assign inputs[[3]]
        (fun m i =>
           scalar (AdamParam.beta2 param) * load m var i
           + scalar (1.f - AdamParam.beta2 param)
             * square (clip (load m grad i) clip_gradient))%num m
    else
      let m :=
        tensor_assign inputs[[2]]
          (fun m i =>
             scalar (AdamParam.beta1 param) * load m mean i
             + scalar (1.f - AdamParam.beta1 param) * load m grad i)%num m in
      tensor_assign inputs[[3]]
        (fun m i =>
           scalar (AdamParam.beta2 param) * load m var i
           + scalar (1.f - AdamParam.beta2 param)
             * square (load m grad i))%num m in
  Assign out (nth 0 req kNullOp)
    (fun m i =>
       load m weight i
       - scalar (AdamParam.lr param) * load m mean i
         / (square_root (load m var i)
            + scalar (AdamParam.epsilon param)))%num
    m.

(** [RMSPropAlexUpdate<xpu>] *)
Definition RMSPropAlexUpdate (param : RMSPropAlexParam.t float)
    (inputs : list TBlob) (req : list OpReqType) (outputs : list TBlob)
    (m : mem DType) : mem DType :=
  let weight := dptr_ inputs[[0]] in
  let grad := dptr_ inputs[[1]] in
  let state_n := dptr_ inputs[[2]] in
  let state_g := dptr_ inputs[[3]] in
  let delta := dptr_ inputs[[4]] in
  let out := outputs[[0]] in
  let clip_gradient : DType :=
    static_cast (RMSPropAlexParam.clip_gradient param) in
  let clip_weights : DType :=
    static_cast (RMSPropAlexParam.clip_weights param) in
  let m :=
    tensor_assign inputs[[1]]
      (fun m i =>
         scalar (RMSPropAlexParam.rescale_grad param) * load m grad i
         + scalar (RMSPropAlexParam.wd param) * load m weight i)%num m in
  let m :=
    if rge0 (RMSPropAlexParam.clip_gradient param) then
      let m :=
        tensor_assign inputs[[2]]
          (fun m i =>
             scalar (1.f - RMSPropAlexParam.gamma1 param)
             * clip (load m grad i) clip_gradient
             * clip (load m grad i) clip_gradient
             + scalar (RMSPropAlexParam.gamma1 param)
               * load m state_n i)%num m in
      let m :=
        tensor_assign inputs[[3]]
          (fun m i =>
             scalar (1.f - RMSPropAlexParam.gamma1 param)
             * clip (load m grad i) clip_gradient
             + scalar (RMSPropAlexParam.gamma1 param)
               * load m state_g i)%num m in
      tensor_assign inputs[[4]]
        (fun m i =>
           scalar (RMSPropAlexParam.gamma2 param) * load m delta i
           - scalar (RMSPropAlexParam.lr param)
             * (clip (load m grad i) clip_gradient
                / square_root
                    (load m state_n i
                     - load m state_g i * load m state_g i
                     + scalar (RMSPropAlexParam.epsilon param))))%num m
    else
      let m :=
        tensor_assign inputs[[2]]
          (fun m i =>
             scalar (1.f - RMSPropAlexParam.gamma1 param)
             * (load m grad i * load m grad i)
             + scalar (RMSPropAlexParam.gamma1 param)
               * load m state_n i)%num m in
      let m :=
        tensor_assign inputs[[3]]
          (fun m i =>
             scalar (1.f - RMSPropAlexParam.gamma1 param) * load m grad i
             + scalar (RMSPropAlexParam.gamma1 param)
               * load m state_g i)%num m in
      tensor_assign inputs[[4]]
        (fun m i =>
           scalar (RMSPropAlexParam.gamma2 param) * load m delta i
           - scalar (RMSPropAlexParam.lr param)
             * (load m grad i
                / square_root
                    (load m state_n i
                     - load m state_g i * load m state_g i
                     + scalar (RMSPropAlexParam.epsilon param))))%num m in
  if rge0 (RMSPropAlexParam.clip_weights param) then
    Assign out (nth 0 req kNullOp)
      (fun m i => clip (load m weight i + load m delta i)%num clip_weights)
      m
  else
    Assign out (nth 0 req kNullOp)
      (fun m i => load m weight i + load m delta i)%num m.

(** [RMSPropUpdate<xpu>] *)
Definition RMSPropUpdate (param : RMSPropParam.t float)
    (inputs : list TBlob) (req : list OpReqType) (outputs : list TBlob)
    (m : mem DType) : mem DType :=
  let weight := dptr_ inputs[[0]] in
  let grad := dptr_ inputs[[1]] in
  let state_n := dptr_ inputs[[2]] in
  let out := outputs[[0]] in
  let clip_gradient : DType :=
    static_cast (RMSPropParam.clip_gradient param) in
  let clip_weights : DType :=
    static_cast (RMSPropParam.clip_weights param) in
  let m :=
    tensor_assign inputs[[1]]
      (fun m i =>
         scalar (RMSPropParam.rescale_grad param) * load m grad i
         + scalar (RMSPropParam.wd param) * load m weight i)%num m in
  if rge0 (RMSPropParam.clip_gradient param) then
    let m :=
      tensor_assign inputs[[2]]
        (fun m i =>
           scalar (1.f - RMSPropParam.gamma1 param)
           * clip (load m grad i) clip_gradient
           * clip (load m grad i) clip_gradient
           + scalar (RMSPropParam.gamma1 param) * load m state_n i)%num m in
    if rge0 (RMSPropParam.clip_weights param) then
      Assign out (nth 0 req kNullOp)
        (fun m i =>
           clip
             (load m weight i
              - scalar (RMSPropParam.lr param)
                * (clip (load m grad i) clip_gradient
                   / square_root
                       (load m state_n i
                        + scalar (RMSPropParam.epsilon param))))%num
             clip_weights)
        m
    else
      Assign out (nth 0 req kNullOp)
        (fun m i =>
           load m weight i
           - scalar (RMSPropParam.lr param)
             * (clip (load m grad i) clip_gradient
                / square_root
                    (load m state_n i
                     + scalar (RMSPropParam.epsilon param))))%num
        m
  else
    let m :=
      tensor_assign inputs[[2]]
        (fun m i =>
           scalar (1.f - RMSPropParam.gamma1 param)
           * (load m grad i * load m grad i)
           + scalar (RMSPropParam.gamma1 param) * load m state_n i)%num m in
    if rge0 (RMSPropParam.clip_weights param) then
      Assign out (nth 0 req kNullOp)
        (fun m i =>
           clip
             (load m weight i
              - scalar (RMSPropParam.lr param)
                * (load m grad i
                   / square_root
                       (load m state_n i
                        + scalar (RMSPropParam.epsilon param))))%num
             clip_weights)
        m
    else
      Assign out (nth 0 req kNullOp)
        (fun m i =>
           load m weight i
           - scalar (RMSPropParam.lr param)
             * (load m grad i
                / square_root
                    (load m state_n i
                     + scalar (RMSPropParam.epsilon param))))%num
        m.

End DenseEntryPoints.


(** ** Sparse arrays *)

Inductive NDArrayStorageType :=
  kUndefinedStorage | kDefaultStorage | kRowSparseStorage | kCSRStorage.

Definition NDArrayStorageType_eqb (a b : NDArrayStorageType) : bool :=
  match a, b with
  | kUndefinedStorage, kUndefinedStorage
  | kDefaultStorage, kDefaultStorage
  | kRowSparseStorage, kRowSparseStorage
  | kCSRStorage, kCSRStorage => true
  | _, _ => false
  end.

(** An [NDArray] is a handle on a chunk shared by its copies. *)
Definition NDArray := nat.

(** What a chunk holds: the storage kind, the shape of the array, the values
    (for a row-sparse array a tensor of shape [[num_sparse_rows,
    row_length...]]), the row indices and their number. *)
Record NDArrayChunk := {
  chunk_stype : NDArrayStorageType;
  chunk_shape : TShape;
  chunk_data : TBlob;
  chunk_idx : Z -> Z;
  chunk_idx_rows : Z
}.

Record State (DType : Type) := {
  heap : mem DType;
  arrays : NDArray -> NDArrayChunk
}.

Definition set_heap {DType} (st : State DType) (m : mem DType) :
    State DType :=
  {| heap := m; arrays := arrays st |}.

(** How a call ends: normally, or by a failed [CHECK] or [LOG(FATAL)], with
    the state it leaves. *)
Inductive outcome (DType : Type) :=
| Done (st : State DType)
| Fatal (msg : string) (st : State DType).

Arguments Done {DType} st.
Arguments Fatal {DType} msg st.

Section NDArrayAccessors.

Context {DType : Type}.

(** [nd.storage_type()] *)
Definition storage_type (st : State DType) (nd : NDArray) :=
  chunk_stype (arrays st nd).

(** [nd.shape()] *)
Definition shape (st : State DType) (nd : NDArray) : TShape :=
  chunk_shape (arrays st nd).

(** [nd.data()] *)
Definition data (st : State DType) (nd : NDArray) : TBlob :=
  chunk_data (arrays st nd).

(** [nd.aux_data(rowsparse::kIdx).dptr<IType>()]: the index array is only
    read, and is given by its contents. *)
Definition aux_data_kIdx (st : State DType) (nd : NDArray) : Z -> Z :=
  chunk_idx (arrays st nd).

(** [nd.aux_shape(rowsparse::kIdx)[0]] *)
Definition aux_shape_kIdx (st : State DType) (nd : NDArray) : Z :=
  chunk_idx_rows (arrays st nd).

(** Modelled from the spec: [NDArray::storage_initialized] (ndarray.h) is
    false for a sparse tensor that is "uninitialized (zero sparse rows
    present)". *)
Definition storage_initialized (st : State DType) (nd : NDArray) : bool :=
  negb (aux_shape_kIdx st nd =? 0)%Z.

End NDArrayAccessors.

(** ** Storage-combination drivers and dispatch *)

Section Drivers.

Context {DType float : Type} `{RealType DType} `{RealType float}
  `{StaticCast DType float} `{StaticCast float DType}.

(** [FillDnsZerosRspImpl] (tensor/init_op.h), which fills an uninitialized
    row-sparse array with rows of zeros. *)
Variable FillDnsZerosRspImpl : State DType -> NDArray -> State DType.

(** The condition tested by [CHECK_RSP_ALL_ROWS_NON_ZERO]
    (operator_common.h). *)
Variable rsp_all_rows_non_zero : State DType -> NDArray -> bool.

(** [FCompExFallback<xpu>] (operator_common.h), the collaborator that
    densifies the inputs and runs a dense entry point; its last argument is
    the list of mutable inputs. *)
Variable FCompExFallback :
  (list TBlob -> list OpReqType -> list TBlob -> mem DType -> mem DType) ->
  string -> list NDArray -> list OpReqType -> list NDArray -> list nat ->
  State DType -> outcome DType.

Local Open Scope Z_scope.
Local Open Scope string_scope.

Notation "a == b" := (NDArrayStorageType_eqb a b) (at level 70).
Notation "inputs [[ k ]]" := (nth k inputs O) (at level 1).

(** [CHECK_RSP_ALL_ROWS_NON_ZERO(rsp, func, param)] followed by the rest of
    the function *)
Definition CHECK_RSP_ALL_ROWS_NON_ZERO (rsp : NDArray) (func : string)
    (k : State DType -> outcome DType) (st : State DType) : outcome DType :=
  if rsp_all_rows_non_zero st rsp then k st
  else
    Fatal (func ++ " is only implemented for RowSparse weights with all rows containing non-zeros")
      st.

(** [SGDUpdateDnsRspImpl<xpu>] *)
Definition SGDUpdateDnsRspImpl (param : SGDParam.t float) (weight : TBlob)
    (grad : NDArray) (req : OpReqType) (out : TBlob)
    (st : State DType) : outcome DType :=
  if negb (storage_type st grad == kRowSparseStorage) then
    Fatal "Check failed: grad.storage_type() == kRowSparseStorage" st
  else if negb (storage_initialized st grad) || OpReqType_eqb req kNullOp
  then Done st
  else if negb (OpReqType_eqb req kWriteInplace) then
    Fatal "kWriteInplace is expected for sparse sgd_mom_update" st
  else if negb (Size (shape_ weight) >? 0) then
    Fatal "Check failed: weight.shape_.Size() > 0" st
  else
    Done (set_heap st
      (MXNET_ASSIGN_REQ_SWITCH req
         (fun req_type =>
            let weight_data := dptr_ weight in
            let grad_idx := aux_data_kIdx st grad in
            let grad_val := dptr_ (data st grad) in
            let num_rows := index_t (aux_shape_kIdx st grad) in
            let row_length := ProdShape1 (shape_ weight) in
            Launch num_rows
              (fun i =>
                 SGDDnsRspKernel_Map req_type i (index_t row_length)
                   (dptr_ out) weight_data grad_idx grad_val
                   (static_cast (SGDParam.clip_gradient param))
                   (static_cast (SGDParam.lr param))
                   (static_cast (SGDParam.wd param))
                   (static_cast (SGDParam.rescale_grad param))))
         (heap st))).

(** [SGDUpdateRspDnsImpl<xpu>] *)
Definition SGDUpdateRspDnsImpl (param : SGDParam.t float) (weight : NDArray)
    (grad : TBlob) (req : OpReqType) (out : NDArray) :
    State DType -> outcome DType :=
  CHECK_RSP_ALL_ROWS_NON_ZERO weight "SGDUpdate" (fun st =>
  if negb (storage_type st weight == kRowSparseStorage) then
    Fatal "Check failed: weight.storage_type() == kRowSparseStorage" st
  else if OpReqType_eqb req kNullOp then Done st
  else if negb (OpReqType_eqb req kWriteInplace) then
    Fatal "kWriteInplace is expected for sparse sgd_update" st
  else if negb (storage_initialized st weight) then
    Fatal "Check failed: weight.storage_initialized()" st
  else
    Done (set_heap st
      (MXNET_ASSIGN_REQ_SWITCH req
         (fun req_type =>
            let weight_data := dptr_ (data st weight) in
            let grad_data := dptr_ grad in
            let num_rows := index_t (aux_shape_kIdx st weight) in
            let num_cols := ProdShape1 (shape st weight) in
            Launch num_rows
              (fun i =>
                 SGDRspDnsKernel_Map req_type i (index_t num_cols)
                   (dptr_ (data st out)) weight_data grad_data
                   (static_cast (SGDParam.clip_gradient param))
                   (static_cast (SGDParam.lr param))
                   (static_cast (SGDParam.wd param))
                   (static_cast (SGDParam.rescale_grad param))))
         (heap st)))).

(** [SGDUpdateRspRspImpl<xpu>] *)
Definition SGDUpdateRspRspImpl (param : SGDParam.t float) (weight : NDArray)
    (grad : NDArray) (req : OpReqType) (out : NDArray) :
    State DType -> outcome DType :=
  CHECK_RSP_ALL_ROWS_NON_ZERO weight "SGDUpdate" (fun st =>
  let out_blob := data st out in
  SGDUpdateDnsRspImpl param (data st weight) grad req out_blob st).

(** [SGDUpdateEx<xpu>] *)
Definition SGDUpdateEx (param : SGDParam.t float) (inputs : list NDArray)
    (req : list OpReqType) (outputs : list NDArray)
    (st : State DType) : outcome DType :=
  let weight_stype := storage_type st inputs[[0]] in
  let grad_stype := storage_type st inputs[[1]] in
  if (weight_stype == kRowSparseStorage)
     && (grad_stype == kRowSparseStorage) then
    let out := outputs[[0]] in
    SGDUpdateRspRspImpl param inputs[[0]] inputs[[1]] (nth 0 req kNullOp)
      out st
  else if (weight_stype == kRowSparseStorage)
          && (grad_stype == kDefaultStorage) then
    let out := outputs[[0]] in
    SGDUpdateRspDnsImpl param inputs[[0]] (data st inputs[[1]])
      (nth 0 req kNullOp) out st
  else
    FCompExFallback (SGDUpdate param) "SGDUpdate" inputs req outputs [] st.

(** [SGDMomUpdateDnsRspDnsImpl<xpu>] *)
Definition SGDMomUpdateDnsRspDnsImpl (param : SGDMomParam.t float)
    (weight : TBlob) (grad : NDArray) (mom : TBlob) (req : OpReqType)
    (out : TBlob) (st : State DType) : outcome DType :=
  if negb (storage_initialized st grad) || OpReqType_eqb req kNullOp
  then Done st
  else if negb (OpReqType_eqb req kWriteInplace) then
    Fatal "kWriteInplace is expected for sparse sgd_mom_update" st
  else if negb (Size (shape_ weight) >? 0) then
    Fatal "Check failed: weight.shape_.Size() > 0" st
  else if negb (Size (shape_ mom) >? 0) then
    Fatal "Check failed: mom.shape_.Size() > 0" st
  else
    Done (set_heap st
      (MXNET_ASSIGN_REQ_SWITCH req
         (fun req_type =>
            let weight_data := dptr_ weight in
            let grad_idx := aux_data_kIdx st grad in
            let grad_val := dptr_ (data st grad) in
            let mom_data := dptr_ mom in
            let out_data := dptr_ out in
            let num_rows := index_t (aux_shape_kIdx st grad) in
            let row_length := ProdShape1 (shape_ weight) in
            Launch num_rows
              (fun i =>
                 SGDMomDnsRspDnsKernel_Map req_type i (index_t row_length)
                   out_data mom_data weight_data grad_idx grad_val
                   (static_cast (SGDMomParam.clip_gradient param))
                   (static_cast (SGDMomParam.momentum param))
                   (static_cast (SGDMomParam.lr param))
                   (static_cast (SGDMomParam.wd param))
                   (static_cast (SGDMomParam.rescale_grad param))))
         (heap st))).

(** [SGDMomUpdateRspDnsImpl<xpu>] *)
Definition SGDMomUpdateRspDnsImpl (param : SGDMomParam.t float)
    (weight : NDArray) (grad : TBlob) (mom : NDArray) (req : OpReqType)
    (out : NDArray) : State DType -> outcome DType :=
  CHECK_RSP_ALL_ROWS_NON_ZERO weight "SGDMomUpdate" (fun st =>
  if negb (storage_type st weight == kRowSparseStorage) then
    Fatal "Check failed: weight.storage_type() == kRowSparseStorage" st
  else if OpReqType_eqb req kNullOp then Done st
  else if negb (OpReqType_eqb req kWriteInplace) then
    Fatal "kWriteInplace is expected for sparse sgd_mom_update" st
  else if negb (storage_initialized st weight) then
    Fatal "Check failed: weight.storage_initialized()" st
  else
    (* fill mom with zero values if not initialized yet *)
    let st :=
      if negb (storage_initialized st mom) then
        let mom_zeros := mom in FillDnsZerosRspImpl st mom_zeros
      else st in
    Done (set_heap st
      (MXNET_ASSIGN_REQ_SWITCH req
         (fun req_type =>
            let weight_data := dptr_ (data st weight) in
            let grad_data := dptr_ grad in
            let mom_data := dptr_ (data st mom) in
            let num_rows := index_t (aux_shape_kIdx st weight) in
            let num_cols := ProdShape1 (shape st weight) in
            Launch num_rows
              (fun i =>
                 SGDMomRspDnsKernel_Map req_type i (index_t num_cols)
                   (dptr_ (data st out)) mom_data weight_data grad_data
                   (static_cast (SGDMomParam.clip_gradient param))
                   (static_cast (SGDMomParam.momentum param))
                   (static_cast (SGDMomParam.lr param))
                   (static_cast (SGDMomParam.wd param))
                   (static_cast (SGDMomParam.rescale_grad param))))
         (heap st)))).

(** [SGDMomUpdateRspRspRspImpl<xpu>] *)
Definition SGDMomUpdateRspRspRspImpl (param : SGDMomParam.t float)
    (weight grad mom : NDArray) (req : OpReqType) (out : NDArray) :
    State DType -> outcome DType :=
  CHECK_RSP_ALL_ROWS_NON_ZERO weight "SGDMomUpdate" (fun st =>
  (* fill mom with zero values in order to reuse the sgd mom dns impl *)
  let st :=
    if negb (storage_initialized st mom) then
      let mom_zeros := mom in FillDnsZerosRspImpl st mom_zeros
    else st in
  let out_blob := data st out in
  SGDMomUpdateDnsRspDnsImpl param (data st weight) grad (data st mom) req
    out_blob st).

(** [SGDMomUpdateEx<xpu>] *)
Definition SGDMomUpdateEx (param : SGDMomParam.t float)
    (inputs : list NDArray) (req : list OpReqType) (outputs : list NDArray)
    (st : State DType) : outcome DType :=
  let weight := inputs[[0]] in
  let grad := inputs[[1]] in
  let mom := inputs[[2]] in
  let weight_stype := storage_type st weight in
  let grad_stype := storage_type st grad in
  let mom_stype := storage_type st mom in
  if negb (weight_stype == mom_stype) then
    Fatal "Inconsistent storage type detected between mom.stype and weight.stype"
      st
  else if (weight_stype == kRowSparseStorage)
          && (grad_stype == kRowSparseStorage)
          && (mom_stype == kRowSparseStorage) then
    let out := outputs[[0]] in
    SGDMomUpdateRspRspRspImpl param weight grad mom (nth 0 req kNullOp) out
      st
  else if (weight_stype == kRowSparseStorage)
          && (grad_stype == kDefaultStorage)
          && (mom_stype == kRowSparseStorage) then
    let out := outputs[[0]] in
    SGDMomUpdateRspDnsImpl param weight (data st grad) mom
      (nth 0 req kNullOp) out st
  else
    (* inputs[2] is a mutable input *)
    FCompExFallback (SGDMomUpdate param) "SGDMomUpdate" inputs req outputs
      [2%nat] st.

(** [AdamUpdateDnsRspDnsImpl<xpu>] *)
Definition AdamUpdateDnsRspDnsImpl (param : AdamParam.t float)
    (weight : TBlob) (grad : NDArray) (mean var : TBlob) (req : OpReqType)
    (out : TBlob) (st : State DType) : outcome DType :=
  if negb (storage_initialized st grad) || OpReqType_eqb req kNullOp
  then Done st
  else if negb (OpReqType_eqb req kWriteInplace) then
    Fatal "kWriteInplace is expected for sparse adam_update" st
  else if negb (Size (shape_ weight) >? 0) then
    Fatal "Check failed: weight.shape_.Size() > 0" st
  else if negb (Size (shape_ mean) >? 0) then
    Fatal "Check failed: mean.shape_.Size() > 0" st
  else if negb (Size (shape_ var) >? 0) then
    Fatal "Check failed: var.shape_.Size() > 0" st
  else
    Done (set_heap st
      (MXNET_ASSIGN_REQ_SWITCH req
         (fun req_type =>
            let weight_data := dptr_ weight in
            let grad_idx := aux_data_kIdx st grad in
            let grad_val := dptr_ (data st grad) in
            let mean_data := dptr_ mean in
            let var_data := dptr_ var in
            let out_data := dptr_ out in
            let num_rows := aux_shape_kIdx st grad in
            let row_length := ProdShape1 (shape_ weight) in
            Launch num_rows
              (fun i =>
                 AdamDnsRspDnsKernel_Map req_type i row_length
                   out_data mean_data var_data weight_data grad_idx grad_val
                   (static_cast (AdamParam.clip_gradient param))
                   (static_cast (AdamParam.beta1 param))
                   (static_cast (AdamParam.beta2 param))
                   (static_cast (AdamParam.lr param))
                   (static_cast (AdamParam.wd param))
                   (static_cast (AdamParam.epsilon param))
                   (static_cast (AdamParam.rescale_grad param))))
         (heap st))).

(** [AdamUpdateRspRspRspImpl<xpu>] *)
Definition AdamUpdateRspRspRspImpl (param : AdamParam.t float)
    (weight grad mean var : NDArray) (req : OpReqType) (out : NDArray) :
    State DType -> outcome DType :=
  CHECK_RSP_ALL_ROWS_NON_ZERO weight "AdamUpdate" (fun st =>
  (* fill mean and variance with zero values in order to reuse the sgd mom
     dns impl *)
  let st :=
    if negb (storage_initialized st mean) then
      let mean_zeros := mean in FillDnsZerosRspImpl st mean_zeros
    else st in
  let st :=
    if negb (storage_initialized st var) then
      let var_zeros := var in FillDnsZerosRspImpl st var_zeros
    else st in
  let out_blob := data st out in
  AdamUpdateDnsRspDnsImpl param (data st weight) grad (data st mean)
    (data st var) req out_blob st).

(** [AdamUpdateEx<xpu>] *)
Definition AdamUpdateEx (param : AdamParam.t float) (inputs : list NDArray)
    (req : list OpReqType) (outputs : list NDArray)
    (st : State DType) : outcome DType :=
  let weight_stype := storage_type st inputs[[0]] in
  let grad_stype := storage_type st inputs[[1]] in
  let mean_stype := storage_type st inputs[[2]] in
  let var_stype := storage_type st inputs[[3]] in
  let out_stype := storage_type st outputs[[0]] in
  if negb (mean_stype == weight_stype) then
    Fatal "Inconsistent storage type detected between mean.stype and weight.stype"
      st
  else if negb (var_stype == weight_stype) then
    Fatal "Inconsistent storage type detected between var.stype and weight.stype"
      st
  else if (weight_stype == kRowSparseStorage)
          && (mean_stype == kRowSparseStorage)
          && (var_stype == kRowSparseStorage)
          && (grad_stype == kRowSparseStorage)
          && (out_stype == kRowSparseStorage) then
    let out := outputs[[0]] in
    AdamUpdateRspRspRspImpl param inputs[[0]] inputs[[1]] inputs[[2]]
      inputs[[3]] (nth 0 req kNullOp) out st
  else
    Fatal "Unexpected storage types" st.

End Drivers.

(** ** Exact arithmetic: the real numbers as element type *)

(** Modelled from the spec: [mshadow_op::clip::Map(x, bound)]
    (mshadow_op.h) clips "element-wise to [[-clip_gradient,
    clip_gradient]]"; the parameter documentation in the source gives it as
    [max(min(grad, clip_gradient), -clip_gradient)]. *)
Definition Rclip (x bound : R) : R := Rmax (Rmin x bound) (- bound).

(** The real numbers as element type.  Nothing is rounded, and division
    and square root are total: [x / 0] and the square root of a negative
    number are numbers, where the element types of the code give an
    infinity or a NaN.  A theorem through this instance is about the
    formula the code computes. *)
#[export] Instance R_RealType : RealType R := {|
  rzero := 0%R;
  rone := 1%R;
  radd := Rplus;
  rsub := Rminus;
  rmul := Rmult;
  rdiv := Rdiv;
  rge0 := fun x => if Rle_dec 0 x then true else false;
  rnonzero := fun x => if Req_EM_T x 0 then false else true;
  clip := Rclip;
  square := fun x => (x * x)%R;
  square_root := sqrt
|}.

#[export] Instance R_StaticCast : StaticCast R R := fun x => x.

(** ** The rules as the specification words them *)

(** The effective gradient: [x], "clipped element-wise to
    [[-clip_gradient, clip_gradient]] iff [clip_gradient >= 0]". *)
Definition effective_gradient (clip_gradient x : R) : R :=
  if Rle_dec 0 clip_gradient then Rmax (- clip_gradient) (Rmin clip_gradient x)
  else x.


(** What a cell holds after a value is written to it under a write mode. *)
Definition written {T} `{RealType T} (req : OpReqType) (old val : T) : T :=
  match req with
  | kNullOp => old
  | kWriteTo | kWriteInplace => val
  | kAddTo => (old + val)%num
  end.

(** Row [r] of a tensor with rows of [row_length] cells is the same in
    every block of two memories. *)
Definition row_unchanged {T} (m m' : mem T) (row_length r : Z) : Prop :=
  forall (p : ptr) (j : Z),
    (0 <= j < row_length)%Z ->
    load m' p (r * row_length + j) = load m p (r * row_length + j).

(** ** Memory and loop lemmas *)

Section MemoryLemmas.

Context {T : Type}.

Lemma load_store (m : mem T) p i v q j :
  load (store m p i v) q j =
  if (Nat.eqb q p && Z.eqb j i)%bool then v else load m q j.
Proof. reflexivity. Qed.

Lemma load_store_same (m : mem T) p i v :
  load (store m p i v) p i = v.
Proof.
  rewrite load_store, Nat.eqb_refl, Z.eqb_refl. reflexivity.
Qed.

Lemma load_store_other_cell (m : mem T) p i v q j :
  j <> i -> load (store m p i v) q j = load m q j.
Proof.
  intros Hne. rewrite load_store.
  destruct (Z.eqb_spec j i); [contradiction|].
  now rewrite andb_false_r.
Qed.

Lemma load_store_other_block (m : mem T) p i v q j :
  q <> p -> load (store m p i v) q j = load m q j.
Proof.
  intros Hne. rewrite load_store.
  destruct (Nat.eqb_spec q p); [contradiction|]. reflexivity.
Qed.

(** Two memories hold the same values in cell [a] of every block. *)
Definition agree_at (a : Z) (m m' : mem T) : Prop :=
  forall p, load m p a = load m' p a.

Lemma agree_at_refl a m : agree_at a m m.
Proof. intros p. reflexivity. Qed.

Lemma agree_at_trans a m1 m2 m3 :
  agree_at a m1 m2 -> agree_at a m2 m3 -> agree_at a m1 m3.
Proof. intros H12 H23 p. now rewrite H12. Qed.

End MemoryLemmas.

Section LoopLemmas.

Context {S : Type}.

Lemma for_loop_inv (P : S -> Prop) (body : Z -> S -> S) n s :
  P s ->
  (forall k s, (0 <= k < Z.of_nat n)%Z -> P s -> P (body k s)) ->
  P (for_loop n body s).
Proof.
  intros H0 Hstep. induction n as [|n IH]; simpl; [exact H0|].
  apply Hstep; [lia|]. apply IH. intros k s' Hk. apply Hstep. lia.
Qed.

Lemma Launch_inv (P : S -> Prop) (Map : Z -> S -> S) N s :
  P s ->
  (forall k s, (0 <= k < N)%Z -> P s -> P (Map k s)) ->
  P (Launch N Map s).
Proof.
  intros H0 Hstep. unfold Launch. apply for_loop_inv; [exact H0|].
  intros k s' Hk. apply Hstep. lia.
Qed.

(** A loop whose step [k] changes only what is observed at [k], and there
    depends only on what is observed at [k], does at [k] what its step [k]
    does alone.  [agree a] is the observation "equal at [a]". *)
Variable agree : Z -> S -> S -> Prop.
Hypothesis agree_refl : forall a s, agree a s s.
Hypothesis agree_trans :
  forall a s1 s2 s3, agree a s1 s2 -> agree a s2 s3 -> agree a s1 s3.
Variable body : Z -> S -> S.
Variable N : Z.
Hypothesis body_frame :
  forall k a s, (0 <= k < N)%Z -> (0 <= a < N)%Z -> a <> k ->
    agree a (body k s) s.
Hypothesis body_local :
  forall k s s', (0 <= k < N)%Z -> agree k s s' ->
    agree k (body k s) (body k s').

Lemma for_loop_later n s a :
  (Z.of_nat n <= N)%Z -> (Z.of_nat n <= a < N)%Z ->
  agree a (for_loop n body s) s.
Proof.
  intros Hn Ha. induction n as [|n IH]; simpl; [apply agree_refl|].
  eapply agree_trans; [apply body_frame; lia|]. apply IH; lia.
Qed.

Lemma for_loop_local n s k :
  (Z.of_nat n <= N)%Z -> (0 <= k < Z.of_nat n)%Z ->
  agree k (for_loop n body s) (body k s).
Proof.
  intros Hn Hk. induction n as [|n IH]; [simpl in Hk; lia|].
  simpl. destruct (Z.eq_dec k (Z.of_nat n)) as [->|Hne].
  - apply body_local; [lia|]. apply for_loop_later; lia.
  - eapply agree_trans; [apply body_frame; lia|]. apply IH; lia.
Qed.

Lemma Launch_local s k :
  (0 <= k < N)%Z -> agree k (Launch N body s) (body k s).
Proof.
  intros Hk. unfold Launch. apply for_loop_local; lia.
Qed.

End LoopLemmas.

(** ** Elementwise launches *)

Section ElementwiseLemmas.

Context {T : Type} `{RealType T}.

Lemma agree_at_sym a (m m' : mem T) : agree_at a m m' -> agree_at a m' m.
Proof. intros Hag p. symmetry. apply Hag. Qed.

(** In range, a launch of steps that each touch their own cell does in cell
    [i] what step [i] does; out of range it does nothing. *)
Lemma Launch_cell (body : Z -> mem T -> mem T) N :
  (forall k a m, a <> k -> agree_at a (body k m) m) ->
  (forall k m m', agree_at k m m' -> agree_at k (body k m) (body k m')) ->
  forall m p i,
    load (Launch N body m) p i =
    if ((0 <=? i) && (i <? N))%Z then load (body i m) p i else load m p i.
Proof.
  intros Hframe Hlocal m p i.
  destruct ((0 <=? i) && (i <? N))%Z eqn:Hin.
  - apply andb_true_iff in Hin as [H0 H1].
    apply Z.leb_le in H0. apply Z.ltb_lt in H1.
    revert p. apply Launch_local with (agree := agree_at);
      eauto using agree_at_refl, agree_at_trans; lia.
  - apply (Launch_inv (fun s => agree_at i s m)); [apply agree_at_refl|].
    intros k s Hk Hs. eapply agree_at_trans; [|exact Hs].
    apply Hframe. intros ->.
    apply andb_false_iff in Hin as [Hin|Hin];
      [apply Z.leb_gt in Hin | apply Z.ltb_ge in Hin]; lia.
Qed.

(** A right-hand side that reads cell [i] only. *)
Definition local_rhs (rhs : mem T -> Z -> T) : Prop :=
  forall i m m', agree_at i m m' -> rhs m i = rhs m' i.

Lemma tensor_assign_load dst rhs :
  local_rhs rhs ->
  forall (m : mem T) p i,
    load (tensor_assign dst rhs m) p i =
    if (Nat.eqb p (dptr_ dst) && ((0 <=? i) && (i <? Size (shape_ dst)))%Z)%bool
    then rhs m i else load m p i.
Proof.
  intros Hloc m p i. unfold tensor_assign.
  rewrite Launch_cell.
  - destruct ((0 <=? i) && (i <? Size (shape_ dst)))%Z.
    + rewrite load_store, Z.eqb_refl, andb_true_r. reflexivity.
    + now rewrite andb_false_r.
  - intros k a s Hne q. now apply load_store_other_cell.
  - intros k s s' Hag q. rewrite !load_store, (Hloc _ _ _ Hag), Hag.
    reflexivity.
Qed.

Lemma Assign_load out req exp :
  local_rhs exp ->
  forall (m : mem T) p i,
    load (Assign out req exp m) p i =
    if (Nat.eqb p (dptr_ out) && ((0 <=? i) && (i <? Size (shape_ out)))%Z)%bool
    then written req (load m (dptr_ out) i) (exp m i) else load m p i.
Proof.
  intros Hloc m p i. unfold Assign.
  destruct req; simpl written.
  - destruct (Nat.eqb_spec p (dptr_ out)) as [->|]; simpl;
      [destruct (_ && _)%bool|]; reflexivity.
  - now apply tensor_assign_load.
  - now apply tensor_assign_load.
  - rewrite tensor_assign_load; [reflexivity|].
    intros k s s' Hag. now rewrite (Hloc _ _ _ Hag), Hag.
Qed.

(** *** SGD *)

Lemma SGDKernel_Map_frame k out w g c lr wd rs req (m : mem T) a :
  a <> k -> agree_at a (SGDKernel_Map k out w g c lr wd rs req m) m.
Proof.
  intros Hne p. unfold SGDKernel_Map, KERNEL_ASSIGN.
  destruct (rge0 c), req; try reflexivity;
    apply load_store_other_cell; assumption.
Qed.

Lemma SGDKernel_Map_local k out w g c lr wd rs req (m m' : mem T) :
  agree_at k m m' ->
  agree_at k (SGDKernel_Map k out w g c lr wd rs req m)
    (SGDKernel_Map k out w g c lr wd rs req m').
Proof.
  intros Hag p. unfold SGDKernel_Map, KERNEL_ASSIGN.
  destruct (rge0 c), req; rewrite ?load_store, ?Hag; reflexivity.
Qed.

Lemma SGDKernel_Map_load k out w g c lr wd rs req (m : mem T) p :
  load (SGDKernel_Map k out w g c lr wd rs req m) p k =
  if Nat.eqb p out then
    written req (load m out k)
      (if rge0 c then
         (rone - lr * wd) * load m w k - lr * clip (rs * load m g k) c
       else (rone - lr * wd) * load m w k - (lr * rs) * load m g k)%num
  else load m p k.
Proof.
  unfold SGDKernel_Map, KERNEL_ASSIGN.
  destruct (Nat.eqb_spec p out) as [->|Hne].
  - destruct (rge0 c), req; simpl written;
      rewrite ?load_store_same; reflexivity.
  - destruct (rge0 c), req; rewrite ?load_store_other_block by assumption;
      reflexivity.
Qed.

End ElementwiseLemmas.

(** Simplifies loads from stores, using the disequalities at hand. *)
Ltac mem_simpl :=
  repeat first
    [ rewrite load_store_same
    | rewrite load_store_other_block
        by (assumption || (apply not_eq_sym; assumption))
    | rewrite load_store_other_cell by (assumption || lia) ].

Section MomentumLemmas.

Context {T : Type} `{RealType T}.

(** *** SGD with momentum *)

Lemma SGDMomKernel_Map_frame k out mom w g c mo lr wd rs req (m : mem T) a :
  a <> k -> agree_at a (SGDMomKernel_Map k out mom w g c mo lr wd rs req m) m.
Proof.
  intros Hne p. unfold SGDMomKernel_Map, KERNEL_ASSIGN.
  destruct (rge0 c), req;
    rewrite ?load_store_other_cell by assumption; reflexivity.
Qed.

Lemma SGDMomKernel_Map_local k out mom w g c mo lr wd rs req (m m' : mem T) :
  agree_at k m m' ->
  agree_at k (SGDMomKernel_Map k out mom w g c mo lr wd rs req m)
    (SGDMomKernel_Map k out mom w g c mo lr wd rs req m').
Proof.
  intros Hag p. unfold SGDMomKernel_Map, KERNEL_ASSIGN.
  destruct (rge0 c), req; rewrite ?load_store, ?Hag; reflexivity.
Qed.

(** The momentum the kernel stores in cell [k]. *)
Definition SGDMom_new_mom (c mo lr wd rs : T) (mom_k w_k g_k : T) : T :=
  if rge0 c then (mo * mom_k - lr * wd * w_k - lr * clip (rs * g_k) c)%num
  else (mo * mom_k - lr * wd * w_k - lr * rs * g_k)%num.

Lemma SGDMomKernel_Map_mom k out mom w g c mo lr wd rs req (m : mem T) :
  mom <> out ->
  load (SGDMomKernel_Map k out mom w g c mo lr wd rs req m) mom k =
  SGDMom_new_mom c mo lr wd rs (load m mom k) (load m w k) (load m g k).
Proof.
  intros Hne. unfold SGDMomKernel_Map, KERNEL_ASSIGN, SGDMom_new_mom.
  destruct (rge0 c), req;
    mem_simpl; reflexivity.
Qed.

Lemma SGDMomKernel_Map_out k out mom w g c mo lr wd rs req (m : mem T) :
  w <> mom -> out <> mom ->
  load (SGDMomKernel_Map k out mom w g c mo lr wd rs req m) out k =
  written req (load m out k)
    (load m w k
     + SGDMom_new_mom c mo lr wd rs (load m mom k) (load m w k)
         (load m g k))%num.
Proof.
  intros Hw Ho. unfold SGDMomKernel_Map, KERNEL_ASSIGN, SGDMom_new_mom.
  destruct (rge0 c), req; simpl written;
    mem_simpl; reflexivity.
Qed.

Lemma SGDMomKernel_Map_other k out mom w g c mo lr wd rs req (m : mem T) p a :
  p <> mom -> p <> out ->
  load (SGDMomKernel_Map k out mom w g c mo lr wd rs req m) p a = load m p a.
Proof.
  intros Hm Ho. unfold SGDMomKernel_Map, KERNEL_ASSIGN.
  destruct (rge0 c), req;
    mem_simpl; reflexivity.
Qed.

Lemma SGDMomKernel_Map_skip k out mom w g c mo lr wd rs (m : mem T) p a :
  p <> mom ->
  load (SGDMomKernel_Map k out mom w g c mo lr wd rs kNullOp m) p a =
  load m p a.
Proof.
  intros Hm. unfold SGDMomKernel_Map, KERNEL_ASSIGN.
  destruct (rge0 c); mem_simpl; reflexivity.
Qed.

End MomentumLemmas.

(** ** Mixed-precision launches *)

Section MixedPrecisionLemmas.

Context {DType float : Type} `{RealType DType} `{RealType float}
  `{StaticCast DType float} `{StaticCast float DType}.

(** Agreement of two pairs of memories in cell [a]. *)
Definition agree2_at (a : Z) (s s' : mem DType * mem float) : Prop :=
  agree_at a (fst s) (fst s') /\ agree_at a (snd s) (snd s').

Lemma agree2_at_refl a s : agree2_at a s s.
Proof. split; apply agree_at_refl. Qed.

Lemma agree2_at_trans a s1 s2 s3 :
  agree2_at a s1 s2 -> agree2_at a s2 s3 -> agree2_at a s1 s3.
Proof.
  intros [Ha Hb] [Hc Hd]. split; eapply agree_at_trans; eassumption.
Qed.

Lemma Launch_cell2 (body : Z -> mem DType * mem float -> mem DType * mem float)
    N :
  (forall k a s, a <> k -> agree2_at a (body k s) s) ->
  (forall k s s', agree2_at k s s' -> agree2_at k (body k s) (body k s')) ->
  forall s i,
    agree2_at i (Launch N body s)
      (if ((0 <=? i) && (i <? N))%Z then body i s else s).
Proof.
  intros Hframe Hlocal s i.
  destruct ((0 <=? i) && (i <? N))%Z eqn:Hin.
  - apply andb_true_iff in Hin as [Hlo Hhi].
    apply Z.leb_le in Hlo. apply Z.ltb_lt in Hhi.
    apply Launch_local with (agree := agree2_at);
      eauto using agree2_at_refl, agree2_at_trans; lia.
  - apply (Launch_inv (fun s' => agree2_at i s' s)); [apply agree2_at_refl|].
    intros k s' Hk Hs. eapply agree2_at_trans; [|exact Hs].
    apply Hframe. intros ->.
    apply andb_false_iff in Hin as [Hin|Hin];
      [apply Z.leb_gt in Hin | apply Z.ltb_ge in Hin]; lia.
Qed.

(** *** Mixed-precision SGD *)

(** The master weight [MP_SGDKernel] stores in cell [k]. *)
Definition MP_SGD_new_weight32 (c lr wd rs : float) (w32_k : float)
    (g_k : DType) : float :=
  if rge0 c then
    ((rone - lr * wd) * w32_k - lr * clip (rs * static_cast g_k) c)%num
  else ((rone - lr * wd) * w32_k - (lr * rs) * static_cast g_k)%num.

Lemma MP_SGDKernel_Map_frame k out w g w32 c lr wd rs req s a :
  a <> k -> agree2_at a (MP_SGDKernel_Map k out w g w32 c lr wd rs req s) s.
Proof.
  intros Hne. destruct s as [m m32]. unfold MP_SGDKernel_Map, KERNEL_ASSIGN.
  destruct (rge0 c), req; split; intros p; simpl; mem_simpl; reflexivity.
Qed.

Lemma MP_SGDKernel_Map_local k out w g w32 c lr wd rs req s s' :
  agree2_at k s s' ->
  agree2_at k (MP_SGDKernel_Map k out w g w32 c lr wd rs req s)
    (MP_SGDKernel_Map k out w g w32 c lr wd rs req s').
Proof.
  destruct s as [m m32], s' as [m' m32']. intros [Hag Hag32].
  simpl in Hag, Hag32. unfold MP_SGDKernel_Map, KERNEL_ASSIGN.
  destruct (rge0 c), req; split; intros p; simpl;
    rewrite ?load_store, ?Hag, ?Hag32; reflexivity.
Qed.

Lemma MP_SGDKernel_Map_weight32 k out w g w32 c lr wd rs req m m32 :
  load (snd (MP_SGDKernel_Map k out w g w32 c lr wd rs req (m, m32))) w32 k =
  MP_SGD_new_weight32 c lr wd rs (load m32 w32 k) (load m g k).
Proof.
  unfold MP_SGDKernel_Map, MP_SGD_new_weight32.
  destruct (rge0 c); simpl; mem_simpl; reflexivity.
Qed.

Lemma MP_SGDKernel_Map_out k out w g w32 c lr wd rs req m m32 :
  load (fst (MP_SGDKernel_Map k out w g w32 c lr wd rs req (m, m32))) out k =
  written req (load m out k)
    (static_cast
       (MP_SGD_new_weight32 c lr wd rs (load m32 w32 k) (load m g k))).
Proof.
  unfold MP_SGDKernel_Map, MP_SGD_new_weight32, KERNEL_ASSIGN.
  destruct (rge0 c), req; simpl; mem_simpl; reflexivity.
Qed.

(** *** Mixed-precision SGD with momentum *)

(** The momentum [MP_SGDMomKernel] stores in cell [k]. *)
Definition MP_SGDMom_new_mom (c mo lr wd rs : float) (mom_k w32_k : float)
    (g_k : DType) : float :=
  if rge0 c then
    (mo * mom_k - lr * wd * w32_k - lr * clip (rs * static_cast g_k) c)%num
  else (mo * mom_k - lr * wd * w32_k - lr * rs * static_cast g_k)%num.

Lemma MP_SGDMomKernel_Map_frame k out mom w g w32 c mo lr wd rs req s a :
  a <> k ->
  agree2_at a (MP_SGDMomKernel_Map k out mom w g w32 c mo lr wd rs req s) s.
Proof.
  intros Hne. destruct s as [m m32].
  unfold MP_SGDMomKernel_Map, KERNEL_ASSIGN.
  destruct (rge0 c), req; split; intros p; simpl; mem_simpl; reflexivity.
Qed.

Lemma MP_SGDMomKernel_Map_local k out mom w g w32 c mo lr wd rs req s s' :
  agree2_at k s s' ->
  agree2_at k (MP_SGDMomKernel_Map k out mom w g w32 c mo lr wd rs req s)
    (MP_SGDMomKernel_Map k out mom w g w32 c mo lr wd rs req s').
Proof.
  destruct s as [m m32], s' as [m' m32']. intros [Hag Hag32].
  simpl in Hag, Hag32. unfold MP_SGDMomKernel_Map, KERNEL_ASSIGN.
  destruct (rge0 c), req; split; intros p; simpl;
    rewrite ?load_store, ?Hag, ?Hag32; reflexivity.
Qed.

Lemma MP_SGDMomKernel_Map_mom k out mom w g w32 c mo lr wd rs req m m32 :
  mom <> w32 ->
  load (snd (MP_SGDMomKernel_Map k out mom w g w32 c mo lr wd rs req
               (m, m32))) mom k =
  MP_SGDMom_new_mom c mo lr wd rs (load m32 mom k) (load m32 w32 k)
    (load m g k).
Proof.
  intros Hne. unfold MP_SGDMomKernel_Map, MP_SGDMom_new_mom.
  destruct (rge0 c); simpl; mem_simpl; reflexivity.
Qed.

Lemma MP_SGDMomKernel_Map_weight32 k out mom w g w32 c mo lr wd rs req m m32 :
  load (snd (MP_SGDMomKernel_Map k out mom w g w32 c mo lr wd rs req
               (m, m32))) w32 k =
  (load m32 w32 k
   + MP_SGDMom_new_mom c mo lr wd rs (load m32 mom k) (load m32 w32 k)
       (load m g k))%num.
Proof.
  unfold MP_SGDMomKernel_Map, MP_SGDMom_new_mom.
  destruct (rge0 c); simpl; mem_simpl; reflexivity.
Qed.

Lemma MP_SGDMomKernel_Map_out k out mom w g w32 c mo lr wd rs req m m32 :
  load (fst (MP_SGDMomKernel_Map k out mom w g w32 c mo lr wd rs req
               (m, m32))) out k =
  written req (load m out k)
    (static_cast
       (load m32 w32 k
        + MP_SGDMom_new_mom c mo lr wd rs (load m32 mom k) (load m32 w32 k)
            (load m g k))%num).
Proof.
  unfold MP_SGDMomKernel_Map, MP_SGDMom_new_mom, KERNEL_ASSIGN.
  destruct (rge0 c), req; simpl; mem_simpl; reflexivity.
Qed.

Lemma MP_SGDMomKernel_Map_skip k out mom w g w32 c mo lr wd rs s :
  fst (MP_SGDMomKernel_Map k out mom w g w32 c mo lr wd rs kNullOp s) = fst s.
Proof.
  destruct s as [m m32]. unfold MP_SGDMomKernel_Map, KERNEL_ASSIGN.
  destruct (rge0 c); reflexivity.
Qed.

End MixedPrecisionLemmas.

(** ** Row kernels: what they leave alone *)

Lemma index_t_small x : (0 <= x < 2 ^ 32)%Z -> index_t x = x.
Proof. intros Hx. unfold index_t. now apply Z.mod_small. Qed.

Lemma row_cell_inj (L r j r' j' : Z) :
  (0 <= j < L)%Z -> (0 <= j' < L)%Z ->
  (r * L + j = r' * L + j')%Z -> r = r' /\ j = j'.
Proof.
  intros Hj Hj' Heq.
  assert (Hr : r = r').
  { destruct (Z.lt_trichotomy r r') as [Hlt|[Heq'|Hgt]]; [|exact Heq'|].
    - assert ((r + 1) * L <= r' * L)%Z by (apply Z.mul_le_mono_nonneg_r; lia).
      lia.
    - assert ((r' + 1) * L <= r * L)%Z by (apply Z.mul_le_mono_nonneg_r; lia).
      lia. }
  subst r'. split; [reflexivity|lia].
Qed.

Lemma row_cell_bound (L rows r j : Z) :
  (0 <= r < rows)%Z -> (0 <= j < L)%Z -> (rows * L <= 2 ^ 32)%Z ->
  (0 <= r * L + j < 2 ^ 32)%Z.
Proof.
  intros Hr Hj Hb.
  assert (0 <= r * L)%Z by (apply Z.mul_nonneg_nonneg; lia).
  assert ((r + 1) * L <= rows * L)%Z by (apply Z.mul_le_mono_nonneg_r; lia).
  lia.
Qed.

Section RowFrameLemmas.

Context {T : Type} `{RealType T}.

Local Open Scope Z_scope.

(** A loop whose step [j] writes cell [cell j] only leaves the other cells
    alone. *)
Lemma for_loop_cells (body : Z -> mem T -> mem T) (cell : Z -> Z) n :
  (forall j s p a, 0 <= j < Z.of_nat n -> a <> cell j ->
     load (body j s) p a = load s p a) ->
  forall s p a,
    (forall j, 0 <= j < Z.of_nat n -> a <> cell j) ->
    load (for_loop n body s) p a = load s p a.
Proof.
  intros Hbody s p a Ha.
  apply (for_loop_inv (fun s' => load s' p a = load s p a)); [reflexivity|].
  intros j s' Hj Hs. rewrite <- Hs. apply Hbody; auto.
Qed.

Lemma SGDDnsRspKernel_Map_cells req i L out w idx g c lr wd rs (m : mem T)
    p a :
  (forall j, 0 <= j < L -> a <> index_t (idx i * L + j)) ->
  load (SGDDnsRspKernel_Map req i L out w idx g c lr wd rs m) p a =
  load m p a.
Proof.
  intros Ha. unfold SGDDnsRspKernel_Map.
  apply for_loop_cells with (cell := fun j => index_t (idx i * L + j)).
  - intros j s q b Hj Hb. unfold KERNEL_ASSIGN.
    destruct (rge0 c), req; mem_simpl; reflexivity.
  - intros j Hj. apply Ha. lia.
Qed.

Lemma SGDMomDnsRspDnsKernel_Map_cells req i L out mom w idx g c mo lr wd rs
    (m : mem T) p a :
  (forall j, 0 <= j < L -> a <> index_t (idx i * L + j)) ->
  load (SGDMomDnsRspDnsKernel_Map req i L out mom w idx g c mo lr wd rs m)
    p a =
  load m p a.
Proof.
  intros Ha. unfold SGDMomDnsRspDnsKernel_Map.
  apply for_loop_cells with (cell := fun j => index_t (idx i * L + j)).
  - intros j s q b Hj Hb. unfold KERNEL_ASSIGN.
    destruct (rge0 c), req; mem_simpl; reflexivity.
  - intros j Hj. apply Ha. lia.
Qed.

Lemma AdamDnsRspDnsKernel_Map_cells req i L out mean var w idx g c b1 b2 lr
    wd eps rs (m : mem T) p a :
  (forall j, 0 <= j < L -> a <> idx i * L + j) ->
  load (AdamDnsRspDnsKernel_Map req i L out mean var w idx g c b1 b2 lr wd
          eps rs m) p a =
  load m p a.
Proof.
  intros Ha. unfold AdamDnsRspDnsKernel_Map.
  apply for_loop_cells with (cell := fun j => idx i * L + j).
  - intros j s q b Hj Hb. unfold KERNEL_ASSIGN.
    destruct (rge0 c), req; mem_simpl; reflexivity.
  - intros j Hj. apply Ha. lia.
Qed.

(** The scan finds nothing in a row of zeros. *)
Lemma contains_non_zeros_false (m : mem T) grad offset C fuel j0 :
  0 <= offset -> 0 <= j0 -> j0 + Z.of_nat fuel <= C ->
  offset + C <= 2 ^ 32 ->
  (forall j, 0 <= j < C -> rnonzero (load m grad (offset + j)) = false) ->
  contains_non_zeros fuel m grad offset j0 = false.
Proof.
  revert j0. induction fuel as [|fuel IH]; intros j0 Ho Hj0 Hf Hb Hz;
    [reflexivity|].
  cbn [contains_non_zeros]. rewrite index_t_small by lia.
  rewrite Hz by lia.
  destruct fuel as [|fuel']; [reflexivity|].
  rewrite index_t_small by lia. apply IH; auto; lia.
Qed.

Lemma SGDRspDnsKernel_Map_cells req i C out w g c lr wd rs (m : mem T) p a :
  (forall j, 0 <= j < C -> a <> index_t (index_t (i * C) + j)) ->
  load (SGDRspDnsKernel_Map req i C out w g c lr wd rs m) p a = load m p a.
Proof.
  intros Ha. unfold SGDRspDnsKernel_Map.
  destruct (negb _); [reflexivity|].
  apply for_loop_cells
    with (cell := fun j => index_t (index_t (i * C) + j)).
  - intros j s q b Hj Hb. unfold KERNEL_ASSIGN.
    destruct (rge0 c), req; mem_simpl; reflexivity.
  - intros j Hj. apply Ha. lia.
Qed.

Lemma SGDMomRspDnsKernel_Map_cells req i C out mom w g c mo lr wd rs
    (m : mem T) p a :
  (forall j, 0 <= j < C -> a <> index_t (index_t (i * C) + j)) ->
  load (SGDMomRspDnsKernel_Map req i C out mom w g c mo lr wd rs m) p a =
  load m p a.
Proof.
  intros Ha. unfold SGDMomRspDnsKernel_Map.
  destruct (negb _); [reflexivity|].
  apply for_loop_cells
    with (cell := fun j => index_t (index_t (i * C) + j)).
  - intros j s q b Hj Hb. unfold KERNEL_ASSIGN.
    destruct (rge0 c), req; mem_simpl; reflexivity.
  - intros j Hj. apply Ha. lia.
Qed.

(** A row of zeros in the dense gradient: the kernels return at once. *)
Lemma SGDRspDnsKernel_Map_zero_row req i C out w g c lr wd rs (m : mem T) :
  0 <= i -> 0 <= C -> (i + 1) * C <= 2 ^ 32 ->
  (forall j, 0 <= j < C -> rnonzero (load m g (i * C + j)) = false) ->
  SGDRspDnsKernel_Map req i C out w g c lr wd rs m = m.
Proof.
  intros Hi HC Hb Hz. unfold SGDRspDnsKernel_Map.
  assert (Hoff : index_t (i * C) = i * C) by (apply index_t_small; nia).
  rewrite Hoff.
  rewrite (@contains_non_zeros_false m g (i * C) C);
    [reflexivity | nia | lia | rewrite Z2Nat.id; lia | nia | exact Hz].
Qed.

Lemma SGDMomRspDnsKernel_Map_zero_row req i C out mom w g c mo lr wd rs
    (m : mem T) :
  0 <= i -> 0 <= C -> (i + 1) * C <= 2 ^ 32 ->
  (forall j, 0 <= j < C -> rnonzero (load m g (i * C + j)) = false) ->
  SGDMomRspDnsKernel_Map req i C out mom w g c mo lr wd rs m = m.
Proof.
  intros Hi HC Hb Hz. unfold SGDMomRspDnsKernel_Map.
  assert (Hoff : index_t (i * C) = i * C) by (apply index_t_small; nia).
  rewrite Hoff.
  rewrite (@contains_non_zeros_false m g (i * C) C);
    [reflexivity | nia | lia | rewrite Z2Nat.id; lia | nia | exact Hz].
Qed.

End RowFrameLemmas.

(** ** Lazy update *)

Section LazyUpdate.

Context {T : Type} `{RealType T}.

Local Open Scope Z_scope.

Lemma unlisted_row_cell (L rows r j k j' : Z) (idx : Z -> Z) :
  rows * L <= 2 ^ 32 -> 0 <= r < rows -> 0 <= j < L ->
  0 <= idx k < rows -> idx k <> r -> 0 <= j' < L ->
  r * L + j <> index_t (idx k * L + j').
Proof.
  intros Hb Hr Hj Hk Hne Hj'.
  rewrite index_t_small by (eapply row_cell_bound; eauto).
  intros Heq. apply row_cell_inj in Heq as [Heq _]; auto.
Qed.

Lemma other_row_cell (C rows r j k j' : Z) :
  rows * C <= 2 ^ 32 -> 0 <= r < rows -> 0 <= j < C ->
  0 <= k < rows -> k <> r -> 0 <= j' < C ->
  r * C + j <> index_t (index_t (k * C) + j').
Proof.
  intros Hb Hr Hj Hk Hne Hj'.
  assert (Hkb : 0 <= k * C + j' < 2 ^ 32)
    by (eapply row_cell_bound; eauto).
  assert (0 <= k * C) by (apply Z.mul_nonneg_nonneg; lia).
  rewrite (@index_t_small (k * C)) by lia.
  rewrite index_t_small by lia.
  intros Heq. apply row_cell_inj in Heq as [Heq _]; auto.
Qed.

Lemma SGDDnsRsp_unlisted_row req L out w idx g c lr wd rs num_rows rows r
    (m : mem T) :
  rows * L <= 2 ^ 32 -> 0 <= r < rows ->
  (forall i, 0 <= i < num_rows -> 0 <= idx i < rows /\ idx i <> r) ->
  row_unchanged m
    (Launch num_rows
       (fun i => SGDDnsRspKernel_Map req i L out w idx g c lr wd rs) m)
    L r.
Proof.
  intros Hb Hr Hidx p j Hj.
  apply (Launch_inv
           (fun s => load s p (r * L + j) = load m p (r * L + j)));
    [reflexivity|].
  intros k s Hk Hs. rewrite <- Hs. apply SGDDnsRspKernel_Map_cells.
  intros j' Hj'. destruct (Hidx k Hk).
  eapply unlisted_row_cell; eauto.
Qed.

Lemma SGDMomDnsRspDns_unlisted_row req L out mom w idx g c mo lr wd rs
    num_rows rows r (m : mem T) :
  rows * L <= 2 ^ 32 -> 0 <= r < rows ->
  (forall i, 0 <= i < num_rows -> 0 <= idx i < rows /\ idx i <> r) ->
  row_unchanged m
    (Launch num_rows
       (fun i =>
          SGDMomDnsRspDnsKernel_Map req i L out mom w idx g c mo lr wd rs)
       m)
    L r.
Proof.
  intros Hb Hr Hidx p j Hj.
  apply (Launch_inv
           (fun s => load s p (r * L + j) = load m p (r * L + j)));
    [reflexivity|].
  intros k s Hk Hs. rewrite <- Hs. apply SGDMomDnsRspDnsKernel_Map_cells.
  intros j' Hj'. destruct (Hidx k Hk).
  eapply unlisted_row_cell; eauto.
Qed.

Lemma AdamDnsRspDns_unlisted_row req L out mean var w idx g c b1 b2 lr wd
    eps rs num_rows r (m : mem T) :
  (forall i, 0 <= i < num_rows -> idx i <> r) ->
  row_unchanged m
    (Launch num_rows
       (fun i =>
          AdamDnsRspDnsKernel_Map req i L out mean var w idx g c b1 b2 lr wd
            eps rs)
       m)
    L r.
Proof.
  intros Hidx p j Hj.
  apply (Launch_inv
           (fun s => load s p (r * L + j) = load m p (r * L + j)));
    [reflexivity|].
  intros k s Hk Hs. rewrite <- Hs. apply AdamDnsRspDnsKernel_Map_cells.
  intros j' Hj' Heq. apply row_cell_inj in Heq as [Heq _]; auto.
  apply (Hidx k Hk). congruence.
Qed.

Lemma SGDRspDns_zero_row req C out w g c lr wd rs num_rows r (m : mem T) :
  num_rows * C <= 2 ^ 32 -> 0 <= r < num_rows ->
  (forall j, 0 <= j < C -> rnonzero (load m g (r * C + j)) = false) ->
  row_unchanged m
    (Launch num_rows
       (fun i => SGDRspDnsKernel_Map req i C out w g c lr wd rs) m)
    C r.
Proof.
  intros Hb Hr Hz.
  apply (Launch_inv (fun s => row_unchanged m s C r));
    [intros p j Hj; reflexivity|].
  intros k s Hk Hs p j Hj. rewrite <- (Hs p j Hj).
  destruct (Z.eq_dec k r) as [->|Hne].
  - rewrite SGDRspDnsKernel_Map_zero_row; auto; try lia.
    + assert ((r + 1) * C <= num_rows * C)
        by (apply Z.mul_le_mono_nonneg_r; lia). lia.
    + intros j' Hj'. rewrite (Hs g j' Hj'). auto.
  - apply SGDRspDnsKernel_Map_cells. intros j' Hj'.
    eapply other_row_cell; eauto.
Qed.

Lemma SGDMomRspDns_zero_row req C out mom w g c mo lr wd rs num_rows r
    (m : mem T) :
  num_rows * C <= 2 ^ 32 -> 0 <= r < num_rows ->
  (forall j, 0 <= j < C -> rnonzero (load m g (r * C + j)) = false) ->
  row_unchanged m
    (Launch num_rows
       (fun i => SGDMomRspDnsKernel_Map req i C out mom w g c mo lr wd rs) m)
    C r.
Proof.
  intros Hb Hr Hz.
  apply (Launch_inv (fun s => row_unchanged m s C r));
    [intros p j Hj; reflexivity|].
  intros k s Hk Hs p j Hj. rewrite <- (Hs p j Hj).
  destruct (Z.eq_dec k r) as [->|Hne].
  - rewrite SGDMomRspDnsKernel_Map_zero_row; auto; try lia.
    + assert ((r + 1) * C <= num_rows * C)
        by (apply Z.mul_le_mono_nonneg_r; lia). lia.
    + intros j' Hj'. rewrite (Hs g j' Hj'). auto.
  - apply SGDMomRspDnsKernel_Map_cells. intros j' Hj'.
    eapply other_row_cell; eauto.
Qed.

End LazyUpdate.

(** ** Row kernels: what they compute *)

Section RowLaunch.

Context {T : Type}.

Local Open Scope Z_scope.

(** A launch over [N] rows whose item [i] loops over [L] columns; column
    [j] of item [i] writes cell [cell i j] only, never block [g], and
    reads cell [cell i j] and block [g] only. *)
Variables (N L : Z) (cell : Z -> Z -> Z) (g : ptr).
Variable column : Z -> Z -> mem T -> mem T.
Hypothesis cell_inj :
  forall i j i' j', 0 <= i < N -> 0 <= i' < N -> 0 <= j < L -> 0 <= j' < L ->
    cell i j = cell i' j' -> i = i' /\ j = j'.
Hypothesis column_cells :
  forall i j s p a, 0 <= i < N -> 0 <= j < L -> a <> cell i j ->
    load (column i j s) p a = load s p a.
Hypothesis column_grad :
  forall i j s a, 0 <= i < N -> 0 <= j < L ->
    load (column i j s) g a = load s g a.
Hypothesis column_local :
  forall i j s s', 0 <= i < N -> 0 <= j < L ->
    agree_at (cell i j) s s' -> (forall a, load s g a = load s' g a) ->
    agree_at (cell i j) (column i j s) (column i j s').

Definition agree_column (i j : Z) (s s' : mem T) : Prop :=
  agree_at (cell i j) s s' /\ forall a, load s g a = load s' g a.

Definition agree_row (i : Z) (s s' : mem T) : Prop :=
  (forall j, 0 <= j < L -> agree_at (cell i j) s s')
  /\ forall a, load s g a = load s' g a.

Lemma agree_column_trans i j s1 s2 s3 :
  agree_column i j s1 s2 -> agree_column i j s2 s3 -> agree_column i j s1 s3.
Proof.
  intros [Ha Hb] [Hc Hd]. split.
  - eapply agree_at_trans; eassumption.
  - intros a. now rewrite Hb.
Qed.

Lemma agree_column_sym i j s1 s2 :
  agree_column i j s1 s2 -> agree_column i j s2 s1.
Proof.
  intros [Ha Hb]. split; [intros p; symmetry; apply Ha|].
  intros a. symmetry. apply Hb.
Qed.

Lemma agree_row_trans i s1 s2 s3 :
  agree_row i s1 s2 -> agree_row i s2 s3 -> agree_row i s1 s3.
Proof.
  intros [Ha Hb] [Hc Hd]. split.
  - intros j Hj. eapply agree_at_trans; eauto.
  - intros a. now rewrite Hb.
Qed.

Lemma row_columns i s j :
  0 <= i < N -> 0 <= j < L ->
  agree_column i j (for_loop (Z.to_nat L) (column i) s) (column i j s).
Proof.
  intros Hi Hj.
  apply for_loop_local with (agree := agree_column i) (N := L).
  - intros a s'. split; [apply agree_at_refl|reflexivity].
  - intros a s1 s2 s3. apply agree_column_trans.
  - intros k a s' Hk Ha Hne. split.
    + intros p. apply column_cells; auto.
      intros Heq. apply cell_inj in Heq as [_ Heq]; auto.
    + intros b. apply column_grad; auto.
  - intros k s1 s2 Hk [Hag Hg]. split.
    + apply column_local; auto.
    + intros a. rewrite !column_grad; auto.
  - lia.
  - lia.
Qed.

Lemma row_frame i i' s :
  0 <= i < N -> 0 <= i' < N -> i' <> i ->
  agree_row i' (for_loop (Z.to_nat L) (column i) s) s.
Proof.
  intros Hi Hi' Hne.
  apply (for_loop_inv (fun s' => agree_row i' s' s)).
  - split; [intros j Hj; apply agree_at_refl|reflexivity].
  - intros k s' Hk [Hs Hg]. split.
    + intros j Hj p. rewrite <- (Hs j Hj p). apply column_cells; auto; [lia|].
      intros Heq. apply cell_inj in Heq as [Heq _]; auto. lia.
    + intros a. rewrite <- Hg. apply column_grad; auto. lia.
Qed.

Lemma rows_launch_cell m i j :
  0 <= i < N -> 0 <= j < L ->
  agree_at (cell i j)
    (Launch N (fun i => for_loop (Z.to_nat L) (column i)) m)
    (column i j m).
Proof.
  intros Hi Hj.
  assert (Hrow : agree_row i
            (Launch N (fun i => for_loop (Z.to_nat L) (column i)) m)
            (for_loop (Z.to_nat L) (column i) m)).
  { apply Launch_local with (agree := agree_row); auto.
    - intros a s. split; [intros k Hk; apply agree_at_refl|reflexivity].
    - intros a s1 s2 s3. apply agree_row_trans.
    - intros k a s Hk Ha Hne. apply row_frame; auto.
    - intros k s s' Hk [Hs Hg]. split.
      + intros j' Hj'.
        destruct (row_columns s Hk Hj') as [H1 _].
        destruct (row_columns s' Hk Hj') as [H2 _].
        eapply agree_at_trans; [exact H1|].
        eapply agree_at_trans; [|apply agree_at_sym; exact H2].
        apply column_local; auto.
      + intros a.
        destruct (row_columns s Hk Hj) as [_ H1].
        destruct (row_columns s' Hk Hj) as [_ H2].
        rewrite H1, H2, !column_grad; auto. }
  destruct Hrow as [Hrow _].
  eapply agree_at_trans; [apply Hrow; auto|].
  apply row_columns; auto.
Qed.

End RowLaunch.

Section RowKernelLemmas.

Context {T : Type} `{RealType T}.

Local Open Scope Z_scope.

(** *** SGD with momentum, row-sparse gradient *)

(** The body of the column loop of [SGDMomDnsRspDnsKernel<req>::Map]. *)
Definition SGDMomDnsRspDns_column (req : OpReqType) (L : Z)
    (out mom w : ptr) (idx : Z -> Z) (g : ptr) (c mo lr wd rs : T)
    (i j : Z) (m : mem T) : mem T :=
  let data_i := index_t (idx i * L + j) in
  let grad_i := index_t (i * L + j) in
  let m1 :=
    store m mom data_i
      (SGDMom_new_mom c mo lr wd rs (load m mom data_i) (load m w data_i)
         (load m g grad_i)) in
  KERNEL_ASSIGN m1 out data_i req (load m1 w data_i + load m1 mom data_i)%num.

Lemma SGDMomDnsRspDnsKernel_Map_columns req i L out mom w idx g c mo lr wd rs
    (m : mem T) :
  SGDMomDnsRspDnsKernel_Map req i L out mom w idx g c mo lr wd rs m =
  for_loop (Z.to_nat L)
    (SGDMomDnsRspDns_column req L out mom w idx g c mo lr wd rs i) m.
Proof.
  unfold SGDMomDnsRspDnsKernel_Map, SGDMomDnsRspDns_column, SGDMom_new_mom.
  destruct (rge0 c); reflexivity.
Qed.

Lemma SGDMomDnsRspDns_Launch_cell req L out mom w idx g c mo lr wd rs
    num_rows rows (m : mem T) i j :
  g <> mom -> g <> out ->
  rows * L <= 2 ^ 32 ->
  (forall k, 0 <= k < num_rows -> 0 <= idx k < rows) ->
  (forall k k', 0 <= k < num_rows -> 0 <= k' < num_rows ->
     idx k = idx k' -> k = k') ->
  0 <= i < num_rows -> 0 <= j < L ->
  agree_at (idx i * L + j)
    (Launch num_rows
       (fun i =>
          SGDMomDnsRspDnsKernel_Map req i L out mom w idx g c mo lr wd rs)
       m)
    (SGDMomDnsRspDns_column req L out mom w idx g c mo lr wd rs i j m).
Proof.
  intros Hgm Hgo Hb Hidx Hinj Hi Hj.
  assert (Hcell : forall k j', 0 <= k < num_rows -> 0 <= j' < L ->
            index_t (idx k * L + j') = idx k * L + j').
  { intros k j' Hk Hj'. apply index_t_small.
    eapply row_cell_bound; eauto. }
  rewrite <- (Hcell i j Hi Hj).
  assert (Hext : forall s,
            Launch num_rows
              (fun i =>
                 SGDMomDnsRspDnsKernel_Map req i L out mom w idx g c mo lr
                   wd rs) s =
            Launch num_rows
              (fun i =>
                 for_loop (Z.to_nat L)
                   (SGDMomDnsRspDns_column req L out mom w idx g c mo lr wd
                      rs i)) s).
  { intros s. unfold Launch. generalize (Z.to_nat num_rows) as n.
    induction n as [|n IH]; [reflexivity|]. simpl. rewrite IH.
    apply SGDMomDnsRspDnsKernel_Map_columns. }
  rewrite Hext.
  apply rows_launch_cell
    with (cell := fun i j => index_t (idx i * L + j)) (g := g); auto.
  - intros k j1 k' j2 Hk Hk' Hj1 Hj2. rewrite !Hcell by assumption.
    intros Heq. apply row_cell_inj in Heq as [Heq1 Heq2]; auto.
  - intros k j' s p a Hk Hj' Hne.
    unfold SGDMomDnsRspDns_column, KERNEL_ASSIGN.
    destruct req; mem_simpl; reflexivity.
  - intros k j' s a Hk Hj'.
    unfold SGDMomDnsRspDns_column, KERNEL_ASSIGN.
    destruct req; mem_simpl; reflexivity.
  - intros k j' s s' Hk Hj' Hag Hg p.
    unfold SGDMomDnsRspDns_column, KERNEL_ASSIGN.
    destruct req; rewrite ?load_store, ?Hag, ?Hg; reflexivity.
Qed.

(** *** Adam, row-sparse gradient *)

(** The values [AdamDnsRspDnsKernel] computes for one cell. *)
Definition Adam_grad_rescaled (wd rs : T) (w_d g_i : T) : T :=
  (g_i * rs + w_d * wd)%num.

Definition Adam_new_mean (c b1 : T) (mean_d grad_rescaled : T) : T :=
  if rge0 c then (b1 * mean_d + (rone - b1) * clip grad_rescaled c)%num
  else (b1 * mean_d + (rone - b1) * grad_rescaled)%num.

Definition Adam_new_var (c b2 : T) (var_d grad_rescaled : T) : T :=
  if rge0 c then
    (b2 * var_d + (rone - b2) * square (clip grad_rescaled c))%num
  else (b2 * var_d + (rone - b2) * grad_rescaled * grad_rescaled)%num.

(** The body of the column loop of [AdamDnsRspDnsKernel<req>::Map]. *)
Definition AdamDnsRspDns_column (req : OpReqType) (L : Z)
    (out mean var w : ptr) (idx : Z -> Z) (g : ptr)
    (c b1 b2 lr wd eps rs : T) (i j : Z) (m : mem T) : mem T :=
  let data_i := idx i * L + j in
  let grad_i := i * L + j in
  let grad_rescaled :=
    Adam_grad_rescaled wd rs (load m w data_i) (load m g grad_i) in
  let m1 :=
    store m mean data_i
      (Adam_new_mean c b1 (load m mean data_i) grad_rescaled) in
  let m2 :=
    store m1 var data_i
      (Adam_new_var c b2 (load m1 var data_i) grad_rescaled) in
  KERNEL_ASSIGN m2 out data_i req
    (load m2 w data_i
     - lr * load m2 mean data_i
       / (square_root (load m2 var data_i) + eps))%num.

Lemma AdamDnsRspDnsKernel_Map_columns req i L out mean var w idx g c b1 b2 lr
    wd eps rs (m : mem T) :
  AdamDnsRspDnsKernel_Map req i L out mean var w idx g c b1 b2 lr wd eps rs
    m =
  for_loop (Z.to_nat L)
    (AdamDnsRspDns_column req L out mean var w idx g c b1 b2 lr wd eps rs i)
    m.
Proof.
  unfold AdamDnsRspDnsKernel_Map, AdamDnsRspDns_column, Adam_new_mean,
    Adam_new_var, Adam_grad_rescaled.
  destruct (rge0 c); reflexivity.
Qed.

Lemma AdamDnsRspDns_Launch_cell req L out mean var w idx g c b1 b2 lr wd eps
    rs num_rows (m : mem T) i j :
  g <> mean -> g <> var -> g <> out ->
  (forall k k', 0 <= k < num_rows -> 0 <= k' < num_rows ->
     idx k = idx k' -> k = k') ->
  0 <= i < num_rows -> 0 <= j < L ->
  agree_at (idx i * L + j)
    (Launch num_rows
       (fun i =>
          AdamDnsRspDnsKernel_Map req i L out mean var w idx g c b1 b2 lr wd
            eps rs)
       m)
    (AdamDnsRspDns_column req L out mean var w idx g c b1 b2 lr wd eps rs i
       j m).
Proof.
  intros Hgm Hgv Hgo Hinj Hi Hj.
  assert (Hext : forall s,
            Launch num_rows
              (fun i =>
                 AdamDnsRspDnsKernel_Map req i L out mean var w idx g c b1
                   b2 lr wd eps rs) s =
            Launch num_rows
              (fun i =>
                 for_loop (Z.to_nat L)
                   (AdamDnsRspDns_column req L out mean var w idx g c b1 b2
                      lr wd eps rs i)) s).
  { intros s. unfold Launch. generalize (Z.to_nat num_rows) as n.
    induction n as [|n IH]; [reflexivity|]. simpl. rewrite IH.
    apply AdamDnsRspDnsKernel_Map_columns. }
  rewrite Hext.
  apply rows_launch_cell with (cell := fun i j => idx i * L + j) (g := g);
    auto.
  - intros k j1 k' j2 Hk Hk' Hj1 Hj2 Heq.
    apply row_cell_inj in Heq as [Heq1 Heq2]; auto.
  - intros k j' s p a Hk Hj' Hne.
    unfold AdamDnsRspDns_column, KERNEL_ASSIGN.
    destruct req; mem_simpl; reflexivity.
  - intros k j' s a Hk Hj'.
    unfold AdamDnsRspDns_column, KERNEL_ASSIGN.
    destruct req; mem_simpl; reflexivity.
  - intros k j' s s' Hk Hj' Hag Hg p.
    unfold AdamDnsRspDns_column, KERNEL_ASSIGN.
    destruct req; rewrite ?load_store, ?Hag, ?Hg; reflexivity.
Qed.

End RowKernelLemmas.

(** ** Dense SGD *)

Section SGDUpdateLemmas.

Context {DType float : Type} `{RealType DType} `{RealType float}
  `{StaticCast DType float} `{StaticCast float DType}.

Lemma SGDUpdate_load (param : SGDParam.t float) weight grad out req
    (m : mem DType) p i :
  load (SGDUpdate param [weight; grad] [req] [out] m) p i =
  if ((0 <=? i) && (i <? Size (shape_ weight)))%Z then
    load
      (SGDKernel_Map i (dptr_ out) (dptr_ weight) (dptr_ grad)
         (static_cast (SGDParam.clip_gradient param))
         (static_cast (SGDParam.lr param))
         (static_cast (SGDParam.wd param))
         (static_cast (SGDParam.rescale_grad param)) req m) p i
  else load m p i.
Proof.
  unfold SGDUpdate. cbn [nth]. rewrite Launch_cell; [reflexivity| |].
  - intros k a s Hne. now apply SGDKernel_Map_frame.
  - intros k s s' Hag. now apply SGDKernel_Map_local.
Qed.

End SGDUpdateLemmas.

(** *** In exact arithmetic *)

Lemma Rclip_effective_gradient c x :
  (0 <= c)%R -> Rclip x c = effective_gradient c x.
Proof.
  intros Hc. unfold Rclip, effective_gradient.
  destruct (Rle_dec 0 c) as [_|Hn]; [|contradiction].
  now rewrite Rmax_comm, Rmin_comm.
Qed.

Lemma effective_gradient_code (c x : R) (F : R -> R) :
  (if rge0 c then F (clip x c) else F x) = F (effective_gradient c x).
Proof.
  cbn [rge0 clip R_RealType]. unfold effective_gradient, Rclip.
  destruct (Rle_dec 0 c); [|reflexivity].
  now rewrite Rmax_comm, Rmin_comm.
Qed.

Lemma effective_gradient_within c x :
  (Rabs x <= c)%R -> effective_gradient c x = x.
Proof.
  intros Hx. unfold effective_gradient.
  destruct (Rle_dec 0 c); [|reflexivity].
  assert (Hb : (- c <= x <= c)%R).
  { unfold Rabs in Hx. destruct (Rcase_abs x); lra. }
  rewrite Rmin_right by lra. rewrite Rmax_right by lra. reflexivity.
Qed.

Lemma effective_gradient_disabled c x :
  (c < 0)%R -> effective_gradient c x = x.
Proof.
  intros Hc. unfold effective_gradient.
  destruct (Rle_dec 0 c); [lra|reflexivity].
Qed.


Lemma SGDKernel_Map_rule k out w g c lr wd rs req (m : mem R) :
  load (SGDKernel_Map k out w g c lr wd rs req m) out k =
  written req (load m out k)
    ((1 - lr * wd) * load m w k
     - lr * effective_gradient c (rs * load m g k))%R.
Proof.
  rewrite SGDKernel_Map_load, Nat.eqb_refl. f_equal.
  rewrite <- (effective_gradient_code c (rs * load m g k)
                (fun e => (1 - lr * wd) * load m w k - lr * e)%R).
  cbn [rge0 clip rone rsub rmul R_RealType].
  destruct (Rle_dec 0 c); [reflexivity|]. ring.
Qed.

(** ** Dense tensor-expression entry points *)

(** Proves that a right-hand side reads its own cell only. *)
Ltac local_tac :=
  let k := fresh "k" in
  let s := fresh "s" in
  let s' := fresh "s'" in
  let Hag := fresh "Hag" in
  intros k s s' Hag; cbv beta; rewrite ?Hag; reflexivity.


(** Turns the disequalities of blocks at hand into rewritable facts. *)
Ltac neq_to_eqb :=
  repeat match goal with
  | Hne : ?a <> ?b :> ptr |- _ =>
      let H1 := fresh "Hneb" in
      let H2 := fresh "Hneb" in
      assert (H1 : Nat.eqb a b = false) by (apply Nat.eqb_neq; exact Hne);
      assert (H2 : Nat.eqb b a = false)
        by (apply Nat.eqb_neq; intros Heq; apply Hne; symmetry; exact Heq);
      clear Hne
  end.

Ltac blocks_simpl :=
  repeat match goal with
  | |- context [Nat.eqb ?a ?a] => rewrite (Nat.eqb_refl a)
  | Hb : Nat.eqb ?a ?b = false |- context [Nat.eqb ?a ?b] => rewrite Hb
  | Hr : ((0 <=? ?i) && (?i <? ?n))%Z = true
    |- context [((0 <=? ?i) && (?i <? ?n))%Z] => rewrite Hr
  end;
  cbn [andb].

(** Evaluates a load from a sequence of tensor statements, last statement
    first, deciding the block and range tests as they appear. *)
Ltac tensor_eval :=
  repeat (match goal with
          | |- context [load (Assign _ _ _ _) _ _] =>
              rewrite Assign_load by local_tac
          | |- context [load (tensor_assign _ _ _) _ _] =>
              rewrite tensor_assign_load by local_tac
          end;
          blocks_simpl).

Lemma in_range_true i N :
  (0 <= i < N)%Z -> ((0 <=? i) && (i <? N))%Z = true.
Proof.
  intros Hi. apply andb_true_iff. split; [apply Z.leb_le|apply Z.ltb_lt]; lia.
Qed.

Section AdamUpdateLemmas.

Context {DType float : Type} `{RealType DType} `{RealType float}
  `{StaticCast DType float} `{StaticCast float DType}.

(** The gradient tensor after [AdamUpdate]. *)
Lemma AdamUpdate_grad (param : AdamParam.t float) weight grad mean var out
    req (m : mem DType) i :
  dptr_ mean <> dptr_ grad -> dptr_ var <> dptr_ grad ->
  dptr_ out <> dptr_ grad ->
  (0 <= i < Size (shape_ grad))%Z ->
  load (AdamUpdate param [weight; grad; mean; var] [req] [out] m)
    (dptr_ grad) i =
  (scalar (AdamParam.rescale_grad param) * load m (dptr_ grad) i
   + scalar (AdamParam.wd param) * load m (dptr_ weight) i)%num.
Proof.
  intros Hm Hv Ho Hi. unfold AdamUpdate. cbn [nth]. cbv zeta.
  apply in_range_true in Hi. neq_to_eqb.
  destruct (rge0 (AdamParam.clip_gradient param)); tensor_eval;
    reflexivity.
Qed.

End AdamUpdateLemmas.

(** *** Adam in exact arithmetic *)

Lemma AdamUpdate_cell (param : AdamParam.t R) weight grad mean var out req
    (m : mem R) i :
  let lr := AdamParam.lr param in
  let beta1 := AdamParam.beta1 param in
  let beta2 := AdamParam.beta2 param in
  let epsilon := AdamParam.epsilon param in
  let wd := AdamParam.wd param in
  let rescale_grad := AdamParam.rescale_grad param in
  let clip_gradient := AdamParam.clip_gradient param in
  let m' := AdamUpdate param [weight; grad; mean; var] [req] [out] m in
  let grad' :=
    effective_gradient clip_gradient
      (rescale_grad * load m (dptr_ grad) i
       + wd * load m (dptr_ weight) i)%R in
  let mean' := (beta1 * load m (dptr_ mean) i + (1 - beta1) * grad')%R in
  let var' := (beta2 * load m (dptr_ var) i + (1 - beta2) * grad' ^ 2)%R in
  dptr_ grad <> dptr_ weight ->
  dptr_ mean <> dptr_ weight -> dptr_ mean <> dptr_ grad ->
  dptr_ var <> dptr_ weight -> dptr_ var <> dptr_ grad ->
  dptr_ var <> dptr_ mean ->
  dptr_ out <> dptr_ grad -> dptr_ out <> dptr_ mean ->
  dptr_ out <> dptr_ var ->
  Size (shape_ grad) = Size (shape_ weight) ->
  Size (shape_ mean) = Size (shape_ weight) ->
  Size (shape_ var) = Size (shape_ weight) ->
  Size (shape_ out) = Size (shape_ weight) ->
  (0 <= i < Size (shape_ weight))%Z ->
  load m' (dptr_ mean) i = mean'
  /\ load m' (dptr_ var) i = var'
  /\ load m' (dptr_ out) i =
     written req (load m (dptr_ out) i)
       (load m (dptr_ weight) i - lr * mean' / (sqrt var' + epsilon))%R.
Proof.
  intros lr beta1 beta2 epsilon wd rescale_grad clip_gradient m' grad' mean'
    var' Hgw Hmw Hmg Hvw Hvg Hvm Hog Hom Hov Sg Sm Sv So Hi.
  apply in_range_true in Hi.
  assert (Hig := Hi). assert (Him := Hi). assert (Hiv := Hi).
  assert (Hio := Hi). rewrite <- Sg in Hig. rewrite <- Sm in Him.
  rewrite <- Sv in Hiv. rewrite <- So in Hio.
  subst m' mean' var' grad'. unfold AdamUpdate, effective_gradient.
  cbn [nth]. cbv zeta.
  neq_to_eqb.
  cbn [rge0 clip square square_root rone radd rsub rmul rdiv R_RealType].
  unfold scalar, static_cast, R_StaticCast, Rclip.
  fold lr beta1 beta2 epsilon wd rescale_grad clip_gradient.
  destruct (Rle_dec 0 clip_gradient);
    (repeat split; tensor_eval;
     cbn [radd rsub rmul rdiv square square_root clip R_RealType];
     unfold Rclip;
     rewrite ?(Rmax_comm (Rmin _ _)), ?(Rmin_comm _ clip_gradient);
     rewrite <- ?Rsqr_pow2; unfold Rsqr; reflexivity).
Qed.

(** *** RMSProp in exact arithmetic *)



(** ** The gradient tensor *)

Section GradientLemmas.

Context {DType float : Type} `{RealType DType} `{RealType float}
  `{StaticCast DType float} `{StaticCast float DType}.

Lemma RMSPropUpdate_grad (param : RMSPropParam.t float) weight grad state_n
    out req (m : mem DType) i :
  dptr_ state_n <> dptr_ grad -> dptr_ out <> dptr_ grad ->
  (0 <= i < Size (shape_ grad))%Z ->
  load (RMSPropUpdate param [weight; grad; state_n] [req] [out] m)
    (dptr_ grad) i =
  (scalar (RMSPropParam.rescale_grad param) * load m (dptr_ grad) i
   + scalar (RMSPropParam.wd param) * load m (dptr_ weight) i)%num.
Proof.
  intros Hn Ho Hi. unfold RMSPropUpdate. cbn [nth]. cbv zeta.
  apply in_range_true in Hi. neq_to_eqb.
  destruct (rge0 (RMSPropParam.clip_gradient param)),
    (rge0 (RMSPropParam.clip_weights param));
    tensor_eval; reflexivity.
Qed.

Lemma RMSPropAlexUpdate_grad (param : RMSPropAlexParam.t float) weight grad
    state_n state_g delta out req (m : mem DType) i :
  dptr_ state_n <> dptr_ grad -> dptr_ state_g <> dptr_ grad ->
  dptr_ delta <> dptr_ grad -> dptr_ out <> dptr_ grad ->
  (0 <= i < Size (shape_ grad))%Z ->
  load
    (RMSPropAlexUpdate param [weight; grad; state_n; state_g; delta] [req]
       [out] m)
    (dptr_ grad) i =
  (scalar (RMSPropAlexParam.rescale_grad param) * load m (dptr_ grad) i
   + scalar (RMSPropAlexParam.wd param) * load m (dptr_ weight) i)%num.
Proof.
  intros Hn Hs Hd Ho Hi. unfold RMSPropAlexUpdate. cbn [nth]. cbv zeta.
  apply in_range_true in Hi. neq_to_eqb.
  destruct (rge0 (RMSPropAlexParam.clip_gradient param)),
    (rge0 (RMSPropAlexParam.clip_weights param));
    tensor_eval; reflexivity.
Qed.

(** The SGD kernels write [out] (and [mom]) only. *)
Lemma SGDUpdate_other (param : SGDParam.t float) weight grad out req
    (m : mem DType) p i :
  p <> dptr_ out ->
  load (SGDUpdate param [weight; grad] [req] [out] m) p i = load m p i.
Proof.
  intros Hp. rewrite SGDUpdate_load.
  destruct (_ && _)%bool; [|reflexivity].
  rewrite SGDKernel_Map_load.
  apply Nat.eqb_neq in Hp. now rewrite Hp.
Qed.

Lemma SGDMomUpdate_load (param : SGDMomParam.t float) weight grad mom out req
    (m : mem DType) p i :
  load (SGDMomUpdate param [weight; grad; mom] [req] [out] m) p i =
  if ((0 <=? i) && (i <? Size (shape_ weight)))%Z then
    load
      (SGDMomKernel_Map i (dptr_ out) (dptr_ mom) (dptr_ weight)
         (dptr_ grad)
         (static_cast (SGDMomParam.clip_gradient param))
         (static_cast (SGDMomParam.momentum param))
         (static_cast (SGDMomParam.lr param))
         (static_cast (SGDMomParam.wd param))
         (static_cast (SGDMomParam.rescale_grad param)) req m) p i
  else load m p i.
Proof.
  unfold SGDMomUpdate. cbn [nth]. rewrite Launch_cell; [reflexivity| |].
  - intros k a s Hne. now apply SGDMomKernel_Map_frame.
  - intros k s s' Hag. now apply SGDMomKernel_Map_local.
Qed.

Lemma SGDMomUpdate_other (param : SGDMomParam.t float) weight grad mom out
    req (m : mem DType) p i :
  p <> dptr_ mom -> p <> dptr_ out ->
  load (SGDMomUpdate param [weight; grad; mom] [req] [out] m) p i =
  load m p i.
Proof.
  intros Hm Ho. rewrite SGDMomUpdate_load.
  destruct (_ && _)%bool; [|reflexivity].
  now apply SGDMomKernel_Map_other.
Qed.

Lemma MP_SGDUpdate_cell (param : SGDParam.t float) weight grad weight32 out
    req (s : mem DType * mem float) i :
  agree2_at i
    (MP_SGDUpdate param [weight; grad; weight32] [req] [out] s)
    (if ((0 <=? i) && (i <? Size (shape_ weight)))%Z then
       MP_SGDKernel_Map i (dptr_ out) (dptr_ weight) (dptr_ grad)
         (dptr_ weight32)
         (SGDParam.clip_gradient param) (SGDParam.lr param)
         (SGDParam.wd param) (SGDParam.rescale_grad param) req s
     else s).
Proof.
  unfold MP_SGDUpdate. cbn [nth].
  apply Launch_cell2
    with (body := fun k =>
            MP_SGDKernel_Map k (dptr_ out) (dptr_ weight) (dptr_ grad)
              (dptr_ weight32)
              (SGDParam.clip_gradient param) (SGDParam.lr param)
              (SGDParam.wd param) (SGDParam.rescale_grad param) req).
  - intros k a s' Hne. now apply MP_SGDKernel_Map_frame.
  - intros k s1 s2 Hag. now apply MP_SGDKernel_Map_local.
Qed.

Lemma MP_SGDMomUpdate_cell (param : SGDMomParam.t float) weight grad mom
    weight32 out req (s : mem DType * mem float) i :
  agree2_at i
    (MP_SGDMomUpdate param [weight; grad; mom; weight32] [req] [out] s)
    (if ((0 <=? i) && (i <? Size (shape_ weight)))%Z then
       MP_SGDMomKernel_Map i (dptr_ out) (dptr_ mom) (dptr_ weight)
         (dptr_ grad) (dptr_ weight32)
         (SGDMomParam.clip_gradient param) (SGDMomParam.momentum param)
         (SGDMomParam.lr param) (SGDMomParam.wd param)
         (SGDMomParam.rescale_grad param) req s
     else s).
Proof.
  unfold MP_SGDMomUpdate. cbn [nth].
  apply Launch_cell2
    with (body := fun k =>
            MP_SGDMomKernel_Map k (dptr_ out) (dptr_ mom) (dptr_ weight)
              (dptr_ grad) (dptr_ weight32)
              (SGDMomParam.clip_gradient param) (SGDMomParam.momentum param)
              (SGDMomParam.lr param) (SGDMomParam.wd param)
              (SGDMomParam.rescale_grad param) req).
  - intros k a s' Hne. now apply MP_SGDMomKernel_Map_frame.
  - intros k s1 s2 Hag. now apply MP_SGDMomKernel_Map_local.
Qed.

(** With the write mode skip the mixed-precision momentum kernel leaves
    the [DType] memory alone. *)
Lemma MP_SGDMomUpdate_skip (param : SGDMomParam.t float) weight grad mom
    weight32 out (s : mem DType * mem float) :
  fst (MP_SGDMomUpdate param [weight; grad; mom; weight32] [kNullOp] [out] s)
  = fst s.
Proof.
  unfold MP_SGDMomUpdate. cbn [nth].
  apply (Launch_inv (fun s' : mem DType * mem float => fst s' = fst s));
    [reflexivity|].
  intros k s' Hk Hs. rewrite <- Hs. apply MP_SGDMomKernel_Map_skip.
Qed.

End GradientLemmas.

(** ** The row kernels in exact arithmetic *)

Lemma SGDMom_new_mom_rule (c mo lr wd rs mom w g : R) :
  SGDMom_new_mom c mo lr wd rs mom w g =
  (mo * mom - lr * wd * w - lr * effective_gradient c (rs * g))%R.
Proof.
  unfold SGDMom_new_mom.
  rewrite <- (effective_gradient_code c (rs * g)
                (fun e => mo * mom - lr * wd * w - lr * e)%R).
  cbn [rge0 clip rone rsub rmul R_RealType].
  destruct (Rle_dec 0 c); [reflexivity|]. ring.
Qed.

Lemma SGDMomDnsRspDns_column_rule req L out mom w idx g (c mo lr wd rs : R)
    i j (m : mem R) :
  let d := (idx i * L + j)%Z in
  let m' := SGDMomDnsRspDns_column req L out mom w idx g c mo lr wd rs i j m in
  let mom' :=
    (mo * load m mom d - lr * wd * load m w d
     - lr * effective_gradient c (rs * load m g (i * L + j)))%R in
  w <> mom -> out <> mom ->
  index_t (idx i * L + j) = d -> index_t (i * L + j) = (i * L + j)%Z ->
  load m' mom d = mom'
  /\ load m' out d = written req (load m out d) (load m w d + mom')%R.
Proof.
  intros d m' mom' Hw Ho Hd Hg. subst m' mom'.
  unfold SGDMomDnsRspDns_column. cbv zeta. rewrite Hd, Hg.
  rewrite SGDMom_new_mom_rule. fold d. unfold KERNEL_ASSIGN.
  split; destruct req; cbn [written]; mem_simpl; reflexivity.
Qed.

Lemma Adam_new_mean_rule (c b1 wd rs mean w g : R) :
  Adam_new_mean c b1 mean (Adam_grad_rescaled wd rs w g) =
  (b1 * mean + (1 - b1) * effective_gradient c (rs * g + wd * w))%R.
Proof.
  unfold Adam_new_mean, Adam_grad_rescaled.
  cbn [rge0 clip rone radd rsub rmul R_RealType].
  unfold effective_gradient, Rclip.
  replace (g * rs + w * wd)%R with (rs * g + wd * w)%R by ring.
  destruct (Rle_dec 0 c); [|reflexivity].
  now rewrite Rmax_comm, Rmin_comm.
Qed.

Lemma Adam_new_var_rule (c b2 wd rs var w g : R) :
  Adam_new_var c b2 var (Adam_grad_rescaled wd rs w g) =
  (b2 * var + (1 - b2) * effective_gradient c (rs * g + wd * w) ^ 2)%R.
Proof.
  unfold Adam_new_var, Adam_grad_rescaled.
  cbn [rge0 clip square rone radd rsub rmul R_RealType].
  unfold effective_gradient, Rclip.
  replace (g * rs + w * wd)%R with (rs * g + wd * w)%R by ring.
  destruct (Rle_dec 0 c); [|ring].
  rewrite Rmax_comm, Rmin_comm. ring.
Qed.

Lemma AdamDnsRspDns_column_rule req L out mean var w idx g
    (c b1 b2 lr wd eps rs : R) i j (m : mem R) :
  let d := (idx i * L + j)%Z in
  let m' :=
    AdamDnsRspDns_column req L out mean var w idx g c b1 b2 lr wd eps rs i j
      m in
  let grad' :=
    effective_gradient c
      (rs * load m g (i * L + j) + wd * load m w d)%R in
  let mean' := (b1 * load m mean d + (1 - b1) * grad')%R in
  let var' := (b2 * load m var d + (1 - b2) * grad' ^ 2)%R in
  mean <> var -> w <> mean -> w <> var -> out <> mean -> out <> var ->
  load m' mean d = mean'
  /\ load m' var d = var'
  /\ load m' out d =
     written req (load m out d)
       (load m w d - lr * mean' / (sqrt var' + eps))%R.
Proof.
  intros d m' grad' mean' var' Hmv Hwm Hwv Hom Hov.
  subst m' mean' var' grad'.
  unfold AdamDnsRspDns_column. cbv zeta. fold d. unfold KERNEL_ASSIGN.
  repeat split; destruct req; cbn [written]; mem_simpl;
    rewrite ?Adam_new_mean_rule, ?Adam_new_var_rule; reflexivity.
Qed.

(** * The claims *)

(** ** Dense SGD *)

(** The tensors of the scenarios: one cell each, in blocks 0 (weight),
    1 (gradient), 2 and 3 (state) and 4 (output). *)
Definition scenario_blob (p : ptr) : TBlob :=
  {| dptr_ := p; shape_ := [1%Z] |}.

(** [weight = [1.0]], [grad = [0.5]] *)
Definition sgd_scenario_mem : mem R :=
  fun p _ =>
    match p with
    | 0%nat => 1%R
    | 1%nat => 0.5%R
    | _ => 0%R
    end.

(** [lr = 0.1], [wd = 0], [rescale_grad = 1], [clip_gradient = -1] *)
Definition sgd_scenario_param : SGDParam.t R :=
  SGDParam.mk 0.1%R 0%R 1%R (-1)%R.

(** C2. Dense SGD: in every cell [i] of the weight, the value written to the
    output (by the write mode: stored for overwrite and in-place, added for
    accumulate, dropped for skip) is
    [(1 - lr*wd) * weight[i] - lr * effective_gradient[i]], where the
    effective gradient is [rescale_grad * grad[i]], clipped when
    [clip_gradient >= 0]; and on [weight = [1.0]], [grad = [0.5]],
    [lr = 0.1], [wd = 0], [rescale_grad = 1], [clip_gradient = -1] the
    output is [[0.95]]. *)
Theorem SGD_dense_update_rule :
  (forall (param : SGDParam.t R) (weight grad out : TBlob) (req : OpReqType)
          (m : mem R) (i : Z),
      (0 <= i < Size (shape_ weight))%Z ->
      load (SGDUpdate param [weight; grad] [req] [out] m) (dptr_ out) i =
      written req (load m (dptr_ out) i)
        ((1 - SGDParam.lr param * SGDParam.wd param)
         * load m (dptr_ weight) i
         - SGDParam.lr param
           * effective_gradient (SGDParam.clip_gradient param)
               (SGDParam.rescale_grad param * load m (dptr_ grad) i))%R)
  /\ load
       (SGDUpdate sgd_scenario_param [scenario_blob 0; scenario_blob 1]
          [kWriteTo] [scenario_blob 4] sgd_scenario_mem)
       4%nat 0 = 0.95%R.
Proof.
  assert (Hrule :
    forall (param : SGDParam.t R) (weight grad out : TBlob) (req : OpReqType)
           (m : mem R) (i : Z),
      (0 <= i < Size (shape_ weight))%Z ->
      load (SGDUpdate param [weight; grad] [req] [out] m) (dptr_ out) i =
      written req (load m (dptr_ out) i)
        ((1 - SGDParam.lr param * SGDParam.wd param)
         * load m (dptr_ weight) i
         - SGDParam.lr param
           * effective_gradient (SGDParam.clip_gradient param)
               (SGDParam.rescale_grad param * load m (dptr_ grad) i))%R).
  { intros param weight grad out req m i Hi.
    rewrite SGDUpdate_load, (in_range_true Hi).
    apply SGDKernel_Map_rule. }
  split; [exact Hrule|].
  change 4%nat with (dptr_ (scenario_blob 4)) at 2.
  rewrite Hrule by (simpl; lia).
  cbn [written sgd_scenario_param SGDParam.lr SGDParam.wd
         SGDParam.clip_gradient SGDParam.rescale_grad].
  rewrite effective_gradient_disabled by lra.
  unfold load, sgd_scenario_mem. simpl. lra.
Qed.

(** The rule of C2 in the cell of the scenario. *)
Lemma SGD_dense_update_rule_witness :
  load
    (SGDUpdate sgd_scenario_param [scenario_blob 0; scenario_blob 1]
       [kAddTo] [scenario_blob 4] sgd_scenario_mem)
    (dptr_ (scenario_blob 4)) 0 =
  written kAddTo (load sgd_scenario_mem (dptr_ (scenario_blob 4)) 0)
    ((1 - SGDParam.lr sgd_scenario_param * SGDParam.wd sgd_scenario_param)
     * load sgd_scenario_mem (dptr_ (scenario_blob 0%nat)) 0%Z
     - SGDParam.lr sgd_scenario_param
       * effective_gradient (SGDParam.clip_gradient sgd_scenario_param)
           (SGDParam.rescale_grad sgd_scenario_param
            * load sgd_scenario_mem (dptr_ (scenario_blob 1%nat)) 0%Z))%R.
Proof.
  apply (proj1 SGD_dense_update_rule). simpl. lia.
Defined.

(** C6, amended.  Clip is a no-op within bound, up to rounding.  For
    every element type: in a cell where [clip_gradient >= 0] and clipping
    returns its argument [rescale_grad * grad[i]], the dense SGD entry point
    writes [(1 - lr*wd)*weight[i] - lr*(rescale_grad*grad[i])], where with
    clipping disabled (and the other hyperparameters equal) it writes
    [(1 - lr*wd)*weight[i] - (lr*rescale_grad)*grad[i]]: the same products,
    associated differently.  In exact arithmetic, when
    [|rescale_grad * grad[i]| <= clip_gradient] in every cell, the two calls
    leave the same memory. *)
Theorem SGD_clip_within_bound_up_to_association :
  (forall (DType float : Type) (RD : RealType DType)
          (CFD : StaticCast float DType)
          (param disabled : SGDParam.t float) (weight grad out : TBlob)
          (req : OpReqType) (m : mem DType) (i : Z),
      let lr : DType := static_cast (SGDParam.lr param) in
      let wd : DType := static_cast (SGDParam.wd param) in
      let rescale_grad : DType :=
        static_cast (SGDParam.rescale_grad param) in
      let clip_gradient : DType :=
        static_cast (SGDParam.clip_gradient param) in
      let w := load m (dptr_ weight) i in
      let g := load m (dptr_ grad) i in
      SGDParam.lr disabled = SGDParam.lr param ->
      SGDParam.wd disabled = SGDParam.wd param ->
      SGDParam.rescale_grad disabled = SGDParam.rescale_grad param ->
      rge0 clip_gradient = true ->
      rge0 (static_cast (SGDParam.clip_gradient disabled) : DType) = false ->
      clip (rescale_grad * g)%num clip_gradient = (rescale_grad * g)%num ->
      (0 <= i < Size (shape_ weight))%Z ->
      load (SGDUpdate param [weight; grad] [req] [out] m) (dptr_ out) i =
      written req (load m (dptr_ out) i)
        ((rone - lr * wd) * w - lr * (rescale_grad * g))%num
      /\ load (SGDUpdate disabled [weight; grad] [req] [out] m) (dptr_ out) i
         = written req (load m (dptr_ out) i)
             ((rone - lr * wd) * w - (lr * rescale_grad) * g)%num)
  /\ (forall (param : SGDParam.t R) (disabled : R) (weight grad out : TBlob)
             (req : OpReqType) (m : mem R),
      (0 <= SGDParam.clip_gradient param)%R ->
      (disabled < 0)%R ->
      (forall i, (0 <= i < Size (shape_ weight))%Z ->
         (Rabs (SGDParam.rescale_grad param * load m (dptr_ grad) i)
          <= SGDParam.clip_gradient param)%R) ->
      forall p i,
        load (SGDUpdate param [weight; grad] [req] [out] m) p i =
        load
          (SGDUpdate
             (SGDParam.mk (SGDParam.lr param) (SGDParam.wd param)
                (SGDParam.rescale_grad param) disabled)
             [weight; grad] [req] [out] m) p i).
Proof.
  split.
  - intros DType float RD CFD param disabled weight grad out req m i
      lr wd rescale_grad clip_gradient w g Hlr Hwd Hrs Hc Hd Hclip Hi.
    rewrite !SGDUpdate_load, (in_range_true Hi), !SGDKernel_Map_load,
      Nat.eqb_refl.
    rewrite Hlr, Hwd, Hrs, Hd.
    fold lr wd rescale_grad clip_gradient w g. rewrite Hc, Hclip.
    split; reflexivity.
  - intros param disabled weight grad out req m Hc Hd Hbound p i.
    rewrite !SGDUpdate_load.
    destruct ((0 <=? i) && (i <? Size (shape_ weight)))%Z eqn:Hin;
      [|reflexivity].
    apply andb_true_iff in Hin as [Hlo Hhi].
    apply Z.leb_le in Hlo. apply Z.ltb_lt in Hhi.
    destruct (Nat.eq_dec p (dptr_ out)) as [->|Hne].
    + rewrite !SGDKernel_Map_rule.
      cbn [SGDParam.lr SGDParam.wd SGDParam.clip_gradient
             SGDParam.rescale_grad].
      unfold static_cast, R_StaticCast.
      rewrite effective_gradient_within by (apply Hbound; lia).
      rewrite effective_gradient_disabled by exact Hd. reflexivity.
    + rewrite !SGDKernel_Map_load.
      apply Nat.eqb_neq in Hne. rewrite Hne. reflexivity.
Qed.

(** C6, amended, on the scenario of C2 with the bound 1, in exact
    arithmetic. *)
Lemma SGD_clip_within_bound_up_to_association_witness :
  load
    (SGDUpdate (SGDParam.mk 0.1%R 0%R 1%R 1%R)
       [scenario_blob 0; scenario_blob 1] [kWriteTo] [scenario_blob 4]
       sgd_scenario_mem) 4%nat 0 =
  load
    (SGDUpdate (SGDParam.mk 0.1%R 0%R 1%R (-1)%R)
       [scenario_blob 0; scenario_blob 1] [kWriteTo] [scenario_blob 4]
       sgd_scenario_mem) 4%nat 0.
Proof.
  apply (proj2 SGD_clip_within_bound_up_to_association
           (SGDParam.mk 0.1%R 0%R 1%R 1%R) (-1)%R); simpl.
  - lra.
  - lra.
  - intros i Hi. assert (i = 0%Z) as -> by lia.
    unfold load, sgd_scenario_mem. simpl.
    unfold Rabs. destruct (Rcase_abs (1 * 0.5)); lra.
Defined.

(** *** The same on binary64 numbers *)

Section Binary64.

Import PrimFloat.

(** Modelled from the spec: clipping "element-wise to [[-clip_gradient,
    clip_gradient]]", which the parameter documentation in the source gives
    as [max(min(grad, clip_gradient), -clip_gradient)], on binary64
    numbers. *)
Definition binary64_clip (x bound : PrimFloat.float) : PrimFloat.float :=
  let lo := if PrimFloat.ltb bound x then bound else x in
  if PrimFloat.ltb lo (PrimFloat.opp bound) then PrimFloat.opp bound else lo.

(** The element type [double]: IEEE 754 binary64 arithmetic, rounding to
    nearest. *)
Definition binary64_RealType : RealType PrimFloat.float := {|
  rzero := 0%float;
  rone := 1%float;
  radd := PrimFloat.add;
  rsub := PrimFloat.sub;
  rmul := PrimFloat.mul;
  rdiv := PrimFloat.div;
  rge0 := fun x => PrimFloat.leb 0%float x;
  rnonzero := fun x => negb (PrimFloat.eqb x 0%float);
  clip := binary64_clip;
  square := fun x => PrimFloat.mul x x;
  square_root := PrimFloat.sqrt
|}.

(** Hyperparameters that [double] holds exactly are cast to themselves. *)
Definition binary64_StaticCast : StaticCast PrimFloat.float PrimFloat.float :=
  fun x => x.

(** [weight = [1.0]] in block 0 and [grad = [0.1]] in block 1, the
    binary64 number nearest to [0.1]. *)
Definition binary64_scenario_mem : mem PrimFloat.float :=
  fun p _ =>
    match p with
    | 0%nat => 1%float
    | 1%nat => 0x1.999999999999ap-4%float
    | _ => 0%float
    end.

(** [SGDUpdate] on [double] tensors of one cell, with [lr = 3], [wd = 0]
    and [rescale_grad = 3], writing to block 4. *)
Definition binary64_SGDUpdate (clip_gradient : PrimFloat.float) :
    PrimFloat.float :=
  load
    (@SGDUpdate PrimFloat.float PrimFloat.float binary64_RealType
       binary64_StaticCast
       (SGDParam.mk 3%float 0%float 3%float clip_gradient)
       [scenario_blob 0; scenario_blob 1] [kWriteTo] [scenario_blob 4]
       binary64_scenario_mem)
    4%nat 0%Z.

(** C6 fails on [double] tensors.  With [lr = 3], [rescale_grad = 3],
    [wd = 0], [weight = 1] and [grad = 0.1], the bound [1000] is far above
    [|rescale_grad * grad|], yet the output with that bound is not the
    output with clipping disabled: the clipped branch rounds
    [3 * (3 * 0.1)], the other [(3 * 3) * 0.1]. *)
Lemma SGD_clip_within_bound_rounds_differently :
  PrimFloat.leb 0%float 1000%float = true
  /\ PrimFloat.leb
       (PrimFloat.abs
          (PrimFloat.mul 3%float (load binary64_scenario_mem 1%nat 0%Z)))
       1000%float = true
  /\ binary64_SGDUpdate 1000%float = 0x1.9999999999990p-4%float
  /\ binary64_SGDUpdate (-1)%float = 0x1.9999999999998p-4%float
  /\ PrimFloat.eqb (binary64_SGDUpdate 1000%float)
       (binary64_SGDUpdate (-1)%float) = false.
Proof. repeat split; vm_compute; reflexivity. Qed.

End Binary64.

(** ** SGD with momentum *)

(** C4. SGD with momentum: in every cell the momentum buffer is updated in
    place to [mom' = momentum*mom - lr*wd*weight - lr*effective_gradient]
    (the weight decay is inside the momentum, the weight is not scaled), and
    the value written to the output is [weight + mom'].  This holds for the
    dense kernel, and for the kernel of a row-sparse gradient in every cell
    of every row the gradient lists. *)
Theorem SGDMom_update_rule :
  (forall (param : SGDMomParam.t R) (weight grad mom out : TBlob)
          (req : OpReqType) (m : mem R) (i : Z),
      let m' := SGDMomUpdate param [weight; grad; mom] [req] [out] m in
      let mom' :=
        (SGDMomParam.momentum param * load m (dptr_ mom) i
         - SGDMomParam.lr param * SGDMomParam.wd param
           * load m (dptr_ weight) i
         - SGDMomParam.lr param
           * effective_gradient (SGDMomParam.clip_gradient param)
               (SGDMomParam.rescale_grad param * load m (dptr_ grad) i))%R in
      dptr_ weight <> dptr_ mom -> dptr_ out <> dptr_ mom ->
      (0 <= i < Size (shape_ weight))%Z ->
      load m' (dptr_ mom) i = mom'
      /\ load m' (dptr_ out) i =
         written req (load m (dptr_ out) i)
           (load m (dptr_ weight) i + mom')%R)
  /\ (forall (req : OpReqType) (row_length : Z) (out mom weight : ptr)
             (grad_idx : Z -> Z) (grad : ptr)
             (clip_gradient momentum lr wd rescale_grad : R)
             (num_rows rows : Z) (m : mem R) (i j : Z),
      let data_i := (grad_idx i * row_length + j)%Z in
      let m' :=
        Launch num_rows
          (fun i =>
             SGDMomDnsRspDnsKernel_Map req i row_length out mom weight
               grad_idx grad clip_gradient momentum lr wd rescale_grad)
          m in
      let mom' :=
        (momentum * load m mom data_i - lr * wd * load m weight data_i
         - lr
           * effective_gradient clip_gradient
               (rescale_grad * load m grad (i * row_length + j)))%R in
      weight <> mom -> out <> mom -> grad <> mom -> grad <> out ->
      (rows * row_length <= 2 ^ 32)%Z -> (num_rows <= rows)%Z ->
      (forall k, (0 <= k < num_rows)%Z -> (0 <= grad_idx k < rows)%Z) ->
      (forall k k', (0 <= k < k')%Z -> (k' < num_rows)%Z ->
         (grad_idx k < grad_idx k')%Z) ->
      (0 <= i < num_rows)%Z -> (0 <= j < row_length)%Z ->
      load m' mom data_i = mom'
      /\ load m' out data_i =
         written req (load m out data_i) (load m weight data_i + mom')%R).
Proof.
  split.
  - intros param weight grad mom out req m i m' mom' Hw Ho Hi.
    subst m' mom'. rewrite !SGDMomUpdate_load, (in_range_true Hi).
    rewrite SGDMomKernel_Map_mom, SGDMomKernel_Map_out by auto.
    rewrite SGDMom_new_mom_rule. unfold static_cast, R_StaticCast.
    split; reflexivity.
  - intros req L out mom w idx g c mo lr wd rs num_rows rows m i j
      data_i m' mom' Hw Ho Hgm Hgo Hb Hrows Hidx Hinc Hi Hj.
    assert (Hinj : forall k k', (0 <= k < num_rows)%Z ->
              (0 <= k' < num_rows)%Z -> idx k = idx k' -> k = k').
    { intros k k' Hk Hk' Heq.
      destruct (Z.lt_trichotomy k k') as [Hlt|[Heq'|Hgt]]; [|exact Heq'|].
      - specialize (Hinc k k'). lia.
      - specialize (Hinc k' k). lia. }
    pose proof (@SGDMomDnsRspDns_Launch_cell R _ req L out mom w idx g c mo
                  lr wd rs num_rows rows m i j Hgm Hgo Hb Hidx Hinj Hi Hj)
      as Hcell.
    destruct (@SGDMomDnsRspDns_column_rule req L out mom w idx g c mo lr wd
                rs i j m Hw Ho) as [Hmom Hout].
    + apply index_t_small. eapply row_cell_bound; eauto.
    + apply index_t_small.
      apply (@row_cell_bound L rows i j); auto; lia.
    + subst m' mom' data_i. rewrite !Hcell. split; assumption.
Qed.

(** [weight = [1.0]], [grad = [0.5]], [mom = [0.25]] *)
Definition sgd_mom_scenario_mem : mem R :=
  fun p _ =>
    match p with
    | 0%nat => 1%R
    | 1%nat => 0.5%R
    | 2%nat => 0.25%R
    | _ => 0%R
    end.

(** The dense rule of C4 on one cell, in place ([out] is [weight]): the
    momentum becomes [0.9*0.25 - 0.1*0.5 = 0.175]. *)
Lemma SGDMom_update_rule_witness :
  load
    (SGDMomUpdate (SGDMomParam.mk 0.1%R 0.9%R 0%R 1%R (-1)%R)
       [scenario_blob 0; scenario_blob 1; scenario_blob 2] [kWriteInplace]
       [scenario_blob 0] sgd_mom_scenario_mem)
    2%nat 0 = 0.175%R.
Proof.
  destruct (proj1 SGDMom_update_rule
              (SGDMomParam.mk 0.1%R 0.9%R 0%R 1%R (-1)%R)
              (scenario_blob 0) (scenario_blob 1) (scenario_blob 2)
              (scenario_blob 0) kWriteInplace sgd_mom_scenario_mem 0%Z)
    as [Hmom _].
  - simpl. discriminate.
  - simpl. discriminate.
  - simpl. lia.
  - simpl in Hmom. rewrite Hmom.
    rewrite effective_gradient_disabled by lra.
    unfold load, sgd_mom_scenario_mem. lra.
Defined.

(** ** Adam *)

(** [weight = [0.0]], [grad = [1.0]], [mean = [0.0]], [var = [0.0]] *)
Definition adam_scenario_mem : mem R :=
  fun p _ =>
    match p with
    | 1%nat => 1%R
    | _ => 0%R
    end.

(** [lr = 0.001], [beta1 = 0.9], [beta2 = 0.999], [epsilon = 1e-8],
    [wd = 0], [rescale_grad = 1], and the default [clip_gradient = -1] *)
Definition adam_scenario_param : AdamParam.t R :=
  AdamParam.mk 0.001%R 0.9%R 0.999%R 1e-8%R 0%R 1%R (-1)%R.

Lemma sqrt_thousandth : (0.031622 < sqrt 0.001 < 0.031623)%R.
Proof.
  split.
  - rewrite <- (sqrt_square 0.031622) by lra.
    apply sqrt_lt_1_alt. lra.
  - rewrite <- (sqrt_square 0.031623) by lra.
    apply sqrt_lt_1_alt. lra.
Qed.

(** C3. Adam, with [grad' = rescale_grad*grad + wd*weight] clipped when
    [clip_gradient >= 0]: in every cell the state becomes
    [mean' = beta1*mean + (1-beta1)*grad'] and
    [var' = beta2*var + (1-beta2)*grad'^2], and the value written to the
    output is [weight - lr*mean'/(sqrt(var') + epsilon)], with no
    bias-correction term.  This holds for the dense entry point, and for
    the kernel of a row-sparse gradient in every cell of every row the
    gradient lists.  On the scenario [weight = [0.0]], [grad = [1.0]],
    [mean = var = [0.0]]: [mean' = 0.1], [var' = 0.001] and the output is
    [-0.003162] to six decimal places. *)
Theorem Adam_update_rule :
  (forall (param : AdamParam.t R) (weight grad mean var out : TBlob)
          (req : OpReqType) (m : mem R) (i : Z),
      let m' := AdamUpdate param [weight; grad; mean; var] [req] [out] m in
      let grad' :=
        effective_gradient (AdamParam.clip_gradient param)
          (AdamParam.rescale_grad param * load m (dptr_ grad) i
           + AdamParam.wd param * load m (dptr_ weight) i)%R in
      let mean' :=
        (AdamParam.beta1 param * load m (dptr_ mean) i
         + (1 - AdamParam.beta1 param) * grad')%R in
      let var' :=
        (AdamParam.beta2 param * load m (dptr_ var) i
         + (1 - AdamParam.beta2 param) * grad' ^ 2)%R in
      NoDup [dptr_ weight; dptr_ grad; dptr_ mean; dptr_ var] ->
      ~ In (dptr_ out) [dptr_ grad; dptr_ mean; dptr_ var] ->
      Size (shape_ grad) = Size (shape_ weight) ->
      Size (shape_ mean) = Size (shape_ weight) ->
      Size (shape_ var) = Size (shape_ weight) ->
      Size (shape_ out) = Size (shape_ weight) ->
      (0 <= i < Size (shape_ weight))%Z ->
      load m' (dptr_ mean) i = mean'
      /\ load m' (dptr_ var) i = var'
      /\ load m' (dptr_ out) i =
         written req (load m (dptr_ out) i)
           (load m (dptr_ weight) i
            - AdamParam.lr param * mean'
              / (sqrt var' + AdamParam.epsilon param))%R)
  /\ (forall (req : OpReqType) (row_length : Z)
             (out mean var weight : ptr) (grad_idx : Z -> Z) (grad : ptr)
             (clip_gradient beta1 beta2 lr wd epsilon rescale_grad : R)
             (num_rows : Z) (m : mem R) (i j : Z),
      let data_i := (grad_idx i * row_length + j)%Z in
      let m' :=
        Launch num_rows
          (fun i =>
             AdamDnsRspDnsKernel_Map req i row_length out mean var weight
               grad_idx grad clip_gradient beta1 beta2 lr wd epsilon
               rescale_grad)
          m in
      let grad' :=
        effective_gradient clip_gradient
          (rescale_grad * load m grad (i * row_length + j)
           + wd * load m weight data_i)%R in
      let mean' := (beta1 * load m mean data_i + (1 - beta1) * grad')%R in
      let var' := (beta2 * load m var data_i + (1 - beta2) * grad' ^ 2)%R in
      NoDup [weight; grad; mean; var] ->
      ~ In out [grad; mean; var] ->
      (forall k k', (0 <= k < k')%Z -> (k' < num_rows)%Z ->
         (grad_idx k < grad_idx k')%Z) ->
      (0 <= i < num_rows)%Z -> (0 <= j < row_length)%Z ->
      load m' mean data_i = mean'
      /\ load m' var data_i = var'
      /\ load m' out data_i =
         written req (load m out data_i)
           (load m weight data_i - lr * mean' / (sqrt var' + epsilon))%R)
  /\ (let m' :=
        AdamUpdate adam_scenario_param
          [scenario_blob 0; scenario_blob 1; scenario_blob 2;
           scenario_blob 3]
          [kWriteTo] [scenario_blob 4] adam_scenario_mem in
      load m' 2%nat 0 = 0.1%R
      /\ load m' 3%nat 0 = 0.001%R
      /\ (Rabs (load m' 4%nat 0 - (-0.003162)) < 0.0000005)%R).
Proof.
  assert (Hdense :
    forall (param : AdamParam.t R) (weight grad mean var out : TBlob)
           (req : OpReqType) (m : mem R) (i : Z),
      let m' := AdamUpdate param [weight; grad; mean; var] [req] [out] m in
      let grad' :=
        effective_gradient (AdamParam.clip_gradient param)
          (AdamParam.rescale_grad param * load m (dptr_ grad) i
           + AdamParam.wd param * load m (dptr_ weight) i)%R in
      let mean' :=
        (AdamParam.beta1 param * load m (dptr_ mean) i
         + (1 - AdamParam.beta1 param) * grad')%R in
      let var' :=
        (AdamParam.beta2 param * load m (dptr_ var) i
         + (1 - AdamParam.beta2 param) * grad' ^ 2)%R in
      NoDup [dptr_ weight; dptr_ grad; dptr_ mean; dptr_ var] ->
      ~ In (dptr_ out) [dptr_ grad; dptr_ mean; dptr_ var] ->
      Size (shape_ grad) = Size (shape_ weight) ->
      Size (shape_ mean) = Size (shape_ weight) ->
      Size (shape_ var) = Size (shape_ weight) ->
      Size (shape_ out) = Size (shape_ weight) ->
      (0 <= i < Size (shape_ weight))%Z ->
      load m' (dptr_ mean) i = mean'
      /\ load m' (dptr_ var) i = var'
      /\ load m' (dptr_ out) i =
         written req (load m (dptr_ out) i)
           (load m (dptr_ weight) i
            - AdamParam.lr param * mean'
              / (sqrt var' + AdamParam.epsilon param))%R).
  { intros param weight grad mean var out req m i m' grad' mean' var'
      Hnd Hout Sg Sm Sv So Hi.
    apply NoDup_cons_iff in Hnd as [Hw Hnd].
    apply NoDup_cons_iff in Hnd as [Hg Hnd].
    apply NoDup_cons_iff in Hnd as [Hm _].
    simpl in Hw, Hg, Hm, Hout.
    apply AdamUpdate_cell; auto; intros Heq; rewrite Heq in *; tauto. }
  split; [exact Hdense|]. split.
  - intros req L out mean var w idx g c b1 b2 lr wd eps rs num_rows m i j
      data_i m' grad' mean' var' Hnd Hout Hinc Hi Hj.
    apply NoDup_cons_iff in Hnd as [Hw Hnd].
    apply NoDup_cons_iff in Hnd as [Hg Hnd].
    apply NoDup_cons_iff in Hnd as [Hm _].
    simpl in Hw, Hg, Hm, Hout.
    assert (Hinj : forall k k', (0 <= k < num_rows)%Z ->
              (0 <= k' < num_rows)%Z -> idx k = idx k' -> k = k').
    { intros k k' Hk Hk' Heq.
      destruct (Z.lt_trichotomy k k') as [Hlt|[Heq'|Hgt]]; [|exact Heq'|].
      - specialize (Hinc k k'). lia.
      - specialize (Hinc k' k). lia. }
    assert (Hcell :
      agree_at data_i m'
        (AdamDnsRspDns_column req L out mean var w idx g c b1 b2 lr wd eps
           rs i j m)).
    { apply AdamDnsRspDns_Launch_cell; auto; intros Heq; rewrite Heq in *;
        tauto. }
    destruct (@AdamDnsRspDns_column_rule req L out mean var w idx g c b1 b2
                lr wd eps rs i j m) as [Hmean [Hvar Hwt]];
      try (intros Heq; rewrite Heq in *; tauto).
    rewrite !Hcell. repeat split; assumption.
  - cbv zeta.
    destruct (Hdense adam_scenario_param (scenario_blob 0) (scenario_blob 1)
                (scenario_blob 2) (scenario_blob 3) (scenario_blob 4)
                kWriteTo adam_scenario_mem 0%Z)
      as [Hmean [Hvar Hout]]; try reflexivity.
    + simpl. repeat constructor; simpl; intuition discriminate.
    + simpl. intuition discriminate.
    + simpl. lia.
    + cbn [dptr_ scenario_blob] in Hmean, Hvar, Hout.
      rewrite Hmean, Hvar, Hout.
      cbn [written adam_scenario_param AdamParam.lr AdamParam.beta1
             AdamParam.beta2 AdamParam.epsilon AdamParam.wd
             AdamParam.rescale_grad AdamParam.clip_gradient].
      rewrite effective_gradient_disabled by lra.
      unfold load, adam_scenario_mem.
      assert (Hm : (0.9 * 0 + (1 - 0.9) * (1 * 1 + 0 * 0) = 0.1)%R) by lra.
      assert (Hv : (0.999 * 0 + (1 - 0.999) * (1 * 1 + 0 * 0) ^ 2
                    = 0.001)%R) by lra.
      rewrite Hm, Hv. repeat split.
      pose proof sqrt_thousandth as [Hlo Hhi].
      set (s := (sqrt 0.001 + 1e-8)%R) in *.
      assert (Hs : (0.031622 < s < 0.0316231)%R) by (unfold s; lra).
      assert (Hq : (0.001 * 0.1 / s * s = 0.0001)%R)
        by (unfold Rdiv; rewrite Rmult_assoc, Rinv_l by lra; lra).
      set (q := (0.001 * 0.1 / s)%R) in *.
      unfold Rabs. destruct (Rcase_abs (0 - q - -0.003162)); nra.
Qed.

(** The dense rule of C3 in the cell of the scenario. *)
Lemma Adam_update_rule_witness :
  load
    (AdamUpdate adam_scenario_param
       [scenario_blob 0; scenario_blob 1; scenario_blob 2; scenario_blob 3]
       [kWriteTo] [scenario_blob 4] adam_scenario_mem)
    2%nat 0 = 0.1%R.
Proof.
  destruct (proj1 Adam_update_rule adam_scenario_param (scenario_blob 0)
              (scenario_blob 1) (scenario_blob 2) (scenario_blob 3)
              (scenario_blob 4) kWriteTo adam_scenario_mem 0%Z)
    as [Hmean _]; try reflexivity.
  - simpl. repeat constructor; simpl; intuition discriminate.
  - simpl. intuition discriminate.
  - simpl. lia.
  - cbn [dptr_ scenario_blob] in Hmean. rewrite Hmean.
    cbn [adam_scenario_param AdamParam.beta1 AdamParam.wd
           AdamParam.rescale_grad AdamParam.clip_gradient].
    rewrite effective_gradient_disabled by lra.
    unfold load, adam_scenario_mem. lra.
Defined.

(** ** Lazy update *)

(** C1. Lazy update.  For the kernels of a row-sparse gradient (SGD, SGD
    with momentum, Adam), a row whose index the gradient does not list is
    left unchanged by the launch, in every block: weight, output, momentum,
    mean and variance.  For the kernels of a row-sparse weight and a dense
    gradient (SGD, SGD with momentum), a row whose dense-gradient row holds
    no non-zero entry is left unchanged in every block, so no weight decay
    reaches it.  [rows] is the number of rows of the dense tensor, which
    [index_t] can address. *)
Theorem lazy_update_untouched_rows (T : Type) (RT : RealType T) :
  (forall (req : OpReqType) (row_length : Z) (out weight : ptr)
          (grad_idx : Z -> Z) (grad_val : ptr)
          (clip_gradient lr wd rescale_grad : T) (num_rows rows r : Z)
          (m : mem T),
      (rows * row_length <= 2 ^ 32)%Z -> (0 <= r < rows)%Z ->
      (forall i, (0 <= i < num_rows)%Z ->
         (0 <= grad_idx i < rows)%Z /\ grad_idx i <> r) ->
      row_unchanged m
        (Launch num_rows
           (fun i =>
              SGDDnsRspKernel_Map req i row_length out weight grad_idx
                grad_val clip_gradient lr wd rescale_grad) m)
        row_length r)
  /\ (forall (req : OpReqType) (row_length : Z) (out mom weight : ptr)
             (grad_idx : Z -> Z) (grad : ptr)
             (clip_gradient momentum lr wd rescale_grad : T)
             (num_rows rows r : Z) (m : mem T),
      (rows * row_length <= 2 ^ 32)%Z -> (0 <= r < rows)%Z ->
      (forall i, (0 <= i < num_rows)%Z ->
         (0 <= grad_idx i < rows)%Z /\ grad_idx i <> r) ->
      row_unchanged m
        (Launch num_rows
           (fun i =>
              SGDMomDnsRspDnsKernel_Map req i row_length out mom weight
                grad_idx grad clip_gradient momentum lr wd rescale_grad) m)
        row_length r)
  /\ (forall (req : OpReqType) (row_length : Z)
             (out mean var weight : ptr) (grad_idx : Z -> Z) (grad : ptr)
             (clip_gradient beta1 beta2 lr wd epsilon rescale_grad : T)
             (num_rows r : Z) (m : mem T),
      (forall i, (0 <= i < num_rows)%Z -> grad_idx i <> r) ->
      row_unchanged m
        (Launch num_rows
           (fun i =>
              AdamDnsRspDnsKernel_Map req i row_length out mean var weight
                grad_idx grad clip_gradient beta1 beta2 lr wd epsilon
                rescale_grad) m)
        row_length r)
  /\ (forall (req : OpReqType) (num_cols : Z) (out weight grad : ptr)
             (clip_gradient lr wd rescale_grad : T) (num_rows r : Z)
             (m : mem T),
      (num_rows * num_cols <= 2 ^ 32)%Z -> (0 <= r < num_rows)%Z ->
      (forall j, (0 <= j < num_cols)%Z ->
         rnonzero (load m grad (r * num_cols + j)) = false) ->
      row_unchanged m
        (Launch num_rows
           (fun i =>
              SGDRspDnsKernel_Map req i num_cols out weight grad
                clip_gradient lr wd rescale_grad) m)
        num_cols r)
  /\ (forall (req : OpReqType) (num_cols : Z) (out mom weight grad : ptr)
             (clip_gradient momentum lr wd rescale_grad : T)
             (num_rows r : Z) (m : mem T),
      (num_rows * num_cols <= 2 ^ 32)%Z -> (0 <= r < num_rows)%Z ->
      (forall j, (0 <= j < num_cols)%Z ->
         rnonzero (load m grad (r * num_cols + j)) = false) ->
      row_unchanged m
        (Launch num_rows
           (fun i =>
              SGDMomRspDnsKernel_Map req i num_cols out mom weight grad
                clip_gradient momentum lr wd rescale_grad) m)
        num_cols r).
Proof.
  repeat split; intros.
  - now apply SGDDnsRsp_unlisted_row with (rows := rows).
  - now apply SGDMomDnsRspDns_unlisted_row with (rows := rows).
  - now apply AdamDnsRspDns_unlisted_row.
  - now apply SGDRspDns_zero_row.
  - now apply SGDMomRspDns_zero_row.
Qed.

(** A weight of two rows of two cells, all [1.0] (block 0), and a gradient
    (block 1) whose only row is [[0.5, 0.5]]. *)
Definition lazy_scenario_mem : mem R :=
  fun p _ =>
    match p with
    | 0%nat => 1%R
    | 1%nat => 0.5%R
    | _ => 0%R
    end.

(** C1 for SGD in place, with weight decay, when the gradient lists row 0
    only: row 1 of the weight is unchanged. *)
Lemma lazy_update_untouched_rows_witness :
  row_unchanged lazy_scenario_mem
    (Launch 1
       (fun i =>
          SGDDnsRspKernel_Map kWriteTo i 2 0%nat 0%nat (fun k => k) 1%nat
            (-1)%R 0.1%R 0.5%R 1%R) lazy_scenario_mem)
    2 1.
Proof.
  apply (proj1 (lazy_update_untouched_rows R_RealType)) with (rows := 2%Z).
  - simpl. lia.
  - lia.
  - intros i Hi. lia.
Defined.

(** ** Drivers of a row-sparse gradient *)

Lemma OpReqType_eqb_eq a b : OpReqType_eqb a b = true <-> a = b.
Proof. destruct a, b; simpl; split; congruence. Qed.

Lemma NDArrayStorageType_eqb_eq a b :
  NDArrayStorageType_eqb a b = true <-> a = b.
Proof. destruct a, b; simpl; split; congruence. Qed.

(** C7. The drivers of a row-sparse gradient (SGD, SGD with momentum,
    Adam).  When the gradient is uninitialized or the write mode is skip,
    the call returns normally and leaves the whole state, outputs included,
    as it was.  Otherwise a write mode other than in-place is fatal, and the
    state is as it was: no partial output. *)
Theorem sparse_gradient_driver_preconditions
    (DType float : Type) (RD : RealType DType) (RF : RealType float)
    (CDF : StaticCast DType float) (CFD : StaticCast float DType) :
  (forall (param : SGDParam.t float) (weight : TBlob) (grad : NDArray)
          (req : OpReqType) (out : TBlob) (st : State DType),
      storage_type st grad = kRowSparseStorage ->
      (storage_initialized st grad = false \/ req = kNullOp ->
       SGDUpdateDnsRspImpl param weight grad req out st = Done st)
      /\ (storage_initialized st grad = true ->
          req <> kNullOp -> req <> kWriteInplace ->
          exists msg,
            SGDUpdateDnsRspImpl param weight grad req out st = Fatal msg st))
  /\ (forall (param : SGDMomParam.t float) (weight : TBlob) (grad : NDArray)
             (mom : TBlob) (req : OpReqType) (out : TBlob)
             (st : State DType),
      (storage_initialized st grad = false \/ req = kNullOp ->
       SGDMomUpdateDnsRspDnsImpl param weight grad mom req out st = Done st)
      /\ (storage_initialized st grad = true ->
          req <> kNullOp -> req <> kWriteInplace ->
          exists msg,
            SGDMomUpdateDnsRspDnsImpl param weight grad mom req out st =
            Fatal msg st))
  /\ (forall (param : AdamParam.t float) (weight : TBlob) (grad : NDArray)
             (mean var : TBlob) (req : OpReqType) (out : TBlob)
             (st : State DType),
      (storage_initialized st grad = false \/ req = kNullOp ->
       AdamUpdateDnsRspDnsImpl param weight grad mean var req out st =
       Done st)
      /\ (storage_initialized st grad = true ->
          req <> kNullOp -> req <> kWriteInplace ->
          exists msg,
            AdamUpdateDnsRspDnsImpl param weight grad mean var req out st =
            Fatal msg st)).
Proof.
  repeat split.
  - intros [Hinit | ->]; unfold SGDUpdateDnsRspImpl; rewrite H;
      cbn [NDArrayStorageType_eqb negb].
    + rewrite Hinit. reflexivity.
    + destruct (storage_initialized st grad); reflexivity.
  - intros Hinit Hnull Hinpl. unfold SGDUpdateDnsRspImpl. rewrite H, Hinit.
    cbn [NDArrayStorageType_eqb negb orb].
    destruct req; try contradiction; simpl; eauto.
  - intros [Hinit | ->]; unfold SGDMomUpdateDnsRspDnsImpl.
    + rewrite Hinit. reflexivity.
    + destruct (storage_initialized st grad); reflexivity.
  - intros Hinit Hnull Hinpl. unfold SGDMomUpdateDnsRspDnsImpl.
    rewrite Hinit. destruct req; try contradiction; simpl; eauto.
  - intros [Hinit | ->]; unfold AdamUpdateDnsRspDnsImpl.
    + rewrite Hinit. reflexivity.
    + destruct (storage_initialized st grad); reflexivity.
  - intros Hinit Hnull Hinpl. unfold AdamUpdateDnsRspDnsImpl.
    rewrite Hinit. destruct req; try contradiction; simpl; eauto.
Qed.

(** A state whose arrays are all row-sparse with [rows] rows of indices. *)
Definition rsp_state (rows : Z) : State R :=
  {| heap := fun _ _ => 1%R;
     arrays := fun _ =>
       {| chunk_stype := kRowSparseStorage;
          chunk_shape := [2%Z; 2%Z];
          chunk_data := {| dptr_ := 1%nat; shape_ := [rows; 2%Z] |};
          chunk_idx := fun k => k;
          chunk_idx_rows := rows |} |}.

(** C7 for SGD: an uninitialized gradient is a no-op, whatever the write
    mode. *)
Lemma sparse_gradient_driver_preconditions_witness :
  SGDUpdateDnsRspImpl (SGDParam.mk 0.1%R 0.5%R 1%R (-1)%R)
    {| dptr_ := 0%nat; shape_ := [2%Z; 2%Z] |} 0%nat kAddTo
    {| dptr_ := 0%nat; shape_ := [2%Z; 2%Z] |} (rsp_state 0)
  = Done (rsp_state 0).
Proof.
  apply (proj1 (sparse_gradient_driver_preconditions R_RealType R_RealType
                  R_StaticCast R_StaticCast)).
  - reflexivity.
  - left. reflexivity.
Defined.

(** ** Dispatch *)

(** A state in which the arrays 0 and 1 are dense and every other array is
    row-sparse. *)
Definition mixed_state : State R :=
  {| heap := fun _ _ => 1%R;
     arrays := fun nd =>
       {| chunk_stype :=
            match nd with
            | 0%nat | 1%nat => kDefaultStorage
            | _ => kRowSparseStorage
            end;
          chunk_shape := [2%Z; 2%Z];
          chunk_data := {| dptr_ := nd; shape_ := [2%Z; 2%Z] |};
          chunk_idx := fun k => k;
          chunk_idx_rows := 2%Z |} |}.

(** A densify-and-fallback collaborator that never fails. *)
Definition fallback_done
    (fcompute :
       list TBlob -> list OpReqType -> list TBlob -> mem R -> mem R)
    (fname : string) (inputs : list NDArray) (req : list OpReqType)
    (outputs : list NDArray) (mutate_idx : list nat) (st : State R) :
    outcome R :=
  Done st.

(** C8 fails for SGD with momentum: with a dense weight, a dense gradient
    and a row-sparse momentum, a combination outside the two supported
    ones, the entry point does not delegate to the fallback collaborator
    (which would return normally here); it fails on the inconsistent storage
    kinds of momentum and weight. *)
Lemma SGDMomUpdateEx_mismatch_is_fatal :
  let call :=
    SGDMomUpdateEx (fun st _ => st) (fun _ _ => true) fallback_done
      (SGDMomParam.mk 0.1%R 0.9%R 0%R 1%R (-1)%R)
      [0%nat; 1%nat; 2%nat] [kWriteInplace] [0%nat] mixed_state in
  call =
  Fatal
    "Inconsistent storage type detected between mom.stype and weight.stype"
    mixed_state
  /\ call <>
     fallback_done
       (SGDMomUpdate (SGDMomParam.mk 0.1%R 0.9%R 0%R 1%R (-1)%R))
       "SGDMomUpdate" [0%nat; 1%nat; 2%nat] [kWriteInplace] [0%nat]
       [2%nat] mixed_state.
Proof.
  cbv zeta. split; [reflexivity|]. unfold fallback_done. discriminate.
Qed.

(** C8, amended.  Adam's entry point fails fatally on every combination of
    storage kinds other than weight, gradient, mean, variance and output
    all row-sparse, and it has no fallback collaborator at all.  The error
    is the inconsistent-storage error of the mean when the mean differs in
    kind from the weight, else that of the variance when the variance
    does, else the unexpected-storage error.  The SGD entry
    point hands every combination other than a row-sparse weight with a
    row-sparse or dense gradient to the fallback collaborator.  The
    SGD-with-momentum entry point fails fatally, with the
    inconsistent-storage error of the momentum, when the momentum differs
    in kind from the weight; when they agree, it hands every combination
    other than a row-sparse weight and momentum with a row-sparse or dense
    gradient to the fallback collaborator. *)
Theorem dispatch_of_unsupported_storage
    (DType float : Type) (RD : RealType DType) (RF : RealType float)
    (CDF : StaticCast DType float) (CFD : StaticCast float DType)
    (FillDnsZerosRspImpl : State DType -> NDArray -> State DType)
    (rsp_all_rows_non_zero : State DType -> NDArray -> bool)
    (FCompExFallback :
       (list TBlob -> list OpReqType -> list TBlob -> mem DType ->
        mem DType) ->
       string -> list NDArray -> list OpReqType -> list NDArray ->
       list nat -> State DType -> outcome DType) :
  (forall (param : AdamParam.t float) (weight grad mean var out : NDArray)
          (req : list OpReqType) (st : State DType),
      let call :=
        AdamUpdateEx FillDnsZerosRspImpl rsp_all_rows_non_zero param
          [weight; grad; mean; var] req [out] st in
      ~ (storage_type st weight = kRowSparseStorage
         /\ storage_type st grad = kRowSparseStorage
         /\ storage_type st mean = kRowSparseStorage
         /\ storage_type st var = kRowSparseStorage
         /\ storage_type st out = kRowSparseStorage) ->
      (exists msg, call = Fatal msg st)
      /\ (storage_type st mean <> storage_type st weight ->
          call =
          Fatal
            "Inconsistent storage type detected between mean.stype and weight.stype"
            st)
      /\ (storage_type st mean = storage_type st weight ->
          storage_type st var <> storage_type st weight ->
          call =
          Fatal
            "Inconsistent storage type detected between var.stype and weight.stype"
            st)
      /\ (storage_type st mean = storage_type st weight ->
          storage_type st var = storage_type st weight ->
          call = Fatal "Unexpected storage types" st))
  /\ (forall (param : SGDParam.t float) (weight grad out : NDArray)
             (req : list OpReqType) (st : State DType),
      ~ (storage_type st weight = kRowSparseStorage
         /\ (storage_type st grad = kRowSparseStorage
             \/ storage_type st grad = kDefaultStorage)) ->
      SGDUpdateEx rsp_all_rows_non_zero FCompExFallback param
        [weight; grad] req [out] st =
      FCompExFallback (SGDUpdate param) "SGDUpdate"%string [weight; grad]
        req [out] [] st)
  /\ (forall (param : SGDMomParam.t float) (weight grad mom out : NDArray)
             (req : list OpReqType) (st : State DType),
      (storage_type st mom <> storage_type st weight ->
       SGDMomUpdateEx FillDnsZerosRspImpl rsp_all_rows_non_zero
         FCompExFallback param [weight; grad; mom] req [out] st =
       Fatal
         "Inconsistent storage type detected between mom.stype and weight.stype"
         st)
      /\ (storage_type st mom = storage_type st weight ->
          ~ (storage_type st weight = kRowSparseStorage
             /\ (storage_type st grad = kRowSparseStorage
                 \/ storage_type st grad = kDefaultStorage)) ->
          SGDMomUpdateEx FillDnsZerosRspImpl rsp_all_rows_non_zero
            FCompExFallback param [weight; grad; mom] req [out] st =
          FCompExFallback (SGDMomUpdate param) "SGDMomUpdate"%string
            [weight; grad; mom] req [out] [2%nat] st)).
Proof.
  split; [|split].
  - intros param weight grad mean var out req st call Hnot. subst call.
    unfold AdamUpdateEx. cbn [nth].
    destruct (storage_type st weight), (storage_type st grad),
      (storage_type st mean), (storage_type st var),
      (storage_type st out); simpl;
      try (exfalso; apply Hnot; repeat split; reflexivity);
      (split; [eauto|]); repeat split; intros;
      try reflexivity; try congruence; try contradiction.
  - intros param weight grad out req st Hnot.
    unfold SGDUpdateEx. cbn [nth].
    destruct (storage_type st weight), (storage_type st grad); simpl;
      try reflexivity; exfalso; apply Hnot; auto.
  - intros param weight grad mom out req st. split.
    + intros Hne. unfold SGDMomUpdateEx. cbn [nth].
      destruct (storage_type st weight), (storage_type st mom); simpl;
        eauto; contradiction.
    + intros Heq Hnot. unfold SGDMomUpdateEx. cbn [nth]. rewrite Heq.
      destruct (storage_type st weight), (storage_type st grad); simpl;
        try reflexivity; exfalso; apply Hnot; auto.
Qed.

(** C8, amended, for SGD with momentum on all-dense inputs: the call is
    the fallback's. *)
Lemma dispatch_of_unsupported_storage_witness :
  SGDMomUpdateEx (fun st _ => st) (fun _ _ => true) fallback_done
    (SGDMomParam.mk 0.1%R 0.9%R 0%R 1%R (-1)%R)
    [0%nat; 1%nat; 1%nat] [kWriteInplace] [0%nat] mixed_state =
  fallback_done (SGDMomUpdate (SGDMomParam.mk 0.1%R 0.9%R 0%R 1%R (-1)%R))
    "SGDMomUpdate" [0%nat; 1%nat; 1%nat] [kWriteInplace] [0%nat] [2%nat]
    mixed_state.
Proof.
  apply (proj2 (proj2 (dispatch_of_unsupported_storage R_RealType R_RealType
                         R_StaticCast R_StaticCast (fun st _ => st)
                         (fun _ _ => true) fallback_done))).
  - reflexivity.
  - simpl. intros [Hw _]. discriminate.
Defined.

(** ** The gradient buffer *)

(** C9 fails on the scenario of Adam, whose [rescale_grad = 1] and [wd = 0]
    are the defaults of the hyperparameters: after the call the gradient
    buffer holds the value it held before. *)
Lemma AdamUpdate_can_retain_gradient :
  load
    (AdamUpdate adam_scenario_param
       [scenario_blob 0; scenario_blob 1; scenario_blob 2; scenario_blob 3]
       [kWriteTo] [scenario_blob 4] adam_scenario_mem)
    1%nat 0 =
  load adam_scenario_mem 1%nat 0.
Proof.
  change 1%nat with (dptr_ (scenario_blob 1)).
  rewrite AdamUpdate_grad; try (simpl; discriminate); [|simpl; lia].
  cbn [adam_scenario_param AdamParam.rescale_grad AdamParam.wd].
  unfold scalar, static_cast, R_StaticCast.
  cbn [radd rmul R_RealType]. unfold load, adam_scenario_mem. simpl. lra.
Qed.

(** C9, amended.  The dense entry points of Adam and of both RMSProp rules
    assign the gradient tensor in place, before the state and the output
    are computed: after the call every cell of it holds
    [rescale_grad*grad + wd*weight] (its value before the call only where
    the two coincide, as they do for [rescale_grad = 1] and [wd = 0]).  The
    dense SGD and SGD-with-momentum entry points leave the gradient tensor
    as it was. *)
Theorem gradient_buffer_after_dense_update
    (DType float : Type) (RD : RealType DType) (RF : RealType float)
    (CDF : StaticCast DType float) (CFD : StaticCast float DType) :
  (forall (param : AdamParam.t float) (weight grad mean var out : TBlob)
          (req : OpReqType) (m : mem DType) (i : Z),
      ~ In (dptr_ grad) [dptr_ mean; dptr_ var; dptr_ out] ->
      (0 <= i < Size (shape_ grad))%Z ->
      load (AdamUpdate param [weight; grad; mean; var] [req] [out] m)
        (dptr_ grad) i =
      (scalar (AdamParam.rescale_grad param) * load m (dptr_ grad) i
       + scalar (AdamParam.wd param) * load m (dptr_ weight) i)%num)
  /\ (forall (param : RMSPropAlexParam.t float)
             (weight grad state_n state_g delta out : TBlob)
             (req : OpReqType) (m : mem DType) (i : Z),
      ~ In (dptr_ grad)
          [dptr_ state_n; dptr_ state_g; dptr_ delta; dptr_ out] ->
      (0 <= i < Size (shape_ grad))%Z ->
      load
        (RMSPropAlexUpdate param [weight; grad; state_n; state_g; delta]
           [req] [out] m)
        (dptr_ grad) i =
      (scalar (RMSPropAlexParam.rescale_grad param) * load m (dptr_ grad) i
       + scalar (RMSPropAlexParam.wd param) * load m (dptr_ weight) i)%num)
  /\ (forall (param : RMSPropParam.t float) (weight grad state_n out : TBlob)
             (req : OpReqType) (m : mem DType) (i : Z),
      ~ In (dptr_ grad) [dptr_ state_n; dptr_ out] ->
      (0 <= i < Size (shape_ grad))%Z ->
      load (RMSPropUpdate param [weight; grad; state_n] [req] [out] m)
        (dptr_ grad) i =
      (scalar (RMSPropParam.rescale_grad param) * load m (dptr_ grad) i
       + scalar (RMSPropParam.wd param) * load m (dptr_ weight) i)%num)
  /\ (forall (param : SGDParam.t float) (weight grad out : TBlob)
             (req : OpReqType) (m : mem DType) (i : Z),
      dptr_ grad <> dptr_ out ->
      load (SGDUpdate param [weight; grad] [req] [out] m) (dptr_ grad) i =
      load m (dptr_ grad) i)
  /\ (forall (param : SGDMomParam.t float) (weight grad mom out : TBlob)
             (req : OpReqType) (m : mem DType) (i : Z),
      ~ In (dptr_ grad) [dptr_ mom; dptr_ out] ->
      load (SGDMomUpdate param [weight; grad; mom] [req] [out] m)
        (dptr_ grad) i =
      load m (dptr_ grad) i).
Proof.
  repeat split.
  - intros param weight grad mean var out req m i Hnot Hi. simpl in Hnot.
    apply AdamUpdate_grad; auto; intros Heq; rewrite Heq in *; tauto.
  - intros param weight grad state_n state_g delta out req m i Hnot Hi.
    simpl in Hnot.
    apply RMSPropAlexUpdate_grad; auto; intros Heq; rewrite Heq in *; tauto.
  - intros param weight grad state_n out req m i Hnot Hi. simpl in Hnot.
    apply RMSPropUpdate_grad; auto; intros Heq; rewrite Heq in *; tauto.
  - intros param weight grad out req m i Hne. now apply SGDUpdate_other.
  - intros param weight grad mom out req m i Hnot. simpl in Hnot.
    apply SGDMomUpdate_other; intros Heq; rewrite Heq in *; tauto.
Qed.

(** [weight = [1.0]], [grad = [0.5]], state zero; [rescale_grad = 2],
    [wd = 1]: the gradient buffer holds [2*0.5 + 1*1 = 2] after the call. *)
Lemma gradient_buffer_after_dense_update_witness :
  load
    (AdamUpdate (AdamParam.mk 0.001%R 0.9%R 0.999%R 1e-8%R 1%R 2%R (-1)%R)
       [scenario_blob 0; scenario_blob 1; scenario_blob 2; scenario_blob 3]
       [kWriteTo] [scenario_blob 4] sgd_scenario_mem)
    1%nat 0 = 2%R.
Proof.
  change 1%nat with (dptr_ (scenario_blob 1)).
  rewrite (proj1 (gradient_buffer_after_dense_update R_RealType R_RealType
                    R_StaticCast R_StaticCast)).
  - cbn [AdamParam.rescale_grad AdamParam.wd].
    unfold scalar, static_cast, R_StaticCast.
    cbn [radd rmul R_RealType]. unfold load, sgd_scenario_mem. simpl. lra.
  - simpl. intuition discriminate.
  - simpl. lia.
Defined.

(** ** Momentum under every write mode *)

(** C10. The dense SGD-with-momentum kernels update their state in every
    cell under every write mode, skip included.  The standard kernel
    stores the new momentum whatever [req] is, and with [req] skip it
    changes no other block, so the output is untouched.  The
    mixed-precision kernel stores the new momentum and the new master
    weight whatever [req] is, and with [req] skip it leaves the memory of
    the output tensors as it was. *)
Theorem momentum_updated_under_every_write_mode
    (DType float : Type) (RD : RealType DType) (RF : RealType float)
    (CDF : StaticCast DType float) (CFD : StaticCast float DType) :
  (forall (param : SGDMomParam.t float) (weight grad mom out : TBlob)
          (m : mem DType),
      dptr_ mom <> dptr_ out ->
      (forall (req : OpReqType) (i : Z),
          (0 <= i < Size (shape_ weight))%Z ->
          load (SGDMomUpdate param [weight; grad; mom] [req] [out] m)
            (dptr_ mom) i =
          SGDMom_new_mom (static_cast (SGDMomParam.clip_gradient param))
            (static_cast (SGDMomParam.momentum param))
            (static_cast (SGDMomParam.lr param))
            (static_cast (SGDMomParam.wd param))
            (static_cast (SGDMomParam.rescale_grad param))
            (load m (dptr_ mom) i) (load m (dptr_ weight) i)
            (load m (dptr_ grad) i))
      /\ (forall (p : ptr) (i : Z),
             p <> dptr_ mom ->
             load (SGDMomUpdate param [weight; grad; mom] [kNullOp] [out] m)
               p i =
             load m p i))
  /\ (forall (param : SGDMomParam.t float)
             (weight grad mom weight32 out : TBlob)
             (s : mem DType * mem float),
      dptr_ mom <> dptr_ weight32 ->
      (forall (req : OpReqType) (i : Z),
          (0 <= i < Size (shape_ weight))%Z ->
          let s' :=
            MP_SGDMomUpdate param [weight; grad; mom; weight32] [req] [out]
              s in
          let mom' :=
            MP_SGDMom_new_mom (SGDMomParam.clip_gradient param)
              (SGDMomParam.momentum param) (SGDMomParam.lr param)
              (SGDMomParam.wd param) (SGDMomParam.rescale_grad param)
              (load (snd s) (dptr_ mom) i) (load (snd s) (dptr_ weight32) i)
              (load (fst s) (dptr_ grad) i) in
          load (snd s') (dptr_ mom) i = mom'
          /\ load (snd s') (dptr_ weight32) i =
             (load (snd s) (dptr_ weight32) i + mom')%num)
      /\ fst (MP_SGDMomUpdate param [weight; grad; mom; weight32] [kNullOp]
                [out] s) = fst s).
Proof.
  split.
  - intros param weight grad mom out m Hne. split.
    + intros req i Hi. rewrite SGDMomUpdate_load, (in_range_true Hi).
      now apply SGDMomKernel_Map_mom.
    + intros p i Hp. rewrite SGDMomUpdate_load.
      destruct (_ && _)%bool; [|reflexivity].
      now apply SGDMomKernel_Map_skip.
  - intros param weight grad mom weight32 out s Hne. split.
    + intros req i Hi s' mom'. subst s' mom'.
      destruct (MP_SGDMomUpdate_cell param weight grad mom weight32 out req
                  s i) as [_ Hsnd].
      rewrite (in_range_true Hi) in Hsnd. rewrite !Hsnd.
      destruct s as [m m32]. cbn [fst snd].
      rewrite MP_SGDMomKernel_Map_mom by exact Hne.
      rewrite MP_SGDMomKernel_Map_weight32. split; reflexivity.
    + apply MP_SGDMomUpdate_skip.
Qed.

(** C10 for the standard kernel with [req] skip, on [mom = [0.25]]: the
    momentum cell holds the value the kernel computes, not [0.25]. *)
Lemma momentum_updated_under_every_write_mode_witness :
  load
    (SGDMomUpdate (SGDMomParam.mk 0.1%R 0.9%R 0%R 1%R (-1)%R)
       [scenario_blob 0; scenario_blob 1; scenario_blob 2] [kNullOp]
       [scenario_blob 4] sgd_mom_scenario_mem)
    2%nat 0 =
  SGDMom_new_mom (-1)%R 0.9%R 0.1%R 0%R 1%R 0.25%R 1%R 0.5%R.
Proof.
  apply (proj1 (proj1 (momentum_updated_under_every_write_mode R_RealType
                         R_RealType R_StaticCast R_StaticCast)
                  (SGDMomParam.mk 0.1%R 0.9%R 0%R 1%R (-1)%R)
                  (scenario_blob 0) (scenario_blob 1) (scenario_blob 2)
                  (scenario_blob 4) sgd_mom_scenario_mem
                  ltac:(simpl; discriminate))).
  simpl. lia.
Defined.

(** ** The clip sentinel *)

(** The rules, cell by cell, as the specification words them.  [clipped]
    abbreviates the gradient that enters each rule. *)

(** "[new_weight = (1 - lr*wd) * weight - lr * effective_gradient]" *)
Definition sgd_rule (lr wd rescale_grad clip_gradient : R) (weight grad : R) :
    R :=
  let clipped := effective_gradient clip_gradient (rescale_grad * grad) in
  ((1 - lr * wd) * weight - lr * clipped)%R.

(** "[mom' = momentum*mom - lr*wd*weight - lr*effective_gradient]" *)
Definition sgd_mom_rule (lr momentum wd rescale_grad clip_gradient : R)
    (weight grad mom : R) : R :=
  let clipped := effective_gradient clip_gradient (rescale_grad * grad) in
  (momentum * mom - lr * wd * weight - lr * clipped)%R.

(** "[grad' = rescale_grad*grad + wd*weight]; clip [grad'] if enabled" *)
Definition decayed_gradient (wd rescale_grad clip_gradient : R)
    (weight grad : R) : R :=
  effective_gradient clip_gradient (rescale_grad * grad + wd * weight)%R.











(** * Further properties of the code *)

(** ** Row kernels behind a guard *)

Section GuardedRowLaunch.

Context {T : Type}.

Local Open Scope Z_scope.

(** As in [RowLaunch], for an item that runs its column loop only when a
    test of its own row passes. *)
Variables (N L : Z) (cell : Z -> Z -> Z) (g : ptr).
Variable column : Z -> Z -> mem T -> mem T.
Variable guard : Z -> mem T -> bool.
Hypothesis cell_inj :
  forall i j i' j', 0 <= i < N -> 0 <= i' < N -> 0 <= j < L -> 0 <= j' < L ->
    cell i j = cell i' j' -> i = i' /\ j = j'.
Hypothesis column_cells :
  forall i j s p a, 0 <= i < N -> 0 <= j < L -> a <> cell i j ->
    load (column i j s) p a = load s p a.
Hypothesis column_grad :
  forall i j s a, 0 <= i < N -> 0 <= j < L ->
    load (column i j s) g a = load s g a.
Hypothesis column_local :
  forall i j s s', 0 <= i < N -> 0 <= j < L ->
    agree_at (cell i j) s s' -> (forall a, load s g a = load s' g a) ->
    agree_at (cell i j) (column i j s) (column i j s').
Hypothesis guard_local :
  forall i s s', 0 <= i < N -> agree_row L cell g i s s' ->
    guard i s = guard i s'.

Definition guarded_item (i : Z) (s : mem T) : mem T :=
  if guard i s then for_loop (Z.to_nat L) (column i) s else s.

Lemma guarded_rows_launch_cell m i j :
  0 <= i < N -> 0 <= j < L ->
  agree_at (cell i j) (Launch N guarded_item m)
    (if guard i m then column i j m else m).
Proof.
  intros Hi Hj.
  assert (Hrow : agree_row L cell g i (Launch N guarded_item m)
                   (guarded_item i m)).
  { apply Launch_local with (agree := agree_row L cell g); auto.
    - intros a s. split; [intros k Hk; apply agree_at_refl|reflexivity].
    - intros a s1 s2 s3. apply agree_row_trans.
    - intros k a s Hk Ha Hne. unfold guarded_item.
      destruct (guard k s).
      + apply row_frame with (N := N); auto.
      + split; [intros k' Hk'; apply agree_at_refl|reflexivity].
    - intros k s s' Hk Hag. unfold guarded_item.
      rewrite (guard_local Hk Hag). destruct (guard k s'); [|exact Hag].
      destruct Hag as [Hs Hg]. split.
      + intros j' Hj'.
        destruct (@row_columns T N L cell g column cell_inj column_cells
                    column_grad column_local k s j' Hk Hj') as [H1 _].
        destruct (@row_columns T N L cell g column cell_inj column_cells
                    column_grad column_local k s' j' Hk Hj') as [H2 _].
        eapply agree_at_trans; [exact H1|].
        eapply agree_at_trans; [|apply agree_at_sym; exact H2].
        apply column_local; auto.
      + intros a.
        destruct (@row_columns T N L cell g column cell_inj column_cells
                    column_grad column_local k s j Hk Hj) as [_ H1].
        destruct (@row_columns T N L cell g column cell_inj column_cells
                    column_grad column_local k s' j Hk Hj) as [_ H2].
        rewrite H1, H2, !column_grad; auto. }
  destruct Hrow as [Hrow _].
  eapply agree_at_trans; [apply Hrow; auto|].
  unfold guarded_item. destruct (guard i m); [|apply agree_at_refl].
  apply (@row_columns T N L cell g column cell_inj column_cells column_grad
           column_local i m j Hi Hj).
Qed.

End GuardedRowLaunch.

Lemma Launch_ext {S : Type} (N : Z) (f f' : Z -> S -> S) (s : S) :
  (forall k s, f k s = f' k s) -> Launch N f s = Launch N f' s.
Proof.
  intros Hext. unfold Launch. generalize (Z.to_nat N) as n.
  induction n as [|n IH]; [reflexivity|]. simpl. now rewrite IH, Hext.
Qed.

Section GuardedRowKernelLemmas.

Context {T : Type} `{RealType T}.

Local Open Scope Z_scope.

(** The scan finds a non-zero entry of the row. *)
Lemma contains_non_zeros_true (m : mem T) grad offset C fuel j0 jz :
  0 <= offset -> 0 <= j0 <= jz -> jz < j0 + Z.of_nat fuel ->
  j0 + Z.of_nat fuel <= C -> offset + C <= 2 ^ 32 ->
  rnonzero (load m grad (offset + jz)) = true ->
  contains_non_zeros fuel m grad offset j0 = true.
Proof.
  revert j0. induction fuel as [|fuel IH]; intros j0 Ho Hj0 Hjz Hf Hb Hnz;
    [simpl in Hjz; lia|].
  cbn [contains_non_zeros]. rewrite index_t_small by lia.
  destruct (rnonzero (load m grad (offset + j0))) eqn:Hj; [reflexivity|].
  assert (j0 <> jz) by (intros ->; congruence).
  rewrite index_t_small by lia. apply IH; auto; lia.
Qed.

(** The scan reads the cells of its row only. *)
Lemma contains_non_zeros_local (m m' : mem T) grad offset C fuel j0 :
  0 <= offset -> 0 <= j0 -> j0 + Z.of_nat fuel <= C ->
  offset + C <= 2 ^ 32 ->
  (forall j, 0 <= j < C ->
     load m grad (index_t (offset + j)) =
     load m' grad (index_t (offset + j))) ->
  contains_non_zeros fuel m grad offset j0 =
  contains_non_zeros fuel m' grad offset j0.
Proof.
  revert j0. induction fuel as [|fuel IH]; intros j0 Ho Hj0 Hf Hb Hag;
    [reflexivity|].
  cbn [contains_non_zeros]. rewrite Hag by lia.
  destruct (rnonzero _); [reflexivity|].
  destruct fuel as [|fuel']; [reflexivity|].
  rewrite index_t_small by lia. apply IH; auto; lia.
Qed.

(** The body of the column loop of [SGDRspDnsKernel<req>::Map]. *)
Definition SGDRspDns_column (req : OpReqType) (C : Z) (out w g : ptr)
    (c lr wd rs : T) (i j : Z) (m : mem T) : mem T :=
  let index := index_t (index_t (i * C) + j) in
  KERNEL_ASSIGN m out index req
    (if rge0 c then
       ((rone - lr * wd) * load m w index
        - lr * clip (rs * load m g index) c)%num
     else
       ((rone - lr * wd) * load m w index
        - lr * rs * load m g index)%num).

(** The body of the column loop of [SGDMomRspDnsKernel<req>::Map]. *)
Definition SGDMomRspDns_column (req : OpReqType) (C : Z) (out mom w g : ptr)
    (c mo lr wd rs : T) (i j : Z) (m : mem T) : mem T :=
  let index := index_t (index_t (i * C) + j) in
  let m1 :=
    store m mom index
      (SGDMom_new_mom c mo lr wd rs (load m mom index) (load m w index)
         (load m g index)) in
  KERNEL_ASSIGN m1 out index req (load m1 w index + load m1 mom index)%num.

Lemma SGDRspDnsKernel_Map_guarded req i C out w g c lr wd rs (m : mem T) :
  SGDRspDnsKernel_Map req i C out w g c lr wd rs m =
  guarded_item C (SGDRspDns_column req C out w g c lr wd rs)
    (fun i s => contains_non_zeros (Z.to_nat C) s g (index_t (i * C)) 0)
    i m.
Proof.
  unfold SGDRspDnsKernel_Map, guarded_item, SGDRspDns_column.
  destruct (contains_non_zeros _ _ _ _ _); cbn [negb]; [|reflexivity].
  destruct (rge0 c); reflexivity.
Qed.

Lemma SGDMomRspDnsKernel_Map_guarded req i C out mom w g c mo lr wd rs
    (m : mem T) :
  SGDMomRspDnsKernel_Map req i C out mom w g c mo lr wd rs m =
  guarded_item C (SGDMomRspDns_column req C out mom w g c mo lr wd rs)
    (fun i s => contains_non_zeros (Z.to_nat C) s g (index_t (i * C)) 0)
    i m.
Proof.
  unfold SGDMomRspDnsKernel_Map, guarded_item, SGDMomRspDns_column,
    SGDMom_new_mom.
  destruct (contains_non_zeros _ _ _ _ _); cbn [negb]; [|reflexivity].
  destruct (rge0 c); reflexivity.
Qed.

Lemma dense_row_cell C num_rows i j :
  num_rows * C <= 2 ^ 32 -> 0 <= i < num_rows -> 0 <= j < C ->
  index_t (index_t (i * C) + j) = i * C + j.
Proof.
  intros Hb Hi Hj.
  assert (0 <= i * C + j < 2 ^ 32) by (eapply row_cell_bound; eauto).
  assert (0 <= i * C) by (apply Z.mul_nonneg_nonneg; lia).
  rewrite (@index_t_small (i * C)) by lia. apply index_t_small. lia.
Qed.

Lemma RspDns_guard_local C g num_rows i (s s' : mem T) :
  num_rows * C <= 2 ^ 32 -> 0 <= i < num_rows ->
  agree_row C (fun i j => index_t (index_t (i * C) + j)) g i s s' ->
  contains_non_zeros (Z.to_nat C) s g (index_t (i * C)) 0 =
  contains_non_zeros (Z.to_nat C) s' g (index_t (i * C)) 0.
Proof.
  intros Hb Hi [Hag _].
  destruct (Z.le_gt_cases C 0) as [HC|HC].
  { replace (Z.to_nat C) with O by lia. reflexivity. }
  assert (0 <= i * C) by (apply Z.mul_nonneg_nonneg; lia).
  assert ((i + 1) * C <= num_rows * C)
    by (apply Z.mul_le_mono_nonneg_r; lia).
  rewrite (@index_t_small (i * C)) in * by lia.
  apply contains_non_zeros_local with (C := C); try lia.
  intros j Hj. apply (Hag j Hj).
Qed.

Lemma SGDRspDns_Launch_cell req C out w g c lr wd rs num_rows (m : mem T)
    i j :
  g <> out -> num_rows * C <= 2 ^ 32 ->
  0 <= i < num_rows -> 0 <= j < C ->
  agree_at (i * C + j)
    (Launch num_rows
       (fun i => SGDRspDnsKernel_Map req i C out w g c lr wd rs) m)
    (if contains_non_zeros (Z.to_nat C) m g (i * C) 0
     then SGDRspDns_column req C out w g c lr wd rs i j m else m).
Proof.
  intros Hgo Hb Hi Hj.
  assert (Hext :
    Launch num_rows
      (fun i => SGDRspDnsKernel_Map req i C out w g c lr wd rs) m =
    Launch num_rows
      (guarded_item C (SGDRspDns_column req C out w g c lr wd rs)
         (fun i s =>
            contains_non_zeros (Z.to_nat C) s g (index_t (i * C)) 0)) m)
    by (apply Launch_ext; intros; apply SGDRspDnsKernel_Map_guarded).
  rewrite Hext.
  rewrite <- (dense_row_cell Hb Hi Hj).
  assert (Hoff : index_t (i * C) = i * C).
  { assert (0 <= i * C) by (apply Z.mul_nonneg_nonneg; lia).
    assert ((i + 1) * C <= num_rows * C)
      by (apply Z.mul_le_mono_nonneg_r; lia).
    apply index_t_small. lia. }
  rewrite <- Hoff at 2.
  change (index_t (index_t (i * C) + j))
    with ((fun i j => index_t (index_t (i * C) + j)) i j).
  apply (@guarded_rows_launch_cell T num_rows C
           (fun i j => index_t (index_t (i * C) + j)) g
           (SGDRspDns_column req C out w g c lr wd rs)
           (fun i s =>
              contains_non_zeros (Z.to_nat C) s g (index_t (i * C)) 0));
    auto.
  - intros k j1 k' j2 Hk Hk' Hj1 Hj2.
    rewrite !(dense_row_cell Hb) by assumption.
    intros Heq. apply row_cell_inj in Heq as [Heq1 Heq2]; auto.
  - intros k j' s p a Hk Hj' Hne.
    unfold SGDRspDns_column, KERNEL_ASSIGN.
    destruct req; mem_simpl; reflexivity.
  - intros k j' s a Hk Hj'.
    unfold SGDRspDns_column, KERNEL_ASSIGN.
    destruct req; mem_simpl; reflexivity.
  - intros k j' s s' Hk Hj' Hag Hg p.
    unfold SGDRspDns_column, KERNEL_ASSIGN.
    destruct req; rewrite ?load_store, ?Hag; reflexivity.
  - intros k s s' Hk Hag. now apply RspDns_guard_local with (num_rows := num_rows).
Qed.

Lemma SGDMomRspDns_Launch_cell req C out mom w g c mo lr wd rs num_rows
    (m : mem T) i j :
  g <> out -> g <> mom -> num_rows * C <= 2 ^ 32 ->
  0 <= i < num_rows -> 0 <= j < C ->
  agree_at (i * C + j)
    (Launch num_rows
       (fun i => SGDMomRspDnsKernel_Map req i C out mom w g c mo lr wd rs) m)
    (if contains_non_zeros (Z.to_nat C) m g (i * C) 0
     then SGDMomRspDns_column req C out mom w g c mo lr wd rs i j m else m).
Proof.
  intros Hgo Hgm Hb Hi Hj.
  assert (Hext :
    Launch num_rows
      (fun i => SGDMomRspDnsKernel_Map req i C out mom w g c mo lr wd rs)
      m =
    Launch num_rows
      (guarded_item C (SGDMomRspDns_column req C out mom w g c mo lr wd rs)
         (fun i s =>
            contains_non_zeros (Z.to_nat C) s g (index_t (i * C)) 0)) m)
    by (apply Launch_ext; intros; apply SGDMomRspDnsKernel_Map_guarded).
  rewrite Hext.
  rewrite <- (dense_row_cell Hb Hi Hj).
  assert (Hoff : index_t (i * C) = i * C).
  { assert (0 <= i * C) by (apply Z.mul_nonneg_nonneg; lia).
    assert ((i + 1) * C <= num_rows * C)
      by (apply Z.mul_le_mono_nonneg_r; lia).
    apply index_t_small. lia. }
  rewrite <- Hoff at 2.
  change (index_t (index_t (i * C) + j))
    with ((fun i j => index_t (index_t (i * C) + j)) i j).
  apply (@guarded_rows_launch_cell T num_rows C
           (fun i j => index_t (index_t (i * C) + j)) g
           (SGDMomRspDns_column req C out mom w g c mo lr wd rs)
           (fun i s =>
              contains_non_zeros (Z.to_nat C) s g (index_t (i * C)) 0));
    auto.
  - intros k j1 k' j2 Hk Hk' Hj1 Hj2.
    rewrite !(dense_row_cell Hb) by assumption.
    intros Heq. apply row_cell_inj in Heq as [Heq1 Heq2]; auto.
  - intros k j' s p a Hk Hj' Hne.
    unfold SGDMomRspDns_column, KERNEL_ASSIGN.
    destruct req; mem_simpl; reflexivity.
  - intros k j' s a Hk Hj'.
    unfold SGDMomRspDns_column, KERNEL_ASSIGN.
    destruct req; mem_simpl; reflexivity.
  - intros k j' s s' Hk Hj' Hag Hg p.
    unfold SGDMomRspDns_column, KERNEL_ASSIGN.
    destruct req; rewrite ?load_store, ?Hag; reflexivity.
  - intros k s s' Hk Hag. now apply RspDns_guard_local with (num_rows := num_rows).
Qed.

End GuardedRowKernelLemmas.

Section SGDDnsRspLemmas.

Context {T : Type} `{RealType T}.

Local Open Scope Z_scope.

(** The body of the column loop of [SGDDnsRspKernel<req>::Map]. *)
Definition SGDDnsRsp_column (req : OpReqType) (L : Z) (out w : ptr)
    (idx : Z -> Z) (g : ptr) (c lr wd rs : T) (i j : Z) (m : mem T) :
    mem T :=
  let data_i := index_t (idx i * L + j) in
  let grad_i := index_t (i * L + j) in
  KERNEL_ASSIGN m out data_i req
    (if rge0 c then
       ((rone - lr * wd) * load m w data_i
        - lr * clip (rs * load m g grad_i) c)%num
     else
       ((rone - lr * wd) * load m w data_i
        - (lr * rs) * load m g grad_i)%num).

Lemma SGDDnsRsp_Launch_cell req L out w idx g c lr wd rs num_rows rows
    (m : mem T) i j :
  g <> out -> rows * L <= 2 ^ 32 ->
  (forall k, 0 <= k < num_rows -> 0 <= idx k < rows) ->
  (forall k k', 0 <= k < num_rows -> 0 <= k' < num_rows ->
     idx k = idx k' -> k = k') ->
  0 <= i < num_rows -> 0 <= j < L ->
  agree_at (idx i * L + j)
    (Launch num_rows
       (fun i => SGDDnsRspKernel_Map req i L out w idx g c lr wd rs) m)
    (SGDDnsRsp_column req L out w idx g c lr wd rs i j m).
Proof.
  intros Hgo Hb Hidx Hinj Hi Hj.
  assert (Hcell : forall k j', 0 <= k < num_rows -> 0 <= j' < L ->
            index_t (idx k * L + j') = idx k * L + j').
  { intros k j' Hk Hj'. apply index_t_small.
    eapply row_cell_bound; eauto. }
  rewrite <- (Hcell i j Hi Hj).
  assert (Hext :
    Launch num_rows
      (fun i => SGDDnsRspKernel_Map req i L out w idx g c lr wd rs) m =
    Launch num_rows
      (fun i =>
         for_loop (Z.to_nat L)
           (SGDDnsRsp_column req L out w idx g c lr wd rs i)) m).
  { apply Launch_ext. intros k s.
    unfold SGDDnsRspKernel_Map, SGDDnsRsp_column.
    destruct (rge0 c); reflexivity. }
  rewrite Hext.
  apply rows_launch_cell
    with (cell := fun i j => index_t (idx i * L + j)) (g := g); auto.
  - intros k j1 k' j2 Hk Hk' Hj1 Hj2. rewrite !Hcell by assumption.
    intros Heq. apply row_cell_inj in Heq as [Heq1 Heq2]; auto.
  - intros k j' s p a Hk Hj' Hne.
    unfold SGDDnsRsp_column, KERNEL_ASSIGN.
    destruct req; mem_simpl; reflexivity.
  - intros k j' s a Hk Hj'.
    unfold SGDDnsRsp_column, KERNEL_ASSIGN.
    destruct req; mem_simpl; reflexivity.
  - intros k j' s s' Hk Hj' Hag Hg p.
    unfold SGDDnsRsp_column, KERNEL_ASSIGN.
    destruct req; rewrite ?load_store, ?Hag, ?Hg; reflexivity.
Qed.

End SGDDnsRspLemmas.

Lemma strictly_increasing_injective (idx : Z -> Z) (n : Z) :
  (forall k k', (0 <= k < k')%Z -> (k' < n)%Z -> (idx k < idx k')%Z) ->
  forall k k', (0 <= k < n)%Z -> (0 <= k' < n)%Z -> idx k = idx k' -> k = k'.
Proof.
  intros Hinc k k' Hk Hk' Heq.
  destruct (Z.lt_trichotomy k k') as [Hlt|[Heq'|Hgt]]; [|exact Heq'|].
  - specialize (Hinc k k'). lia.
  - specialize (Hinc k' k). lia.
Qed.

Lemma sgd_rule_code (c lr wd rs w g : R) :
  (if rge0 c then
     ((rone - lr * wd) * w - lr * clip (rs * g) c)%num
   else ((rone - lr * wd) * w - (lr * rs) * g)%num) =
  sgd_rule lr wd rs c w g.
Proof.
  unfold sgd_rule.
  rewrite <- (effective_gradient_code c (rs * g)
                (fun e => (1 - lr * wd) * w - lr * e)%R).
  cbn [rge0 clip rone rsub rmul R_RealType].
  destruct (Rle_dec 0 c); [reflexivity|]. ring.
Qed.

(** X1.  The SGD kernel of a row-sparse gradient applies the SGD rule to every
    cell of every row the gradient lists, with the gradient of that row:
    cell [j] of the [i]-th listed row updates cell [j] of row
    [grad_idx[i]]. *)
Theorem SGD_sparse_gradient_update_rule
    (req : OpReqType) (row_length : Z) (out weight : ptr)
    (grad_idx : Z -> Z) (grad_val : ptr)
    (clip_gradient lr wd rescale_grad : R) (num_rows rows : Z)
    (m : mem R) (i j : Z) :
  let data_i := (grad_idx i * row_length + j)%Z in
  let m' :=
    Launch num_rows
      (fun i =>
         SGDDnsRspKernel_Map req i row_length out weight grad_idx grad_val
           clip_gradient lr wd rescale_grad) m in
  grad_val <> out ->
  (rows * row_length <= 2 ^ 32)%Z -> (num_rows <= rows)%Z ->
  (forall k, (0 <= k < num_rows)%Z -> (0 <= grad_idx k < rows)%Z) ->
  (forall k k', (0 <= k < k')%Z -> (k' < num_rows)%Z ->
     (grad_idx k < grad_idx k')%Z) ->
  (0 <= i < num_rows)%Z -> (0 <= j < row_length)%Z ->
  load m' out data_i =
  written req (load m out data_i)
    (sgd_rule lr wd rescale_grad clip_gradient (load m weight data_i)
       (load m grad_val (i * row_length + j))).
Proof.
  intros data_i m' Hgo Hb Hrows Hidx Hinc Hi Hj. subst m' data_i.
  pose proof (strictly_increasing_injective grad_idx Hinc) as Hinj.
  rewrite (@SGDDnsRsp_Launch_cell R _ req row_length out weight grad_idx
             grad_val clip_gradient lr wd rescale_grad num_rows rows m i j
             Hgo Hb Hidx Hinj Hi Hj).
  unfold SGDDnsRsp_column. cbv zeta.
  rewrite (@index_t_small (grad_idx i * row_length + j))
    by (eapply row_cell_bound; eauto).
  rewrite (@index_t_small (i * row_length + j))
    by (apply (@row_cell_bound row_length rows i j); auto; lia).
  rewrite sgd_rule_code. unfold KERNEL_ASSIGN.
  destruct req; cbn [written]; mem_simpl; reflexivity.
Qed.

(** A weight of three rows of two cells and a gradient listing rows 0 and
    2: cell 1 of row 2 takes the SGD step with the gradient's second row. *)
Lemma SGD_sparse_gradient_update_rule_witness :
  load
    (Launch 2
       (fun i =>
          SGDDnsRspKernel_Map kWriteTo i 2 0%nat 0%nat (fun k => (2 * k)%Z)
            1%nat (-1)%R 0.1%R 0%R 1%R) lazy_scenario_mem)
    0%nat 5 = 0.95%R.
Proof.
  change 5%Z with ((fun k => 2 * k) 1 * 2 + 1)%Z.
  rewrite SGD_sparse_gradient_update_rule with (rows := 3%Z);
    try lia; try discriminate.
  unfold sgd_rule. rewrite effective_gradient_disabled by lra.
  unfold load, lazy_scenario_mem. simpl. lra.
Defined.

Lemma rnonzero_R (x : R) : rnonzero x = true <-> x <> 0%R.
Proof.
  cbn [rnonzero R_RealType]. destruct (Req_EM_T x 0); split; intros;
    congruence.
Qed.

(** X2.  The kernels of a row-sparse weight and a dense gradient decide by
    row: when row [i] of the dense gradient has a non-zero entry, every
    cell of row [i] takes the update of the rule, the cells whose own
    gradient entry is zero included (they take the weight decay).  For
    SGD the output cell receives the SGD rule; for SGD with momentum the
    momentum cell receives the momentum rule and the output cell
    [weight + mom']. *)
Theorem dense_gradient_row_updated_whole :
  (forall (req : OpReqType) (num_cols : Z) (out weight grad : ptr)
          (clip_gradient lr wd rescale_grad : R) (num_rows : Z) (m : mem R)
          (i j j0 : Z),
      let index := (i * num_cols + j)%Z in
      grad <> out ->
      (num_rows * num_cols <= 2 ^ 32)%Z ->
      (0 <= i < num_rows)%Z -> (0 <= j < num_cols)%Z ->
      (0 <= j0 < num_cols)%Z -> load m grad (i * num_cols + j0) <> 0%R ->
      load
        (Launch num_rows
           (fun i =>
              SGDRspDnsKernel_Map req i num_cols out weight grad
                clip_gradient lr wd rescale_grad) m)
        out index =
      written req (load m out index)
        (sgd_rule lr wd rescale_grad clip_gradient (load m weight index)
           (load m grad index)))
  /\ (forall (req : OpReqType) (num_cols : Z) (out mom weight grad : ptr)
             (clip_gradient momentum lr wd rescale_grad : R)
             (num_rows : Z) (m : mem R) (i j j0 : Z),
      let index := (i * num_cols + j)%Z in
      let m' :=
        Launch num_rows
          (fun i =>
             SGDMomRspDnsKernel_Map req i num_cols out mom weight grad
               clip_gradient momentum lr wd rescale_grad) m in
      let mom' :=
        sgd_mom_rule lr momentum wd rescale_grad clip_gradient
          (load m weight index) (load m grad index) (load m mom index) in
      grad <> out -> grad <> mom -> weight <> mom -> out <> mom ->
      (num_rows * num_cols <= 2 ^ 32)%Z ->
      (0 <= i < num_rows)%Z -> (0 <= j < num_cols)%Z ->
      (0 <= j0 < num_cols)%Z -> load m grad (i * num_cols + j0) <> 0%R ->
      load m' mom index = mom'
      /\ load m' out index =
         written req (load m out index) (load m weight index + mom')%R).
Proof.
  assert (Hscan : forall (grad : ptr) (num_cols num_rows : Z) (m : mem R)
                         (i j0 : Z),
            (num_rows * num_cols <= 2 ^ 32)%Z -> (0 <= i < num_rows)%Z ->
            (0 <= j0 < num_cols)%Z ->
            load m grad (i * num_cols + j0) <> 0%R ->
            contains_non_zeros (Z.to_nat num_cols) m grad (i * num_cols) 0
            = true).
  { intros grad C num_rows m i j0 Hb Hi Hj0 Hnz.
    assert (0 <= i * C)%Z by (apply Z.mul_nonneg_nonneg; lia).
    assert ((i + 1) * C <= num_rows * C)%Z
      by (apply Z.mul_le_mono_nonneg_r; lia).
    apply contains_non_zeros_true with (C := C) (jz := j0); try lia.
    now apply rnonzero_R. }
  split.
  - intros req C out w g c lr wd rs num_rows m i j j0 index Hgo Hb Hi Hj
      Hj0 Hnz. subst index.
    rewrite (@SGDRspDns_Launch_cell R _ req C out w g c lr wd rs num_rows m
               i j Hgo Hb Hi Hj).
    rewrite (Hscan g C num_rows m i j0 Hb Hi Hj0 Hnz).
    unfold SGDRspDns_column. cbv zeta.
    rewrite (dense_row_cell Hb Hi Hj).
    replace (lr * rs * load m g (i * C + j))%num
      with ((lr * rs) * load m g (i * C + j))%num by reflexivity.
    rewrite sgd_rule_code. unfold KERNEL_ASSIGN.
    destruct req; cbn [written]; mem_simpl; reflexivity.
  - intros req C out mom w g c mo lr wd rs num_rows m i j j0 index m' mom'
      Hgo Hgm Hwm Hom Hb Hi Hj Hj0 Hnz. subst index m' mom'.
    rewrite !(@SGDMomRspDns_Launch_cell R _ req C out mom w g c mo lr wd rs
                num_rows m i j Hgo Hgm Hb Hi Hj).
    rewrite (Hscan g C num_rows m i j0 Hb Hi Hj0 Hnz).
    unfold SGDMomRspDns_column. cbv zeta.
    rewrite (dense_row_cell Hb Hi Hj).
    rewrite SGDMom_new_mom_rule. unfold sgd_mom_rule, KERNEL_ASSIGN.
    split; destruct req; cbn [written]; mem_simpl; reflexivity.
Qed.

(** A weight of one row of two cells, all [1.0] (block 0), and a dense
    gradient (block 1) [[0.5, 0]]. *)
Definition half_zero_row_mem : mem R :=
  fun p a =>
    match p with
    | 0%nat => 1%R
    | 1%nat => if Z.eqb a 0 then 0.5%R else 0%R
    | _ => 0%R
    end.

(** Cell 1 of the row has a zero gradient and still takes the weight decay:
    [(1 - 0.1*0.5) * 1 = 0.95]. *)
Lemma dense_gradient_row_updated_whole_witness :
  load
    (Launch 1
       (fun i =>
          SGDRspDnsKernel_Map kWriteTo i 2 0%nat 0%nat 1%nat (-1)%R 0.1%R
            0.5%R 1%R) half_zero_row_mem)
    0%nat (0 * 2 + 1) = 0.95%R.
Proof.
  rewrite (proj1 dense_gradient_row_updated_whole) with (j0 := 0%Z);
    try lia; try discriminate.
  - unfold sgd_rule. rewrite effective_gradient_disabled by lra.
    unfold load, half_zero_row_mem. simpl. lra.
  - unfold load, half_zero_row_mem. simpl. lra.
Defined.

(** ** A gradient that lists every row *)

Lemma cell_of_row (L a : Z) :
  (0 < L)%Z -> a = (a / L * L + a mod L)%Z /\ (0 <= a mod L < L)%Z.
Proof.
  intros HL. split; [|apply Z.mod_pos_bound; exact HL].
  rewrite (Z.div_mod a L) at 1 by lia. ring.
Qed.

Lemma row_of_cell (L rows a : Z) :
  (0 < L)%Z -> (0 <= a < rows * L)%Z -> (0 <= a / L < rows)%Z.
Proof.
  intros HL Ha. split.
  - apply Z.div_pos; lia.
  - apply Z.div_lt_upper_bound; lia.
Qed.

(** X3.  When the row-sparse gradient lists every row ([grad_idx[i] = i] for the
    [rows] rows of the weight), the kernels of a row-sparse gradient leave
    the memory the dense kernels leave on the same tensors of
    [rows * row_length] cells: this is what lets the drivers of an
    all-row-sparse combination reuse them on the arrays' values.  It holds
    for every element type. *)
Theorem full_row_sparse_gradient_is_dense (T : Type) (RT : RealType T) :
  (forall (req : OpReqType) (row_length rows : Z) (out weight grad : ptr)
          (clip_gradient lr wd rescale_grad : T) (m : mem T)
          (p : ptr) (a : Z),
      grad <> out -> (0 <= row_length)%Z ->
      (rows * row_length <= 2 ^ 32)%Z ->
      load
        (Launch rows
           (fun i =>
              SGDDnsRspKernel_Map req i row_length out weight (fun k => k)
                grad clip_gradient lr wd rescale_grad) m) p a =
      load
        (Launch (rows * row_length)
           (fun i =>
              SGDKernel_Map i out weight grad clip_gradient lr wd
                rescale_grad req) m) p a)
  /\ (forall (req : OpReqType) (row_length rows : Z)
             (out mom weight grad : ptr)
             (clip_gradient momentum lr wd rescale_grad : T) (m : mem T)
             (p : ptr) (a : Z),
      grad <> out -> grad <> mom -> (0 <= row_length)%Z ->
      (rows * row_length <= 2 ^ 32)%Z ->
      load
        (Launch rows
           (fun i =>
              SGDMomDnsRspDnsKernel_Map req i row_length out mom weight
                (fun k => k) grad clip_gradient momentum lr wd rescale_grad)
           m) p a =
      load
        (Launch (rows * row_length)
           (fun i =>
              SGDMomKernel_Map i out mom weight grad clip_gradient momentum
                lr wd rescale_grad req) m) p a).
Proof.
  split.
  - intros req L rows out w g c lr wd rs m p a Hgo HL Hb.
    rewrite (@Launch_cell T
               (fun i => SGDKernel_Map i out w g c lr wd rs req)
               (rows * L));
      [|intros; now apply SGDKernel_Map_frame
       |intros; now apply SGDKernel_Map_local].
    destruct ((0 <=? a) && (a <? rows * L))%Z eqn:Hin.
    + apply andb_true_iff in Hin as [Hlo Hhi].
      apply Z.leb_le in Hlo. apply Z.ltb_lt in Hhi.
      assert (HLpos : (0 < L)%Z).
      { destruct (Z.eq_dec L 0) as [->|]; [rewrite Z.mul_0_r in Hhi|]; lia. }
      destruct (cell_of_row a HLpos) as [Ha Hj].
      pose proof (@row_of_cell L rows a HLpos (conj Hlo Hhi)) as Hi.
      set (i := (a / L)%Z) in *. set (j := (a mod L)%Z) in *.
      rewrite Ha.
      etransitivity;
        [apply (@SGDDnsRsp_Launch_cell T RT req L out w (fun k => k) g c lr
                  wd rs rows rows m i j); auto; intros; lia|].
      unfold SGDDnsRsp_column, SGDKernel_Map. cbv zeta.
      rewrite !index_t_small by (eapply row_cell_bound; eauto).
      destruct (rge0 c); reflexivity.
    + apply (Launch_inv (fun s => load s p a = load m p a)); [reflexivity|].
      intros k s Hk Hs. rewrite <- Hs. apply SGDDnsRspKernel_Map_cells.
      intros j Hj. rewrite index_t_small by (eapply row_cell_bound; eauto).
      intros ->.
      assert ((k + 1) * L <= rows * L)%Z
        by (apply Z.mul_le_mono_nonneg_r; lia).
      assert (0 <= k * L)%Z by (apply Z.mul_nonneg_nonneg; lia).
      apply andb_false_iff in Hin as [Hin|Hin];
        [apply Z.leb_gt in Hin | apply Z.ltb_ge in Hin]; lia.
  - intros req L rows out mom w g c mo lr wd rs m p a Hgo Hgm HL Hb.
    rewrite (@Launch_cell T
               (fun i => SGDMomKernel_Map i out mom w g c mo lr wd rs req)
               (rows * L));
      [|intros; now apply SGDMomKernel_Map_frame
       |intros; now apply SGDMomKernel_Map_local].
    destruct ((0 <=? a) && (a <? rows * L))%Z eqn:Hin.
    + apply andb_true_iff in Hin as [Hlo Hhi].
      apply Z.leb_le in Hlo. apply Z.ltb_lt in Hhi.
      assert (HLpos : (0 < L)%Z).
      { destruct (Z.eq_dec L 0) as [->|]; [rewrite Z.mul_0_r in Hhi|]; lia. }
      destruct (cell_of_row a HLpos) as [Ha Hj].
      pose proof (@row_of_cell L rows a HLpos (conj Hlo Hhi)) as Hi.
      set (i := (a / L)%Z) in *. set (j := (a mod L)%Z) in *.
      rewrite Ha.
      etransitivity;
        [apply (@SGDMomDnsRspDns_Launch_cell T RT req L out mom w
                  (fun k => k) g c mo lr wd rs rows rows m i j); auto;
         intros; lia|].
      unfold SGDMomDnsRspDns_column, SGDMomKernel_Map, SGDMom_new_mom.
      cbv zeta.
      rewrite !index_t_small by (eapply row_cell_bound; eauto).
      destruct (rge0 c); reflexivity.
    + apply (Launch_inv (fun s => load s p a = load m p a)); [reflexivity|].
      intros k s Hk Hs. rewrite <- Hs.
      apply SGDMomDnsRspDnsKernel_Map_cells.
      intros j Hj. rewrite index_t_small by (eapply row_cell_bound; eauto).
      intros ->.
      assert ((k + 1) * L <= rows * L)%Z
        by (apply Z.mul_le_mono_nonneg_r; lia).
      assert (0 <= k * L)%Z by (apply Z.mul_nonneg_nonneg; lia).
      apply andb_false_iff in Hin as [Hin|Hin];
        [apply Z.leb_gt in Hin | apply Z.ltb_ge in Hin]; lia.
Qed.

(** Two rows of two cells, both listed: the row kernel and the dense
    kernel over four cells agree in cell 3 of the output. *)
Lemma full_row_sparse_gradient_is_dense_witness :
  load
    (Launch 2
       (fun i =>
          SGDDnsRspKernel_Map kWriteTo i 2 0%nat 0%nat (fun k => k) 1%nat
            (-1)%R 0.1%R 0.5%R 1%R) lazy_scenario_mem) 0%nat 3 =
  load
    (Launch (2 * 2)
       (fun i =>
          SGDKernel_Map i 0%nat 0%nat 1%nat (-1)%R 0.1%R 0.5%R 1%R kWriteTo)
       lazy_scenario_mem) 0%nat 3.
Proof.
  apply (proj1 (full_row_sparse_gradient_is_dense R_RealType)).
  - discriminate.
  - lia.
  - simpl. lia.
Defined.

(** ** Mixed precision: the master weight and the narrow weight *)

Section MixedPrecisionMore.

Context {DType float : Type} `{RealType DType} `{RealType float}
  `{StaticCast DType float} `{StaticCast float DType}.

(** One item of [MP_SGDKernel] on two memories that differ in the block of
    the narrow weight only. *)
Lemma MP_SGDKernel_Map_narrow k out w g w32 c lr wd rs req
    (m1 m2 : mem DType) (m32 : mem float) :
  g <> w ->
  (forall p, p <> w -> load m1 p k = load m2 p k) ->
  let r1 := MP_SGDKernel_Map k out w g w32 c lr wd rs req (m1, m32) in
  let r2 := MP_SGDKernel_Map k out w g w32 c lr wd rs req (m2, m32) in
  (forall p, p <> w -> load (fst r1) p k = load (fst r2) p k)
  /\ (forall p, load (snd r1) p k = load (snd r2) p k).
Proof.
  intros Hgw Hag. unfold MP_SGDKernel_Map, KERNEL_ASSIGN.
  rewrite (Hag g Hgw).
  destruct (rge0 c), req; cbn [fst snd]; split; intros p; intros;
    rewrite ?load_store; try reflexivity; try (apply Hag; assumption);
    destruct (Nat.eqb_spec p out) as [->|];
    cbn [andb]; rewrite ?Z.eqb_refl; try reflexivity;
    try (apply Hag; assumption);
    rewrite (Hag out) by assumption; reflexivity.
Qed.

(** The same for [MP_SGDMomKernel]. *)
Lemma MP_SGDMomKernel_Map_narrow k out mom w g w32 c mo lr wd rs req
    (m1 m2 : mem DType) (m32 : mem float) :
  g <> w ->
  (forall p, p <> w -> load m1 p k = load m2 p k) ->
  let r1 :=
    MP_SGDMomKernel_Map k out mom w g w32 c mo lr wd rs req (m1, m32) in
  let r2 :=
    MP_SGDMomKernel_Map k out mom w g w32 c mo lr wd rs req (m2, m32) in
  (forall p, p <> w -> load (fst r1) p k = load (fst r2) p k)
  /\ (forall p, load (snd r1) p k = load (snd r2) p k).
Proof.
  intros Hgw Hag. unfold MP_SGDMomKernel_Map, KERNEL_ASSIGN.
  rewrite (Hag g Hgw).
  destruct (rge0 c), req; cbn [fst snd]; split; intros p; intros;
    rewrite ?load_store; try reflexivity; try (apply Hag; assumption);
    destruct (Nat.eqb_spec p out) as [->|];
    cbn [andb]; rewrite ?Z.eqb_refl; try reflexivity;
    try (apply Hag; assumption);
    rewrite (Hag out) by assumption; reflexivity.
Qed.

End MixedPrecisionMore.

(** X7.  Under an overwriting write mode, what [MP_SGDUpdate] and
    [MP_SGDMomUpdate] leave in a cell of the narrow output is the cast of
    what they leave in the same cell of the 32-bit master weight: the output
    never drifts from the master copy.  This holds for every element type
    and every cast. *)
Theorem mixed_precision_output_is_cast_of_master
    (DType float : Type) (RD : RealType DType) (RF : RealType float)
    (CDF : StaticCast DType float) (CFD : StaticCast float DType) :
  (forall (param : SGDParam.t float) (weight grad weight32 out : TBlob)
          (req : OpReqType) (s : mem DType * mem float) (i : Z),
      req = kWriteTo \/ req = kWriteInplace ->
      (0 <= i < Size (shape_ weight))%Z ->
      let s' := MP_SGDUpdate param [weight; grad; weight32] [req] [out] s in
      load (fst s') (dptr_ out) i =
      static_cast (load (snd s') (dptr_ weight32) i))
  /\ (forall (param : SGDMomParam.t float)
             (weight grad mom weight32 out : TBlob)
             (req : OpReqType) (s : mem DType * mem float) (i : Z),
      req = kWriteTo \/ req = kWriteInplace ->
      (0 <= i < Size (shape_ weight))%Z ->
      let s' :=
        MP_SGDMomUpdate param [weight; grad; mom; weight32] [req] [out] s in
      load (fst s') (dptr_ out) i =
      static_cast (load (snd s') (dptr_ weight32) i)).
Proof.
  split.
  - intros param weight grad weight32 out req [m m32] i Hreq Hi s'.
    destruct (MP_SGDUpdate_cell param weight grad weight32 out req (m, m32)
                i) as [Hfst Hsnd].
    rewrite (in_range_true Hi) in Hfst, Hsnd. subst s'.
    rewrite Hfst, Hsnd, MP_SGDKernel_Map_out, MP_SGDKernel_Map_weight32.
    destruct Hreq as [-> | ->]; reflexivity.
  - intros param weight grad mom weight32 out req [m m32] i Hreq Hi s'.
    destruct (MP_SGDMomUpdate_cell param weight grad mom weight32 out req
                (m, m32) i) as [Hfst Hsnd].
    rewrite (in_range_true Hi) in Hfst, Hsnd. subst s'.
    rewrite Hfst, Hsnd, MP_SGDMomKernel_Map_out,
      MP_SGDMomKernel_Map_weight32.
    destruct Hreq as [-> | ->]; reflexivity.
Qed.

(** Mixed-precision SGD on one cell: master weight in block 0 of the 32-bit
    memory, gradient in block 1, output in block 4. *)
Lemma mixed_precision_output_is_cast_of_master_witness :
  let s' :=
    MP_SGDUpdate sgd_scenario_param
      [scenario_blob 3; scenario_blob 1; scenario_blob 0] [kWriteTo]
      [scenario_blob 4] (sgd_scenario_mem, sgd_scenario_mem) in
  load (fst s') (dptr_ (scenario_blob 4)) 0 =
  static_cast (load (snd s') (dptr_ (scenario_blob 0)) 0).
Proof.
  apply (proj1 (mixed_precision_output_is_cast_of_master R_RealType
                  R_RealType R_StaticCast R_StaticCast)).
  - left. reflexivity.
  - simpl. lia.
Defined.

(** X8.  The values of the narrow weight input are never read by the
    mixed-precision entry points: two runs whose narrow memories differ in
    the block of the weight only (the gradient lying elsewhere) leave the
    same values in every other block of the narrow memory, the output
    included, and the same 32-bit memory. *)
Theorem mixed_precision_never_reads_narrow_weight
    (DType float : Type) (RD : RealType DType) (RF : RealType float)
    (CDF : StaticCast DType float) (CFD : StaticCast float DType) :
  (forall (param : SGDParam.t float) (weight grad weight32 out : TBlob)
          (req : OpReqType) (m1 m2 : mem DType) (m32 : mem float),
      dptr_ grad <> dptr_ weight ->
      (forall p i, p <> dptr_ weight -> load m1 p i = load m2 p i) ->
      let r1 :=
        MP_SGDUpdate param [weight; grad; weight32] [req] [out] (m1, m32) in
      let r2 :=
        MP_SGDUpdate param [weight; grad; weight32] [req] [out] (m2, m32) in
      (forall p i, p <> dptr_ weight ->
         load (fst r1) p i = load (fst r2) p i)
      /\ (forall p i, load (snd r1) p i = load (snd r2) p i))
  /\ (forall (param : SGDMomParam.t float)
             (weight grad mom weight32 out : TBlob)
             (req : OpReqType) (m1 m2 : mem DType) (m32 : mem float),
      dptr_ grad <> dptr_ weight ->
      (forall p i, p <> dptr_ weight -> load m1 p i = load m2 p i) ->
      let r1 :=
        MP_SGDMomUpdate param [weight; grad; mom; weight32] [req] [out]
          (m1, m32) in
      let r2 :=
        MP_SGDMomUpdate param [weight; grad; mom; weight32] [req] [out]
          (m2, m32) in
      (forall p i, p <> dptr_ weight ->
         load (fst r1) p i = load (fst r2) p i)
      /\ (forall p i, load (snd r1) p i = load (snd r2) p i)).
Proof.
  split.
  - intros param weight grad weight32 out req m1 m2 m32 Hgw Hag r1 r2.
    assert (Hcell : forall i,
               (forall p, p <> dptr_ weight ->
                  load (fst r1) p i = load (fst r2) p i)
               /\ (forall p, load (snd r1) p i = load (snd r2) p i)).
    { intros i. subst r1 r2.
      destruct (MP_SGDUpdate_cell param weight grad weight32 out req
                  (m1, m32) i) as [F1 S1].
      destruct (MP_SGDUpdate_cell param weight grad weight32 out req
                  (m2, m32) i) as [F2 S2].
      destruct ((0 <=? i)%Z && (i <? Size (shape_ weight))%Z)%bool.
      - destruct (@MP_SGDKernel_Map_narrow DType float RD RF CDF CFD i
                    (dptr_ out) (dptr_ weight) (dptr_ grad) (dptr_ weight32)
                    (SGDParam.clip_gradient param) (SGDParam.lr param)
                    (SGDParam.wd param) (SGDParam.rescale_grad param) req
                    m1 m2 m32 Hgw (fun p Hp => Hag p i Hp)) as [Ha Hb].
        split; intros p; intros; rewrite ?F1, ?F2, ?S1, ?S2; auto.
      - split; intros p; intros; rewrite ?F1, ?F2, ?S1, ?S2; cbn [fst snd];
          auto. }
    split; intros p i; intros; apply Hcell; assumption.
  - intros param weight grad mom weight32 out req m1 m2 m32 Hgw Hag r1 r2.
    assert (Hcell : forall i,
               (forall p, p <> dptr_ weight ->
                  load (fst r1) p i = load (fst r2) p i)
               /\ (forall p, load (snd r1) p i = load (snd r2) p i)).
    { intros i. subst r1 r2.
      destruct (MP_SGDMomUpdate_cell param weight grad mom weight32 out req
                  (m1, m32) i) as [F1 S1].
      destruct (MP_SGDMomUpdate_cell param weight grad mom weight32 out req
                  (m2, m32) i) as [F2 S2].
      destruct ((0 <=? i)%Z && (i <? Size (shape_ weight))%Z)%bool.
      - destruct (@MP_SGDMomKernel_Map_narrow DType float RD RF CDF CFD i
                    (dptr_ out) (dptr_ mom) (dptr_ weight) (dptr_ grad)
                    (dptr_ weight32)
                    (SGDMomParam.clip_gradient param)
                    (SGDMomParam.momentum param) (SGDMomParam.lr param)
                    (SGDMomParam.wd param) (SGDMomParam.rescale_grad param)
                    req m1 m2 m32 Hgw (fun p Hp => Hag p i Hp)) as [Ha Hb].
        split; intros p; intros; rewrite ?F1, ?F2, ?S1, ?S2; auto.
      - split; intros p; intros; rewrite ?F1, ?F2, ?S1, ?S2; cbn [fst snd];
          auto. }
    split; intros p i; intros; apply Hcell; assumption.
Qed.

(** The memory of the SGD scenario with the block 3 changed. *)
Definition narrow_weight_changed_mem : mem R :=
  fun p i =>
    match p with
    | 3%nat => 7%R
    | _ => sgd_scenario_mem p i
    end.

(** Mixed-precision SGD with the narrow weight in block 3: the output cell
    does not depend on what block 3 holds. *)
Lemma mixed_precision_never_reads_narrow_weight_witness :
  load
    (fst
       (MP_SGDUpdate sgd_scenario_param
          [scenario_blob 3; scenario_blob 1; scenario_blob 0] [kWriteTo]
          [scenario_blob 4] (sgd_scenario_mem, sgd_scenario_mem)))
    4%nat 0 =
  load
    (fst
       (MP_SGDUpdate sgd_scenario_param
          [scenario_blob 3; scenario_blob 1; scenario_blob 0] [kWriteTo]
          [scenario_blob 4] (narrow_weight_changed_mem, sgd_scenario_mem)))
    4%nat 0.
Proof.
  apply (proj1 (mixed_precision_never_reads_narrow_weight R_RealType
                  R_RealType R_StaticCast R_StaticCast)).
  - simpl. discriminate.
  - intros p i Hp. unfold load, narrow_weight_changed_mem.
    destruct p as [|[|[|[|p]]]]; try reflexivity.
    exfalso. apply Hp. reflexivity.
  - simpl. discriminate.
Defined.

(** ** What the dense entry points leave alone *)

(** X9.  The dense entry points write to their output and to their state
    tensors, and to nothing else: [SGDUpdate] to the output; [SGDMomUpdate]
    to momentum and output; [AdamUpdate] to gradient, mean, variance and
    output; [RMSPropUpdate] to gradient, [state_n] and output;
    [RMSPropAlexUpdate] to gradient, [state_n], [state_g], [delta] and
    output.  Every other block of memory holds after the call what it held
    before; so does the weight, unless it is passed as one of these.  This
    holds for every element type. *)
Theorem dense_updates_write_only_their_tensors
    (DType float : Type) (RD : RealType DType) (RF : RealType float)
    (CDF : StaticCast DType float) (CFD : StaticCast float DType) :
  (forall (param : SGDParam.t float) (weight grad out : TBlob)
          (req : OpReqType) (m : mem DType) (p : ptr) (i : Z),
      p <> dptr_ out ->
      load (SGDUpdate param [weight; grad] [req] [out] m) p i = load m p i)
  /\ (forall (param : SGDMomParam.t float) (weight grad mom out : TBlob)
             (req : OpReqType) (m : mem DType) (p : ptr) (i : Z),
      p <> dptr_ mom -> p <> dptr_ out ->
      load (SGDMomUpdate param [weight; grad; mom] [req] [out] m) p i =
      load m p i)
  /\ (forall (param : AdamParam.t float) (weight grad mean var out : TBlob)
             (req : OpReqType) (m : mem DType) (p : ptr) (i : Z),
      p <> dptr_ grad -> p <> dptr_ mean -> p <> dptr_ var ->
      p <> dptr_ out ->
      load (AdamUpdate param [weight; grad; mean; var] [req] [out] m) p i =
      load m p i)
  /\ (forall (param : RMSPropParam.t float) (weight grad state_n out : TBlob)
             (req : OpReqType) (m : mem DType) (p : ptr) (i : Z),
      p <> dptr_ grad -> p <> dptr_ state_n -> p <> dptr_ out ->
      load (RMSPropUpdate param [weight; grad; state_n] [req] [out] m) p i =
      load m p i)
  /\ (forall (param : RMSPropAlexParam.t float)
             (weight grad state_n state_g delta out : TBlob)
             (req : OpReqType) (m : mem DType) (p : ptr) (i : Z),
      p <> dptr_ grad -> p <> dptr_ state_n -> p <> dptr_ state_g ->
      p <> dptr_ delta -> p <> dptr_ out ->
      load
        (RMSPropAlexUpdate param [weight; grad; state_n; state_g; delta]
           [req] [out] m) p i =
      load m p i).
Proof.
  split; [|split; [|split; [|split]]].
  - intros. now apply SGDUpdate_other.
  - intros. now apply SGDMomUpdate_other.
  - intros param weight grad mean var out req m p i Hg Hm Hv Ho.
    unfold AdamUpdate. cbn [nth]. cbv zeta. neq_to_eqb.
    destruct (rge0 (AdamParam.clip_gradient param)); tensor_eval;
      reflexivity.
  - intros param weight grad state_n out req m p i Hg Hn Ho.
    unfold RMSPropUpdate. cbn [nth]. cbv zeta. neq_to_eqb.
    destruct (rge0 (RMSPropParam.clip_gradient param)),
      (rge0 (RMSPropParam.clip_weights param)); tensor_eval; reflexivity.
  - intros param weight grad state_n state_g delta out req m p i
      Hg Hn Hs Hd Ho.
    unfold RMSPropAlexUpdate. cbn [nth]. cbv zeta. neq_to_eqb.
    destruct (rge0 (RMSPropAlexParam.clip_gradient param)),
      (rge0 (RMSPropAlexParam.clip_weights param)); tensor_eval;
      reflexivity.
Qed.

(** Adam out of place on its scenario: the weight in block 0 is as it
    was. *)
Lemma dense_updates_write_only_their_tensors_witness :
  load
    (AdamUpdate adam_scenario_param
       [scenario_blob 0; scenario_blob 1; scenario_blob 2; scenario_blob 3]
       [kWriteTo] [scenario_blob 4] adam_scenario_mem)
    0%nat 0 =
  load adam_scenario_mem 0%nat 0.
Proof.
  apply (proj1 (proj2 (proj2 (dense_updates_write_only_their_tensors
                                R_RealType R_RealType R_StaticCast
                                R_StaticCast))));
    simpl; discriminate.
Defined.

(** ** Row-sparse weights: what comes before the write mode is looked at *)

(** X11.  A row-sparse weight that fails the all-rows check makes every sparse
    path of the three entry points fatal, with the state as it was: whatever
    the write mode (skip included), whether or not the gradient is
    initialized, and before any state array is filled with zeros. *)
Theorem incomplete_row_sparse_weight_is_fatal
    (DType float : Type) (RD : RealType DType) (RF : RealType float)
    (CDF : StaticCast DType float) (CFD : StaticCast float DType)
    (FillDnsZerosRspImpl : State DType -> NDArray -> State DType)
    (rsp_all_rows_non_zero : State DType -> NDArray -> bool)
    (FCompExFallback :
       (list TBlob -> list OpReqType -> list TBlob -> mem DType ->
        mem DType) ->
       string -> list NDArray -> list OpReqType -> list NDArray ->
       list nat -> State DType -> outcome DType) :
  (forall (param : SGDParam.t float) (weight grad out : NDArray)
          (req : list OpReqType) (st : State DType),
      storage_type st weight = kRowSparseStorage ->
      storage_type st grad = kRowSparseStorage
      \/ storage_type st grad = kDefaultStorage ->
      rsp_all_rows_non_zero st weight = false ->
      exists msg,
        SGDUpdateEx rsp_all_rows_non_zero FCompExFallback param
          [weight; grad] req [out] st = Fatal msg st)
  /\ (forall (param : SGDMomParam.t float) (weight grad mom out : NDArray)
             (req : list OpReqType) (st : State DType),
      storage_type st weight = kRowSparseStorage ->
      storage_type st mom = kRowSparseStorage ->
      storage_type st grad = kRowSparseStorage
      \/ storage_type st grad = kDefaultStorage ->
      rsp_all_rows_non_zero st weight = false ->
      exists msg,
        SGDMomUpdateEx FillDnsZerosRspImpl rsp_all_rows_non_zero
          FCompExFallback param [weight; grad; mom] req [out] st =
        Fatal msg st)
  /\ (forall (param : AdamParam.t float)
             (weight grad mean var out : NDArray)
             (req : list OpReqType) (st : State DType),
      storage_type st weight = kRowSparseStorage ->
      storage_type st grad = kRowSparseStorage ->
      storage_type st mean = kRowSparseStorage ->
      storage_type st var = kRowSparseStorage ->
      storage_type st out = kRowSparseStorage ->
      rsp_all_rows_non_zero st weight = false ->
      exists msg,
        AdamUpdateEx FillDnsZerosRspImpl rsp_all_rows_non_zero param
          [weight; grad; mean; var] req [out] st = Fatal msg st).
Proof.
  split; [|split].
  - intros param weight grad out req st Hw [Hg|Hg] Hcheck;
      unfold SGDUpdateEx; cbn [nth]; rewrite Hw, Hg;
      cbn [NDArrayStorageType_eqb andb];
      unfold SGDUpdateRspRspImpl, SGDUpdateRspDnsImpl,
        CHECK_RSP_ALL_ROWS_NON_ZERO;
      rewrite Hcheck; eauto.
  - intros param weight grad mom out req st Hw Hm [Hg|Hg] Hcheck;
      unfold SGDMomUpdateEx; cbn [nth]; rewrite Hw, Hm, Hg;
      cbn [NDArrayStorageType_eqb andb negb];
      unfold SGDMomUpdateRspRspRspImpl, SGDMomUpdateRspDnsImpl,
        CHECK_RSP_ALL_ROWS_NON_ZERO;
      rewrite Hcheck; eauto.
  - intros param weight grad mean var out req st Hw Hg Hm Hv Ho Hcheck.
    unfold AdamUpdateEx. cbn [nth]. rewrite Hw, Hg, Hm, Hv, Ho.
    cbn [NDArrayStorageType_eqb andb negb].
    unfold AdamUpdateRspRspRspImpl, CHECK_RSP_ALL_ROWS_NON_ZERO.
    rewrite Hcheck. eauto.
Qed.

(** SGD on row-sparse arrays whose weight fails the check, under the write
    mode skip. *)
Lemma incomplete_row_sparse_weight_is_fatal_witness :
  exists msg,
    SGDUpdateEx (fun _ _ => false) fallback_done
      (SGDParam.mk 0.1%R 0.5%R 1%R (-1)%R) [0%nat; 1%nat] [kNullOp]
      [0%nat] (rsp_state 2) = Fatal msg (rsp_state 2).
Proof.
  apply (proj1 (incomplete_row_sparse_weight_is_fatal R_RealType R_RealType
                  R_StaticCast R_StaticCast (fun st _ => st)
                  (fun _ _ => false) fallback_done)).
  - reflexivity.
  - left. reflexivity.
  - reflexivity.
Defined.

(** X12.  Under the write mode skip, with a row-sparse weight that passes the
    all-rows check, the all-row-sparse paths still fill their uninitialized
    state arrays with zeros: [SGDMomUpdateEx] returns the state in which
    the momentum has been filled, [AdamUpdateEx] the state in which mean
    and variance have been.  With a dense gradient, [SGDMomUpdateEx]
    returns before the fill and leaves the state as it was. *)
Theorem skip_still_zero_fills_state
    (DType float : Type) (RD : RealType DType) (RF : RealType float)
    (CDF : StaticCast DType float) (CFD : StaticCast float DType)
    (FillDnsZerosRspImpl : State DType -> NDArray -> State DType)
    (rsp_all_rows_non_zero : State DType -> NDArray -> bool)
    (FCompExFallback :
       (list TBlob -> list OpReqType -> list TBlob -> mem DType ->
        mem DType) ->
       string -> list NDArray -> list OpReqType -> list NDArray ->
       list nat -> State DType -> outcome DType) :
  (forall (param : SGDMomParam.t float) (weight grad mom out : NDArray)
          (st : State DType),
      storage_type st weight = kRowSparseStorage ->
      storage_type st mom = kRowSparseStorage ->
      rsp_all_rows_non_zero st weight = true ->
      storage_initialized st mom = false ->
      (storage_type st grad = kRowSparseStorage ->
       SGDMomUpdateEx FillDnsZerosRspImpl rsp_all_rows_non_zero
         FCompExFallback param [weight; grad; mom] [kNullOp] [out] st =
       Done (FillDnsZerosRspImpl st mom))
      /\ (storage_type st grad = kDefaultStorage ->
          SGDMomUpdateEx FillDnsZerosRspImpl rsp_all_rows_non_zero
            FCompExFallback param [weight; grad; mom] [kNullOp] [out] st =
          Done st))
  /\ (forall (param : AdamParam.t float)
             (weight grad mean var out : NDArray) (st : State DType),
      storage_type st weight = kRowSparseStorage ->
      storage_type st grad = kRowSparseStorage ->
      storage_type st mean = kRowSparseStorage ->
      storage_type st var = kRowSparseStorage ->
      storage_type st out = kRowSparseStorage ->
      rsp_all_rows_non_zero st weight = true ->
      storage_initialized st mean = false ->
      storage_initialized (FillDnsZerosRspImpl st mean) var = false ->
      AdamUpdateEx FillDnsZerosRspImpl rsp_all_rows_non_zero param
        [weight; grad; mean; var] [kNullOp] [out] st =
      Done (FillDnsZerosRspImpl (FillDnsZerosRspImpl st mean) var)).
Proof.
  split.
  - intros param weight grad mom out st Hw Hm Hcheck Hinit. split.
    + intros Hg. unfold SGDMomUpdateEx. cbn [nth]. rewrite Hw, Hm, Hg.
      cbn [NDArrayStorageType_eqb andb negb].
      unfold SGDMomUpdateRspRspRspImpl, CHECK_RSP_ALL_ROWS_NON_ZERO.
      rewrite Hcheck, Hinit. cbn [negb]. cbv zeta.
      unfold SGDMomUpdateDnsRspDnsImpl. cbn [OpReqType_eqb].
      rewrite orb_true_r. reflexivity.
    + intros Hg. unfold SGDMomUpdateEx. cbn [nth]. rewrite Hw, Hm, Hg.
      cbn [NDArrayStorageType_eqb andb negb].
      unfold SGDMomUpdateRspDnsImpl, CHECK_RSP_ALL_ROWS_NON_ZERO.
      rewrite Hcheck, Hw. reflexivity.
  - intros param weight grad mean var out st Hw Hg Hm Hv Ho Hcheck
      Hmean Hvar.
    unfold AdamUpdateEx. cbn [nth]. rewrite Hw, Hg, Hm, Hv, Ho.
    cbn [NDArrayStorageType_eqb andb negb].
    unfold AdamUpdateRspRspRspImpl, CHECK_RSP_ALL_ROWS_NON_ZERO.
    rewrite Hcheck, Hmean. cbn [negb]. cbv zeta. rewrite Hvar. cbn [negb].
    unfold AdamUpdateDnsRspDnsImpl. cbn [OpReqType_eqb].
    rewrite orb_true_r. reflexivity.
Qed.

(** A state of row-sparse arrays in which the array 2 is uninitialized. *)
Definition momentum_uninitialized_state : State R :=
  {| heap := fun _ _ => 1%R;
     arrays := fun nd =>
       {| chunk_stype := kRowSparseStorage;
          chunk_shape := [2%Z; 2%Z];
          chunk_data := {| dptr_ := nd; shape_ := [2%Z; 2%Z] |};
          chunk_idx := fun k => k;
          chunk_idx_rows :=
            match nd with
            | 2%nat => 0%Z
            | _ => 2%Z
            end |} |}.

(** A zero fill that gives the array two rows of zeros. *)
Definition fill_two_rows (st : State R) (nd : NDArray) : State R :=
  {| heap :=
       fun p i =>
         if Nat.eqb p (dptr_ (chunk_data (arrays st nd))) then 0%R
         else heap st p i;
     arrays := fun k =>
       if Nat.eqb k nd then
         {| chunk_stype := chunk_stype (arrays st k);
            chunk_shape := chunk_shape (arrays st k);
            chunk_data := chunk_data (arrays st k);
            chunk_idx := fun r => r;
            chunk_idx_rows := 2%Z |}
       else arrays st k |}.

(** SGD with momentum on row-sparse arrays, momentum uninitialized, write
    mode skip: the momentum is filled. *)
Lemma skip_still_zero_fills_state_witness :
  SGDMomUpdateEx fill_two_rows (fun _ _ => true) fallback_done
    (SGDMomParam.mk 0.1%R 0.9%R 0%R 1%R (-1)%R) [0%nat; 1%nat; 2%nat]
    [kNullOp] [0%nat] momentum_uninitialized_state =
  Done (fill_two_rows momentum_uninitialized_state 2%nat).
Proof.
  apply (proj1 (skip_still_zero_fills_state R_RealType R_RealType
                  R_StaticCast R_StaticCast fill_two_rows
                  (fun _ _ => true) fallback_done));
    reflexivity.
Defined.

(** ** Empty tensors *)

(** X13.  With an initialized gradient and the in-place write mode, the drivers
    of a row-sparse gradient reject an empty weight (and SGD with momentum
    an empty momentum, Adam an empty mean or variance) with a fatal error,
    the state as it was. *)
Theorem sparse_gradient_drivers_reject_empty_tensors
    (DType float : Type) (RD : RealType DType) (RF : RealType float)
    (CDF : StaticCast DType float) (CFD : StaticCast float DType) :
  (forall (param : SGDParam.t float) (weight : TBlob) (grad : NDArray)
          (out : TBlob) (st : State DType),
      storage_type st grad = kRowSparseStorage ->
      storage_initialized st grad = true ->
      (Size (shape_ weight) <= 0)%Z ->
      exists msg,
        SGDUpdateDnsRspImpl param weight grad kWriteInplace out st =
        Fatal msg st)
  /\ (forall (param : SGDMomParam.t float) (weight : TBlob) (grad : NDArray)
             (mom out : TBlob) (st : State DType),
      storage_initialized st grad = true ->
      (Size (shape_ weight) <= 0)%Z \/ (Size (shape_ mom) <= 0)%Z ->
      exists msg,
        SGDMomUpdateDnsRspDnsImpl param weight grad mom kWriteInplace out st
        = Fatal msg st)
  /\ (forall (param : AdamParam.t float) (weight : TBlob) (grad : NDArray)
             (mean var out : TBlob) (st : State DType),
      storage_initialized st grad = true ->
      (Size (shape_ weight) <= 0)%Z \/ (Size (shape_ mean) <= 0)%Z
      \/ (Size (shape_ var) <= 0)%Z ->
      exists msg,
        AdamUpdateDnsRspDnsImpl param weight grad mean var kWriteInplace out
          st = Fatal msg st).
Proof.
  assert (Hgt : forall n, (n <= 0)%Z -> (n >? 0)%Z = false).
  { intros n Hn. destruct (Z.gtb_spec n 0); [lia|reflexivity]. }
  split; [|split].
  - intros param weight grad out st Hs Hinit Hsize.
    unfold SGDUpdateDnsRspImpl. rewrite Hs, Hinit, (Hgt _ Hsize).
    cbn. eauto.
  - intros param weight grad mom out st Hinit Hsize.
    unfold SGDMomUpdateDnsRspDnsImpl. rewrite Hinit. cbn.
    destruct Hsize as [Hsize|Hsize]; rewrite (Hgt _ Hsize); cbn;
      [|destruct (Size (shape_ weight) >? 0)%Z]; cbn; eauto.
  - intros param weight grad mean var out st Hinit Hsize.
    unfold AdamUpdateDnsRspDnsImpl. rewrite Hinit. cbn.
    destruct Hsize as [Hsize|[Hsize|Hsize]]; rewrite (Hgt _ Hsize); cbn;
      [|destruct (Size (shape_ weight) >? 0)%Z
       |destruct (Size (shape_ weight) >? 0)%Z,
          (Size (shape_ mean) >? 0)%Z]; cbn; eauto.
Qed.

(** SGD with an initialized gradient and a weight of shape [[0; 2]]. *)
Lemma sparse_gradient_drivers_reject_empty_tensors_witness :
  exists msg,
    SGDUpdateDnsRspImpl (SGDParam.mk 0.1%R 0.5%R 1%R (-1)%R)
      {| dptr_ := 0%nat; shape_ := [0%Z; 2%Z] |} 1%nat kWriteInplace
      {| dptr_ := 0%nat; shape_ := [0%Z; 2%Z] |} (rsp_state 2) =
    Fatal msg (rsp_state 2).
Proof.
  apply (proj1 (sparse_gradient_drivers_reject_empty_tensors R_RealType
                  R_RealType R_StaticCast R_StaticCast)).
  - reflexivity.
  - reflexivity.
  - simpl. lia.
Defined.

(** ** The row-sparse SGD entry point, end to end *)

(** X14.  [SGDUpdateEx] on a row-sparse weight that holds all its [rows] rows and
    an initialized row-sparse gradient listing [num_rows] of them, in
    place: the call returns normally, leaves the arrays' metadata as it
    was, gives every cell of every row the gradient lists the SGD rule
    with the gradient of that row, overwriting, and leaves every other row
    as it was, in every block of the memory. *)
Theorem SGDUpdateEx_row_sparse_in_place
    (rsp_all_rows_non_zero : State R -> NDArray -> bool)
    (FCompExFallback :
       (list TBlob -> list OpReqType -> list TBlob -> mem R -> mem R) ->
       string -> list NDArray -> list OpReqType -> list NDArray ->
       list nat -> State R -> outcome R)
    (param : SGDParam.t R) (weight grad out : NDArray) (st : State R)
    (rows : Z) (dims : list Z) :
  let row_length := ProdShape1 (rows :: dims) in
  let num_rows := aux_shape_kIdx st grad in
  let grad_idx := aux_data_kIdx st grad in
  let weight_data := dptr_ (data st weight) in
  let grad_val := dptr_ (data st grad) in
  let out_data := dptr_ (data st out) in
  storage_type st weight = kRowSparseStorage ->
  storage_type st grad = kRowSparseStorage ->
  rsp_all_rows_non_zero st weight = true ->
  shape_ (data st weight) = rows :: dims ->
  (0 < row_length)%Z -> (rows * row_length < 2 ^ 32)%Z ->
  (0 < num_rows <= rows)%Z ->
  grad_val <> out_data ->
  (forall k, (0 <= k < num_rows)%Z -> (0 <= grad_idx k < rows)%Z) ->
  (forall k k', (0 <= k < k')%Z -> (k' < num_rows)%Z ->
     (grad_idx k < grad_idx k')%Z) ->
  exists st',
    SGDUpdateEx rsp_all_rows_non_zero FCompExFallback param [weight; grad]
      [kWriteInplace] [out] st = Done st'
    /\ arrays st' = arrays st
    /\ (forall i j, (0 <= i < num_rows)%Z -> (0 <= j < row_length)%Z ->
          load (heap st') out_data (grad_idx i * row_length + j) =
          sgd_rule (SGDParam.lr param) (SGDParam.wd param)
            (SGDParam.rescale_grad param) (SGDParam.clip_gradient param)
            (load (heap st) weight_data (grad_idx i * row_length + j))
            (load (heap st) grad_val (i * row_length + j)))
    /\ (forall r, (0 <= r < rows)%Z ->
          (forall k, (0 <= k < num_rows)%Z -> grad_idx k <> r) ->
          row_unchanged (heap st) (heap st') row_length r).
Proof.
  intros L num_rows grad_idx weight_data grad_val out_data
    Hw Hg Hcheck Hshape HL Hb Hrows Hgo Hidx Hinc.
  assert (Hrl : (rows * 1 <= rows * L)%Z)
    by (apply Z.mul_le_mono_nonneg_l; lia).
  assert (Hlr : (1 * L <= rows * L)%Z)
    by (apply Z.mul_le_mono_nonneg_r; lia).
  assert (HL32 : index_t L = L) by (apply index_t_small; lia).
  assert (Hn32 : index_t num_rows = num_rows)
    by (apply index_t_small; lia).
  assert (Hsize : (Size (shape_ (data st weight)) >? 0)%Z = true).
  { rewrite Hshape. change (Size (rows :: dims)) with (rows * L)%Z.
    apply Z.gtb_lt. lia. }
  assert (Hinit : storage_initialized st grad = true).
  { unfold storage_initialized. fold num_rows.
    destruct (Z.eqb_spec num_rows 0); [lia|reflexivity]. }
  pose proof (strictly_increasing_injective grad_idx Hinc) as Hinj.
  eexists. split; [|split; [|split]].
  - unfold SGDUpdateEx. cbn [nth]. rewrite Hw, Hg.
    cbn [NDArrayStorageType_eqb andb].
    unfold SGDUpdateRspRspImpl, CHECK_RSP_ALL_ROWS_NON_ZERO.
    rewrite Hcheck. cbv zeta. unfold SGDUpdateDnsRspImpl.
    rewrite Hg, Hinit, Hsize. cbn [NDArrayStorageType_eqb negb orb
      OpReqType_eqb MXNET_ASSIGN_REQ_SWITCH].
    rewrite Hshape. fold L num_rows grad_idx weight_data grad_val out_data.
    rewrite HL32, Hn32. reflexivity.
  - reflexivity.
  - intros i j Hi Hj. cbn [heap set_heap].
    unfold static_cast, R_StaticCast.
    rewrite (@SGDDnsRsp_Launch_cell R _ kWriteTo L out_data weight_data
               grad_idx grad_val (SGDParam.clip_gradient param)
               (SGDParam.lr param) (SGDParam.wd param)
               (SGDParam.rescale_grad param) num_rows rows (heap st) i j
               Hgo ltac:(lia) Hidx Hinj Hi Hj).
    unfold SGDDnsRsp_column. cbv zeta.
    rewrite (@index_t_small (grad_idx i * L + j))
      by (apply (@row_cell_bound L rows (grad_idx i) j); auto; lia).
    rewrite (@index_t_small (i * L + j))
      by (apply (@row_cell_bound L rows i j); auto; lia).
    rewrite sgd_rule_code. unfold KERNEL_ASSIGN. mem_simpl. reflexivity.
  - intros r Hr Hnot. cbn [heap set_heap].
    apply SGDDnsRsp_unlisted_row with (rows := rows); [lia|exact Hr|].
    intros k Hk. split; [apply Hidx|apply Hnot]; exact Hk.
Qed.

(** Row-sparse arrays of two rows of two cells, the gradient (array 1)
    listing both rows, its values in block 1 and the weight's in block 0. *)
Definition sgd_ex_state : State R :=
  {| heap := lazy_scenario_mem;
     arrays := fun nd =>
       {| chunk_stype := kRowSparseStorage;
          chunk_shape := [2%Z; 2%Z];
          chunk_data := {| dptr_ := nd; shape_ := [2%Z; 2%Z] |};
          chunk_idx := fun k => k;
          chunk_idx_rows := 2%Z |} |}.

(** The call on [sgd_ex_state] returns normally. *)
Lemma SGDUpdateEx_row_sparse_in_place_witness :
  exists st',
    SGDUpdateEx (fun _ _ => true) fallback_done
      (SGDParam.mk 0.1%R 0%R 1%R (-1)%R) [0%nat; 1%nat] [kWriteInplace]
      [0%nat] sgd_ex_state = Done st'
    /\ arrays st' = arrays sgd_ex_state.
Proof.
  destruct (@SGDUpdateEx_row_sparse_in_place (fun _ _ => true) fallback_done
              (SGDParam.mk 0.1%R 0%R 1%R (-1)%R) 0%nat 1%nat 0%nat
              sgd_ex_state 2%Z [2%Z])
    as (st' & Hdone & Harr & _);
    try reflexivity; try (simpl; lia); try (simpl; discriminate).
  - cbv. split; [reflexivity|discriminate].
  - intros k Hk. exact Hk.
  - intros k k' Hk Hk'. unfold aux_data_kIdx. simpl. lia.
  - exists st'. split; assumption.
Defined.

(** ** The other sparse paths, end to end *)

(** A row of the dense gradient with a non-zero entry passes the scan that
    guards the row kernels. *)
Lemma contains_non_zeros_row (grad : ptr) (num_cols num_rows : Z)
    (m : mem R) (i j0 : Z) :
  (num_rows * num_cols <= 2 ^ 32)%Z -> (0 <= i < num_rows)%Z ->
  (0 <= j0 < num_cols)%Z ->
  load m grad (i * num_cols + j0) <> 0%R ->
  contains_non_zeros (Z.to_nat num_cols) m grad (i * num_cols) 0 = true.
Proof.
  intros Hb Hi Hj0 Hnz.
  assert (0 <= i * num_cols)%Z by (apply Z.mul_nonneg_nonneg; lia).
  assert ((i + 1) * num_cols <= num_rows * num_cols)%Z
    by (apply Z.mul_le_mono_nonneg_r; lia).
  apply contains_non_zeros_true with (C := num_cols) (jz := j0); try lia.
  now apply rnonzero_R.
Qed.

(** X15.  [SGDUpdateEx] on a row-sparse weight that holds all its rows and a
    dense gradient, in place: the call returns normally and leaves the
    arrays' metadata as it was; a row in which the gradient has a non-zero
    entry receives the SGD rule in every cell, overwriting; a row in which
    the gradient is zero throughout is left as it was in every block, so
    no weight decay reaches it. *)
Theorem SGDUpdateEx_dense_gradient_in_place
    (rsp_all_rows_non_zero : State R -> NDArray -> bool)
    (FCompExFallback :
       (list TBlob -> list OpReqType -> list TBlob -> mem R -> mem R) ->
       string -> list NDArray -> list OpReqType -> list NDArray ->
       list nat -> State R -> outcome R)
    (param : SGDParam.t R) (weight grad out : NDArray) (st : State R) :
  let num_rows := aux_shape_kIdx st weight in
  let num_cols := ProdShape1 (shape st weight) in
  let weight_data := dptr_ (data st weight) in
  let grad_data := dptr_ (data st grad) in
  let out_data := dptr_ (data st out) in
  storage_type st weight = kRowSparseStorage ->
  storage_type st grad = kDefaultStorage ->
  rsp_all_rows_non_zero st weight = true ->
  (0 < num_rows)%Z -> (0 < num_cols)%Z ->
  (num_rows * num_cols < 2 ^ 32)%Z ->
  grad_data <> out_data ->
  exists st',
    SGDUpdateEx rsp_all_rows_non_zero FCompExFallback param [weight; grad]
      [kWriteInplace] [out] st = Done st'
    /\ arrays st' = arrays st
    /\ (forall i j j0,
          (0 <= i < num_rows)%Z -> (0 <= j < num_cols)%Z ->
          (0 <= j0 < num_cols)%Z ->
          load (heap st) grad_data (i * num_cols + j0) <> 0%R ->
          load (heap st') out_data (i * num_cols + j) =
          sgd_rule (SGDParam.lr param) (SGDParam.wd param)
            (SGDParam.rescale_grad param) (SGDParam.clip_gradient param)
            (load (heap st) weight_data (i * num_cols + j))
            (load (heap st) grad_data (i * num_cols + j)))
    /\ (forall r, (0 <= r < num_rows)%Z ->
          (forall j, (0 <= j < num_cols)%Z ->
             load (heap st) grad_data (r * num_cols + j) = 0%R) ->
          row_unchanged (heap st) (heap st') num_cols r).
Proof.
  intros num_rows C weight_data grad_data out_data
    Hw Hg Hcheck Hrows HC Hb Hgo.
  assert (Hrl : (num_rows * 1 <= num_rows * C)%Z)
    by (apply Z.mul_le_mono_nonneg_l; lia).
  assert (Hlr : (1 * C <= num_rows * C)%Z)
    by (apply Z.mul_le_mono_nonneg_r; lia).
  assert (HC32 : index_t C = C) by (apply index_t_small; lia).
  assert (Hn32 : index_t num_rows = num_rows)
    by (apply index_t_small; lia).
  assert (Hinit : storage_initialized st weight = true).
  { unfold storage_initialized. fold num_rows.
    destruct (Z.eqb_spec num_rows 0); [lia|reflexivity]. }
  assert (Hb' : (num_rows * C <= 2 ^ 32)%Z) by lia.
  eexists. split; [|split; [|split]].
  - unfold SGDUpdateEx. cbn [nth]. rewrite Hw, Hg.
    cbn [NDArrayStorageType_eqb andb].
    unfold SGDUpdateRspDnsImpl, CHECK_RSP_ALL_ROWS_NON_ZERO.
    rewrite Hcheck, Hw, Hinit.
    cbn [NDArrayStorageType_eqb negb OpReqType_eqb
           MXNET_ASSIGN_REQ_SWITCH].
    fold C num_rows weight_data grad_data out_data.
    rewrite HC32, Hn32. reflexivity.
  - reflexivity.
  - intros i j j0 Hi Hj Hj0 Hnz. cbn [heap set_heap].
    unfold static_cast, R_StaticCast.
    rewrite (@SGDRspDns_Launch_cell R _ kWriteTo C out_data weight_data
               grad_data (SGDParam.clip_gradient param) (SGDParam.lr param)
               (SGDParam.wd param) (SGDParam.rescale_grad param) num_rows
               (heap st) i j Hgo Hb' Hi Hj).
    rewrite (@contains_non_zeros_row grad_data C num_rows (heap st) i j0
               Hb' Hi Hj0 Hnz).
    unfold SGDRspDns_column. cbv zeta.
    rewrite (dense_row_cell Hb' Hi Hj).
    replace (SGDParam.lr param * SGDParam.rescale_grad param
             * load (heap st) grad_data (i * C + j))%num
      with ((SGDParam.lr param * SGDParam.rescale_grad param)
            * load (heap st) grad_data (i * C + j))%num by reflexivity.
    rewrite sgd_rule_code. unfold KERNEL_ASSIGN. mem_simpl. reflexivity.
  - intros r Hr Hz. cbn [heap set_heap].
    apply SGDRspDns_zero_row; [exact Hb'|exact Hr|].
    intros j Hj. specialize (Hz j Hj).
    destruct (rnonzero (load (heap st) grad_data (r * C + j))) eqn:Hnz;
      [|reflexivity].
    apply rnonzero_R in Hnz. contradiction.
Qed.

(** A row-sparse weight (array 0) of two rows of two cells holding both,
    with a dense gradient (array 1). *)
Definition sgd_ex_dense_state : State R :=
  {| heap := lazy_scenario_mem;
     arrays := fun nd =>
       {| chunk_stype :=
            match nd with
            | 1%nat => kDefaultStorage
            | _ => kRowSparseStorage
            end;
          chunk_shape := [2%Z; 2%Z];
          chunk_data := {| dptr_ := nd; shape_ := [2%Z; 2%Z] |};
          chunk_idx := fun k => k;
          chunk_idx_rows := 2%Z |} |}.

(** The call on [sgd_ex_dense_state] returns normally. *)
Lemma SGDUpdateEx_dense_gradient_in_place_witness :
  exists st',
    SGDUpdateEx (fun _ _ => true) fallback_done
      (SGDParam.mk 0.1%R 0%R 1%R (-1)%R) [0%nat; 1%nat] [kWriteInplace]
      [0%nat] sgd_ex_dense_state = Done st'
    /\ arrays st' = arrays sgd_ex_dense_state.
Proof.
  destruct (@SGDUpdateEx_dense_gradient_in_place (fun _ _ => true)
              fallback_done (SGDParam.mk 0.1%R 0%R 1%R (-1)%R) 0%nat 1%nat
              0%nat sgd_ex_dense_state)
    as (st' & Hdone & Harr & _);
    try reflexivity; try (simpl; discriminate).
  exists st'. split; assumption.
Defined.

(** X16.  [SGDMomUpdateEx] on a row-sparse weight that holds all its [rows]
    rows, an initialized row-sparse momentum and an initialized row-sparse
    gradient, in place: the call returns normally without filling
    anything, leaves the arrays' metadata as it was, gives every cell of
    every listed row the momentum rule and the output [weight + mom'], and
    leaves every other row as it was in every block. *)
Theorem SGDMomUpdateEx_row_sparse_in_place
    (FillDnsZerosRspImpl : State R -> NDArray -> State R)
    (rsp_all_rows_non_zero : State R -> NDArray -> bool)
    (FCompExFallback :
       (list TBlob -> list OpReqType -> list TBlob -> mem R -> mem R) ->
       string -> list NDArray -> list OpReqType -> list NDArray ->
       list nat -> State R -> outcome R)
    (param : SGDMomParam.t R) (weight grad mom out : NDArray)
    (st : State R) (rows : Z) (dims : list Z) :
  let row_length := ProdShape1 (rows :: dims) in
  let num_rows := aux_shape_kIdx st grad in
  let grad_idx := aux_data_kIdx st grad in
  let weight_data := dptr_ (data st weight) in
  let grad_val := dptr_ (data st grad) in
  let mom_data := dptr_ (data st mom) in
  let out_data := dptr_ (data st out) in
  storage_type st weight = kRowSparseStorage ->
  storage_type st grad = kRowSparseStorage ->
  storage_type st mom = kRowSparseStorage ->
  rsp_all_rows_non_zero st weight = true ->
  storage_initialized st mom = true ->
  shape_ (data st weight) = rows :: dims ->
  (0 < Size (shape_ (data st mom)))%Z ->
  (0 < row_length)%Z -> (rows * row_length < 2 ^ 32)%Z ->
  (0 < num_rows <= rows)%Z ->
  weight_data <> mom_data -> out_data <> mom_data ->
  grad_val <> mom_data -> grad_val <> out_data ->
  (forall k, (0 <= k < num_rows)%Z -> (0 <= grad_idx k < rows)%Z) ->
  (forall k k', (0 <= k < k')%Z -> (k' < num_rows)%Z ->
     (grad_idx k < grad_idx k')%Z) ->
  exists st',
    SGDMomUpdateEx FillDnsZerosRspImpl rsp_all_rows_non_zero FCompExFallback
      param [weight; grad; mom] [kWriteInplace] [out] st = Done st'
    /\ arrays st' = arrays st
    /\ (forall i j, (0 <= i < num_rows)%Z -> (0 <= j < row_length)%Z ->
          let d := (grad_idx i * row_length + j)%Z in
          let mom' :=
            sgd_mom_rule (SGDMomParam.lr param) (SGDMomParam.momentum param)
              (SGDMomParam.wd param) (SGDMomParam.rescale_grad param)
              (SGDMomParam.clip_gradient param)
              (load (heap st) weight_data d)
              (load (heap st) grad_val (i * row_length + j))
              (load (heap st) mom_data d) in
          load (heap st') mom_data d = mom'
          /\ load (heap st') out_data d =
             (load (heap st) weight_data d + mom')%R)
    /\ (forall r, (0 <= r < rows)%Z ->
          (forall k, (0 <= k < num_rows)%Z -> grad_idx k <> r) ->
          row_unchanged (heap st) (heap st') row_length r).
Proof.
  intros L num_rows grad_idx weight_data grad_val mom_data out_data
    Hw Hg Hm Hcheck Hminit Hshape Hmsize HL Hb Hrows
    Hwm Hom Hgm Hgo Hidx Hinc.
  assert (Hrl : (rows * 1 <= rows * L)%Z)
    by (apply Z.mul_le_mono_nonneg_l; lia).
  assert (Hlr : (1 * L <= rows * L)%Z)
    by (apply Z.mul_le_mono_nonneg_r; lia).
  assert (HL32 : index_t L = L) by (apply index_t_small; lia).
  assert (Hn32 : index_t num_rows = num_rows)
    by (apply index_t_small; lia).
  assert (Hsize : (Size (shape_ (data st weight)) >? 0)%Z = true).
  { rewrite Hshape. change (Size (rows :: dims)) with (rows * L)%Z.
    apply Z.gtb_lt. lia. }
  assert (Hsizem : (Size (shape_ (data st mom)) >? 0)%Z = true)
    by (apply Z.gtb_lt; lia).
  assert (Hinit : storage_initialized st grad = true).
  { unfold storage_initialized. fold num_rows.
    destruct (Z.eqb_spec num_rows 0); [lia|reflexivity]. }
  assert (Hb' : (rows * L <= 2 ^ 32)%Z) by lia.
  pose proof (strictly_increasing_injective grad_idx Hinc) as Hinj.
  eexists. split; [|split; [|split]].
  - unfold SGDMomUpdateEx. cbn [nth]. rewrite Hw, Hg, Hm.
    cbn [NDArrayStorageType_eqb andb negb].
    unfold SGDMomUpdateRspRspRspImpl, CHECK_RSP_ALL_ROWS_NON_ZERO.
    rewrite Hcheck, Hminit. cbn [negb]. cbv zeta.
    unfold SGDMomUpdateDnsRspDnsImpl.
    rewrite Hinit, Hsize, Hsizem.
    cbn [negb orb OpReqType_eqb MXNET_ASSIGN_REQ_SWITCH].
    rewrite Hshape.
    fold L num_rows grad_idx weight_data grad_val mom_data out_data.
    rewrite HL32, Hn32. reflexivity.
  - reflexivity.
  - intros i j Hi Hj d mom'. cbn [heap set_heap].
    unfold static_cast, R_StaticCast.
    pose proof (@SGDMomDnsRspDns_Launch_cell R _ kWriteTo L out_data
                  mom_data weight_data grad_idx grad_val
                  (SGDMomParam.clip_gradient param)
                  (SGDMomParam.momentum param) (SGDMomParam.lr param)
                  (SGDMomParam.wd param) (SGDMomParam.rescale_grad param)
                  num_rows rows (heap st) i j Hgm Hgo Hb' Hidx Hinj Hi Hj)
      as Hcell.
    destruct (@SGDMomDnsRspDns_column_rule kWriteTo L out_data mom_data
                weight_data grad_idx grad_val
                (SGDMomParam.clip_gradient param)
                (SGDMomParam.momentum param) (SGDMomParam.lr param)
                (SGDMomParam.wd param) (SGDMomParam.rescale_grad param)
                i j (heap st) Hwm Hom) as [Hmom Hout].
    + apply index_t_small. eapply row_cell_bound; eauto.
    + apply index_t_small.
      apply (@row_cell_bound L rows i j); auto; lia.
    + subst d mom'. rewrite !Hcell. split; assumption.
  - intros r Hr Hnot. cbn [heap set_heap].
    apply SGDMomDnsRspDns_unlisted_row with (rows := rows);
      [exact Hb'|exact Hr|].
    intros k Hk. split; [apply Hidx|apply Hnot]; exact Hk.
Qed.

(** Row-sparse arrays of two rows of two cells, all initialized, each with
    its values in the block of its own number. *)
Definition sparse_ex_state : State R :=
  {| heap := sgd_mom_scenario_mem;
     arrays := fun nd =>
       {| chunk_stype := kRowSparseStorage;
          chunk_shape := [2%Z; 2%Z];
          chunk_data := {| dptr_ := nd; shape_ := [2%Z; 2%Z] |};
          chunk_idx := fun k => k;
          chunk_idx_rows := 2%Z |} |}.

(** The call on [sparse_ex_state] returns normally. *)
Lemma SGDMomUpdateEx_row_sparse_in_place_witness :
  exists st',
    SGDMomUpdateEx (fun st _ => st) (fun _ _ => true) fallback_done
      (SGDMomParam.mk 0.1%R 0.9%R 0%R 1%R (-1)%R) [0%nat; 1%nat; 2%nat]
      [kWriteInplace] [0%nat] sparse_ex_state = Done st'
    /\ arrays st' = arrays sparse_ex_state.
Proof.
  destruct (@SGDMomUpdateEx_row_sparse_in_place (fun st _ => st)
              (fun _ _ => true) fallback_done
              (SGDMomParam.mk 0.1%R 0.9%R 0%R 1%R (-1)%R) 0%nat 1%nat 2%nat
              0%nat sparse_ex_state 2%Z [2%Z])
    as (st' & Hdone & Harr & _);
    try reflexivity; try (simpl; discriminate).
  - cbv. split; [reflexivity|discriminate].
  - intros k Hk. exact Hk.
  - intros k k' Hk Hk'. unfold aux_data_kIdx. simpl. lia.
  - exists st'. split; assumption.
Defined.

(** X17.  [AdamUpdateEx] on row-sparse arrays, the weight holding all its rows,
    mean and variance initialized, the gradient initialized, in place: the
    call returns normally without filling anything, leaves the arrays'
    metadata as it was, gives every cell of every listed row the Adam
    rule, and leaves every other row as it was in every block. *)
Theorem AdamUpdateEx_row_sparse_in_place
    (FillDnsZerosRspImpl : State R -> NDArray -> State R)
    (rsp_all_rows_non_zero : State R -> NDArray -> bool)
    (param : AdamParam.t R) (weight grad mean var out : NDArray)
    (st : State R) :
  let row_length := ProdShape1 (shape_ (data st weight)) in
  let num_rows := aux_shape_kIdx st grad in
  let grad_idx := aux_data_kIdx st grad in
  let weight_data := dptr_ (data st weight) in
  let grad_val := dptr_ (data st grad) in
  let mean_data := dptr_ (data st mean) in
  let var_data := dptr_ (data st var) in
  let out_data := dptr_ (data st out) in
  storage_type st weight = kRowSparseStorage ->
  storage_type st grad = kRowSparseStorage ->
  storage_type st mean = kRowSparseStorage ->
  storage_type st var = kRowSparseStorage ->
  storage_type st out = kRowSparseStorage ->
  rsp_all_rows_non_zero st weight = true ->
  storage_initialized st mean = true ->
  storage_initialized st var = true ->
  (0 < Size (shape_ (data st weight)))%Z ->
  (0 < Size (shape_ (data st mean)))%Z ->
  (0 < Size (shape_ (data st var)))%Z ->
  (0 < num_rows)%Z ->
  NoDup [weight_data; grad_val; mean_data; var_data] ->
  ~ In out_data [grad_val; mean_data; var_data] ->
  (forall k k', (0 <= k < k')%Z -> (k' < num_rows)%Z ->
     (grad_idx k < grad_idx k')%Z) ->
  exists st',
    AdamUpdateEx FillDnsZerosRspImpl rsp_all_rows_non_zero param
      [weight; grad; mean; var] [kWriteInplace] [out] st = Done st'
    /\ arrays st' = arrays st
    /\ (forall i j, (0 <= i < num_rows)%Z -> (0 <= j < row_length)%Z ->
          let d := (grad_idx i * row_length + j)%Z in
          let grad' :=
            decayed_gradient (AdamParam.wd param)
              (AdamParam.rescale_grad param) (AdamParam.clip_gradient param)
              (load (heap st) weight_data d)
              (load (heap st) grad_val (i * row_length + j)) in
          let mean' :=
            (AdamParam.beta1 param * load (heap st) mean_data d
             + (1 - AdamParam.beta1 param) * grad')%R in
          let var' :=
            (AdamParam.beta2 param * load (heap st) var_data d
             + (1 - AdamParam.beta2 param) * grad' ^ 2)%R in
          load (heap st') mean_data d = mean'
          /\ load (heap st') var_data d = var'
          /\ load (heap st') out_data d =
             (load (heap st) weight_data d
              - AdamParam.lr param * mean'
                / (sqrt var' + AdamParam.epsilon param))%R)
    /\ (forall r,
          (forall k, (0 <= k < num_rows)%Z -> grad_idx k <> r) ->
          row_unchanged (heap st) (heap st') row_length r).
Proof.
  intros L num_rows grad_idx weight_data grad_val mean_data var_data
    out_data Hw Hg Hm Hv Ho Hcheck Hminit Hvinit Sw Sm Sv Hrows Hnd Hout
    Hinc.
  apply NoDup_cons_iff in Hnd as [Hn1 Hnd].
  apply NoDup_cons_iff in Hnd as [Hn2 Hnd].
  apply NoDup_cons_iff in Hnd as [Hn3 _].
  simpl in Hn1, Hn2, Hn3, Hout.
  assert (Hinit : storage_initialized st grad = true).
  { unfold storage_initialized. fold num_rows.
    destruct (Z.eqb_spec num_rows 0); [lia|reflexivity]. }
  apply Z.gtb_lt in Sw, Sm, Sv.
  pose proof (strictly_increasing_injective grad_idx Hinc) as Hinj.
  eexists. split; [|split; [|split]].
  - unfold AdamUpdateEx. cbn [nth]. rewrite Hw, Hg, Hm, Hv, Ho.
    cbn [NDArrayStorageType_eqb andb negb].
    unfold AdamUpdateRspRspRspImpl, CHECK_RSP_ALL_ROWS_NON_ZERO.
    rewrite Hcheck, Hminit. cbn [negb]. cbv zeta. rewrite Hvinit.
    cbn [negb]. unfold AdamUpdateDnsRspDnsImpl.
    rewrite Hinit, Sw, Sm, Sv.
    cbn [negb orb OpReqType_eqb MXNET_ASSIGN_REQ_SWITCH].
    reflexivity.
  - reflexivity.
  - intros i j Hi Hj d grad' mean' var'. cbn [heap set_heap].
    unfold static_cast, R_StaticCast.
    fold L num_rows grad_idx weight_data grad_val mean_data var_data
      out_data.
    assert (Hcell :
      agree_at d
        (Launch num_rows
           (fun i =>
              AdamDnsRspDnsKernel_Map kWriteTo i L out_data mean_data
                var_data weight_data grad_idx grad_val
                (AdamParam.clip_gradient param) (AdamParam.beta1 param)
                (AdamParam.beta2 param) (AdamParam.lr param)
                (AdamParam.wd param) (AdamParam.epsilon param)
                (AdamParam.rescale_grad param)) (heap st))
        (AdamDnsRspDns_column kWriteTo L out_data mean_data var_data
           weight_data grad_idx grad_val (AdamParam.clip_gradient param)
           (AdamParam.beta1 param) (AdamParam.beta2 param)
           (AdamParam.lr param) (AdamParam.wd param)
           (AdamParam.epsilon param) (AdamParam.rescale_grad param) i j
           (heap st))).
    { apply AdamDnsRspDns_Launch_cell; auto; intros Heq; rewrite Heq in *;
        tauto. }
    destruct (@AdamDnsRspDns_column_rule kWriteTo L out_data mean_data
                var_data weight_data grad_idx grad_val
                (AdamParam.clip_gradient param) (AdamParam.beta1 param)
                (AdamParam.beta2 param) (AdamParam.lr param)
                (AdamParam.wd param) (AdamParam.epsilon param)
                (AdamParam.rescale_grad param) i j (heap st))
      as [Hmean [Hvar Hwt]];
      try (intros Heq; rewrite Heq in *; tauto).
    rewrite !Hcell. subst d grad' mean' var'. unfold decayed_gradient.
    repeat split; assumption.
  - intros r Hnot. cbn [heap set_heap].
    apply AdamDnsRspDns_unlisted_row. exact Hnot.
Qed.

(** Five row-sparse arrays, each with its values in the block of its own
    number. *)
Lemma AdamUpdateEx_row_sparse_in_place_witness :
  exists st',
    AdamUpdateEx (fun st _ => st) (fun _ _ => true) adam_scenario_param
      [0%nat; 1%nat; 2%nat; 3%nat] [kWriteInplace] [0%nat]
      sparse_ex_state = Done st'
    /\ arrays st' = arrays sparse_ex_state.
Proof.
  destruct (@AdamUpdateEx_row_sparse_in_place (fun st _ => st)
              (fun _ _ => true) adam_scenario_param 0%nat 1%nat 2%nat 3%nat
              0%nat sparse_ex_state)
    as (st' & Hdone & Harr & _);
    try reflexivity.
  - simpl. repeat constructor; simpl; intuition discriminate.
  - simpl. intuition discriminate.
  - intros k k' Hk Hk'. unfold aux_data_kIdx. simpl. lia.
  - exists st'. split; assumption.
Defined.

(** X18.  [SGDMomUpdateEx] on a row-sparse weight that holds all its rows, a
    row-sparse momentum and a dense gradient, in place.  The kernel runs on
    the state [st1] in which an uninitialized momentum has been filled with
    zeros (the state itself when the momentum is initialized): the call
    returns normally with the arrays' metadata of [st1]; a row in which
    the gradient has a non-zero entry receives, in every cell, the
    momentum rule and the output [weight + mom'] on the values of [st1]; a
    row in which the gradient is zero throughout is as in [st1], in every
    block. *)
Theorem SGDMomUpdateEx_dense_gradient_in_place
    (FillDnsZerosRspImpl : State R -> NDArray -> State R)
    (rsp_all_rows_non_zero : State R -> NDArray -> bool)
    (FCompExFallback :
       (list TBlob -> list OpReqType -> list TBlob -> mem R -> mem R) ->
       string -> list NDArray -> list OpReqType -> list NDArray ->
       list nat -> State R -> outcome R)
    (param : SGDMomParam.t R) (weight grad mom out : NDArray)
    (st : State R) :
  let st1 :=
    if storage_initialized st mom then st
    else FillDnsZerosRspImpl st mom in
  let num_rows := aux_shape_kIdx st1 weight in
  let num_cols := ProdShape1 (shape st1 weight) in
  let weight_data := dptr_ (data st1 weight) in
  let grad_data := dptr_ (data st grad) in
  let mom_data := dptr_ (data st1 mom) in
  let out_data := dptr_ (data st1 out) in
  storage_type st weight = kRowSparseStorage ->
  storage_type st grad = kDefaultStorage ->
  storage_type st mom = kRowSparseStorage ->
  rsp_all_rows_non_zero st weight = true ->
  storage_initialized st weight = true ->
  (0 < num_rows)%Z -> (0 < num_cols)%Z ->
  (num_rows * num_cols < 2 ^ 32)%Z ->
  grad_data <> out_data -> grad_data <> mom_data ->
  weight_data <> mom_data -> out_data <> mom_data ->
  exists st',
    SGDMomUpdateEx FillDnsZerosRspImpl rsp_all_rows_non_zero FCompExFallback
      param [weight; grad; mom] [kWriteInplace] [out] st = Done st'
    /\ arrays st' = arrays st1
    /\ (forall i j j0,
          (0 <= i < num_rows)%Z -> (0 <= j < num_cols)%Z ->
          (0 <= j0 < num_cols)%Z ->
          load (heap st1) grad_data (i * num_cols + j0) <> 0%R ->
          let d := (i * num_cols + j)%Z in
          let mom' :=
            sgd_mom_rule (SGDMomParam.lr param) (SGDMomParam.momentum param)
              (SGDMomParam.wd param) (SGDMomParam.rescale_grad param)
              (SGDMomParam.clip_gradient param)
              (load (heap st1) weight_data d) (load (heap st1) grad_data d)
              (load (heap st1) mom_data d) in
          load (heap st') mom_data d = mom'
          /\ load (heap st') out_data d =
             (load (heap st1) weight_data d + mom')%R)
    /\ (forall r, (0 <= r < num_rows)%Z ->
          (forall j, (0 <= j < num_cols)%Z ->
             load (heap st1) grad_data (r * num_cols + j) = 0%R) ->
          row_unchanged (heap st1) (heap st') num_cols r).
Proof.
  intros st1 num_rows C weight_data grad_data mom_data out_data
    Hw Hg Hm Hcheck Hinit Hrows HC Hb Hgo Hgm Hwm Hom.
  assert (Hrl : (num_rows * 1 <= num_rows * C)%Z)
    by (apply Z.mul_le_mono_nonneg_l; lia).
  assert (Hlr : (1 * C <= num_rows * C)%Z)
    by (apply Z.mul_le_mono_nonneg_r; lia).
  assert (HC32 : index_t C = C) by (apply index_t_small; lia).
  assert (Hn32 : index_t num_rows = num_rows)
    by (apply index_t_small; lia).
  assert (Hb' : (num_rows * C <= 2 ^ 32)%Z) by lia.
  assert (Hcall :
    SGDMomUpdateEx FillDnsZerosRspImpl rsp_all_rows_non_zero FCompExFallback
      param [weight; grad; mom] [kWriteInplace] [out] st =
    Done (set_heap st1
            (Launch num_rows
               (fun i =>
                  SGDMomRspDnsKernel_Map kWriteTo i C out_data mom_data
                    weight_data grad_data (SGDMomParam.clip_gradient param)
                    (SGDMomParam.momentum param) (SGDMomParam.lr param)
                    (SGDMomParam.wd param) (SGDMomParam.rescale_grad param))
               (heap st1)))).
  { unfold SGDMomUpdateEx. cbn [nth]. rewrite Hw, Hg, Hm.
    cbn [NDArrayStorageType_eqb andb negb].
    unfold SGDMomUpdateRspDnsImpl, CHECK_RSP_ALL_ROWS_NON_ZERO.
    rewrite Hcheck, Hw, Hinit.
    cbn [NDArrayStorageType_eqb negb OpReqType_eqb]. cbv zeta.
    unfold static_cast, R_StaticCast.
    subst num_rows C weight_data mom_data out_data st1.
    destruct (storage_initialized st mom); cbn [negb] in *;
      cbn [MXNET_ASSIGN_REQ_SWITCH]; rewrite HC32, Hn32; reflexivity. }
  eexists. split; [exact Hcall|]. split; [reflexivity|]. split.
  - intros i j j0 Hi Hj Hj0 Hnz d mom'. cbn [heap set_heap].
    rewrite !(@SGDMomRspDns_Launch_cell R _ kWriteTo C out_data mom_data
                weight_data grad_data (SGDMomParam.clip_gradient param)
                (SGDMomParam.momentum param) (SGDMomParam.lr param)
                (SGDMomParam.wd param) (SGDMomParam.rescale_grad param)
                num_rows (heap st1) i j Hgo Hgm Hb' Hi Hj).
    rewrite (@contains_non_zeros_row grad_data C num_rows (heap st1) i j0
               Hb' Hi Hj0 Hnz).
    unfold SGDMomRspDns_column. cbv zeta.
    rewrite (dense_row_cell Hb' Hi Hj).
    rewrite SGDMom_new_mom_rule. subst d mom'.
    unfold sgd_mom_rule, KERNEL_ASSIGN.
    split; mem_simpl; reflexivity.
  - intros r Hr Hz. cbn [heap set_heap].
    apply SGDMomRspDns_zero_row; [exact Hb'|exact Hr|].
    intros j Hj. specialize (Hz j Hj).
    destruct (rnonzero (load (heap st1) grad_data (r * C + j))) eqn:Hnz;
      [|reflexivity].
    apply rnonzero_R in Hnz. contradiction.
Qed.

(** A row-sparse weight (array 0) holding its two rows of two cells, a
    dense gradient (array 1) and an uninitialized row-sparse momentum
    (array 2), each with its values in the block of its own number. *)
Definition sgd_mom_ex_dense_state : State R :=
  {| heap := sgd_mom_scenario_mem;
     arrays := fun nd =>
       {| chunk_stype :=
            match nd with
            | 1%nat => kDefaultStorage
            | _ => kRowSparseStorage
            end;
          chunk_shape := [2%Z; 2%Z];
          chunk_data := {| dptr_ := nd; shape_ := [2%Z; 2%Z] |};
          chunk_idx := fun k => k;
          chunk_idx_rows :=
            match nd with
            | 2%nat => 0%Z
            | _ => 2%Z
            end |} |}.

(** The call on [sgd_mom_ex_dense_state] returns normally, with the
    momentum filled. *)
Lemma SGDMomUpdateEx_dense_gradient_in_place_witness :
  exists st',
    SGDMomUpdateEx fill_two_rows (fun _ _ => true) fallback_done
      (SGDMomParam.mk 0.1%R 0.9%R 0%R 1%R (-1)%R) [0%nat; 1%nat; 2%nat]
      [kWriteInplace] [0%nat] sgd_mom_ex_dense_state = Done st'
    /\ arrays st' = arrays (fill_two_rows sgd_mom_ex_dense_state 2%nat).
Proof.
  destruct (@SGDMomUpdateEx_dense_gradient_in_place fill_two_rows
              (fun _ _ => true) fallback_done
              (SGDMomParam.mk 0.1%R 0.9%R 0%R 1%R (-1)%R) 0%nat 1%nat 2%nat
              0%nat sgd_mom_ex_dense_state)
    as (st' & Hdone & Harr & _);
    try reflexivity; try (simpl; discriminate).
  exists st'. split; assumption.
Defined.
